(** * Job lifecycle of the auto video downloader

    A shallow embedding of the job store, the queue and the pipeline
    executors of the repository:

    - [Server]: [src/server.py], the single-process Flask server with the
      in-memory [jobs] dict backed by [JOBS_DIR], and its executor
      [download_and_process];
    - [Worker]: [src/web/app.py] and [src/worker/server.py] in filesystem
      mode ([REDIS_URL] unset), where [QUEUE_DIR] is both the queue and
      the job store, with [blpop_job], [process_job] and [worker_loop];
    - [Client]: [src/client/send_request.py], which reads the URLs of a
      file and submits them to the server;
    - [Py]: the methods of Python's [str] that the dashboard and the client
      apply to these texts.

    Python code that reads or mutates process state (dicts, files,
    directories) or may raise becomes a function in the state-and-exception
    monad [M W]; the external collaborators (the yt-dlp process, the
    archiver, the Drive client) are an [Env] record of outcomes chosen by
    the environment. *)

From stdpp Require Import base option list sorting gmap strings pretty.
From Stdlib Require Import ZArith.

(** ** Exceptions and the state-and-exception monad *)

(** Python exceptions.  [SystemExit] derives from [BaseException] only, so
    that an [except Exception] clause does not catch it. *)
Inductive exn : Type :=
  | Exception (msg : string)
  | SystemExit (msg : string).

(** [str(e)] *)
Definition exn_str (e : exn) : string :=
  match e with Exception msg => msg | SystemExit msg => msg end.

Inductive Res (A : Type) : Type :=
  | Ok (a : A)
  | Raise (e : exn).
Arguments Ok {A} a.
Arguments Raise {A} e.

Definition M (W A : Type) : Type := W → Res A * W.

Section monad.
Context {W : Type}.

Definition m_ret {A} (a : A) : M W A := λ w, (Ok a, w).

Definition m_bind {A B} (f : A → M W B) (m : M W A) : M W B := λ w,
  match m w with
  | (Ok a, w') => f a w'
  | (Raise e, w') => (Raise e, w')
  end.

Definition raise {A} (e : exn) : M W A := λ w, (Raise e, w).
Definition gets {A} (f : W → A) : M W A := λ w, (Ok (f w), w).
Definition modify (f : W → W) : M W unit := λ w, (Ok tt, f w).

(** [try: body / except Exception as e: handler(e)] *)
Definition try_except {A} (body : M W A) (handler : exn → M W A) : M W A :=
  λ w,
  match body w with
  | (Raise (Exception msg), w') => handler (Exception msg) w'
  | r => r
  end.

(** [try: body / except: handler] (a bare except catches everything) *)
Definition try_except_all {A} (body : M W A) (handler : M W A) : M W A :=
  λ w,
  match body w with
  | (Raise _, w') => handler w'
  | r => r
  end.

(** [try: body / finally: cleanup]: the cleanup runs on every exit of
    the body; an exception of the body is re-raised after it unless the
    cleanup raises itself. *)
Definition try_finally {A} (body : M W A) (cleanup : M W unit) : M W A :=
  λ w,
  match body w with
  | (r, w') =>
      match cleanup w' with
      | (Ok _, w'') => (r, w'')
      | (Raise e, w'') => (Raise e, w'')
      end
  end.

(** [if c: body] *)
Definition when (c : bool) (body : M W unit) : M W unit :=
  if c then body else m_ret tt.
End monad.

#[global] Instance M_ret {W} : MRet (M W) := @m_ret W.
#[global] Instance M_bind {W} : MBind (M W) := @m_bind W.

(** The world reached and the outcome returned by a computation. *)
Definition exec {W A} (m : M W A) (w : W) : W := (m w).2.
Definition outcome {W A} (m : M W A) (w : W) : Res A := (m w).1.

(** Weakest precondition: [Q] holds of the value and world when [m]
    returns, [E] of the exception and world when it raises. *)
Definition wp {W A} (m : M W A) (Q : A → W → Prop) (E : exn → W → Prop)
    (w : W) : Prop :=
  match m w with
  | (Ok a, w') => Q a w'
  | (Raise e, w') => E e w'
  end.

(** [I] holds after [m] whenever it held before, however [m] ends. *)
Definition preserves {W A} (I : W → Prop) (m : M W A) : Prop :=
  ∀ w, I w → I (exec m w).

(** ** Files holding a JSON document

    The text of a file is modelled up to the JSON codec: a complete
    document is the record [json.load] returns for it; the other texts
    that the programs can leave behind are the empty file, which
    [open(path, "w")] creates, and a proper prefix of a document, which an
    interrupted [json.dump] leaves.  [json.load] rejects both. *)
Inductive file (J : Type) : Type :=
  | Empty
  | Partial (j : J) (written : nat)
  | Complete (j : J).
Arguments Empty {J}.
Arguments Partial {J} j written.
Arguments Complete {J} j.

Definition json_load {J} (f : file J) : Res J :=
  match f with
  | Complete j => Ok j
  | _ => Raise (Exception "JSONDecodeError")
  end.

(** What can go wrong in [with open(path, "w") as f: json.dump(job, f)]:
    the [open] is refused, or the dump stops after [written] characters
    reached the file. *)
Inductive fault : Type :=
  | OpenFails (msg : string)
  | DumpFails (written : nat) (msg : string).

(** [open(path, "w")]: unless it is refused, the file is created or
    truncated. *)
Definition open_w {J} (flt : option fault) (path : string)
    (dir : gmap string (file J)) : Res unit * gmap string (file J) :=
  match flt with
  | Some (OpenFails msg) => (Raise (Exception msg), dir)
  | _ => (Ok tt, <[path := Empty]> dir)
  end.

(** [json.dump(j, f)] into the file just opened: the document is written
    from its first character on, in full unless the dump stops. *)
Definition json_dump {J} (flt : option fault) (path : string) (j : J)
    (dir : gmap string (file J)) : Res unit * gmap string (file J) :=
  match flt with
  | Some (DumpFails 0 msg) => (Raise (Exception msg), dir)
  | Some (DumpFails n msg) => (Raise (Exception msg), <[path := Partial j n]> dir)
  | _ => (Ok tt, <[path := Complete j]> dir)
  end.

(** [with open(path, "w") as f: json.dump(job, f)] on a directory [dir],
    under the fault (if any) the environment injects. *)
Definition write_json {J} (flt : option fault) (path : string) (j : J)
    (dir : gmap string (file J)) : Res unit * gmap string (file J) :=
  match open_w flt path dir with
  | (Ok _, dir') => json_dump flt path j dir'
  | r => r
  end.

(** The faults to come are a list, one entry per write: [None], or no
    entry left, lets the write succeed. *)
Definition next_fault (flts : list (option fault)) : option fault :=
  match flts with
  | [] => None
  | flt :: _ => flt
  end.

(** What a put of [j] at [path] under the fault [flt] does to a directory
    [dir], as a relation between the outcome [r] and the directory [dir']
    it leaves: no other file changes; a put that succeeds leaves the new
    record; a refused [open] leaves the file as it was; a dump that stops
    leaves a truncated file that [json.load] rejects. *)
Definition put_outcome {J} (flt : option fault) (path : string) (j : J)
    (dir : gmap string (file J)) (r : Res unit) (dir' : gmap string (file J))
    : Prop :=
  (∀ p, p ≠ path → dir' !! p = dir !! p) ∧
  match flt with
  | None => r = Ok tt ∧ dir' !! path = Some (Complete j)
  | Some (OpenFails msg) =>
      r = Raise (Exception msg) ∧ dir' !! path = dir !! path
  | Some (DumpFails n msg) =>
      r = Raise (Exception msg) ∧
      ∃ f, dir' !! path = Some f ∧ (f = Empty ∨ f = Partial j n) ∧
           json_load f = Raise (Exception "JSONDecodeError")
  end.

(** [s.endswith(suffix)] *)
Definition endswith (s suffix : string) : bool :=
  bool_decide (String.length suffix ≤ String.length s)%nat &&
  String.eqb
    (String.substring (String.length s - String.length suffix)
       (String.length suffix) s)
    suffix.

(** [f"{job_id}.json"] *)
Definition json_name (job_id : string) : string := job_id +:+ ".json".

(** * Python text

    The methods of [str] that the dashboard and the client call on what
    the user typed.  A [str] is its sequence of Unicode code points. *)
Module Py.

Definition str : Type := list N.

(** [c.isspace()] for one character: the code points whose bidirectional
    type is WS, B or S, or whose category is Zs. *)
Definition isspace (c : N) : bool :=
  ((9 <=? c) && (c <=? 13) || (28 <=? c) && (c <=? 32) || (c =? 133) ||
   (c =? 160) || (c =? 5760) || (8192 <=? c) && (c <=? 8202) ||
   (c =? 8232) || (c =? 8233) || (c =? 8239) || (c =? 8287) ||
   (c =? 12288))%N.

(** The line boundaries of [str.splitlines]:
    LF, VT, FF, CR, FS, GS, RS, NEL, LS, PS. *)
Definition islinebreak (c : N) : bool :=
  ((10 <=? c) && (c <=? 13) || (28 <=? c) && (c <=? 30) || (c =? 133) ||
   (c =? 8232) || (c =? 8233))%N.

(** [s.lstrip()], [s.rstrip()], [s.strip()] *)
Fixpoint lstrip (s : str) : str :=
  match s with
  | c :: rest => if isspace c then lstrip rest else s
  | [] => []
  end.

Definition rstrip (s : str) : str := reverse (lstrip (reverse s)).

Definition strip (s : str) : str := lstrip (rstrip s).

(** [s.replace(old, new)] for one-character [old] and [new]. *)
Definition replace (old new : N) (s : str) : str :=
  (λ c, if (c =? old)%N then new else c) <$> s.

(** [s.splitlines()]: [cur] is the line under way, in reverse; CR LF is
    one boundary; no empty line follows a final boundary. *)
Fixpoint splitlines_go (cur : str) (s : str) : list str :=
  match s with
  | [] => match cur with [] => [] | _ => [reverse cur] end
  | c :: rest =>
      if islinebreak c then
        reverse cur ::
          match rest with
          | c' :: rest' =>
              if ((c =? 13) && (c' =? 10))%N then splitlines_go [] rest'
              else splitlines_go [] rest
          | [] => []
          end
      else splitlines_go (c :: cur) rest
  end.

Definition splitlines (s : str) : list str := splitlines_go [] s.

(** [sep.join(l)] *)
Fixpoint join (sep : str) (l : list str) : str :=
  match l with
  | [] => []
  | [u] => u
  | u :: rest => u ++ sep ++ join sep rest
  end.

(** [s.startswith(prefix)] for a one-character prefix. *)
Definition startswith (c : N) (s : str) : bool :=
  match s with c' :: _ => (c' =? c)%N | [] => false end.

(** The UTF-8 bytes of a text, which is how the records hold it. *)
Definition utf8_char (c : N) : list Ascii.ascii :=
  Ascii.ascii_of_N <$>
    (if (c <? 128)%N then [c]
     else if (c <? 2048)%N then [192 + c / 64; 128 + c mod 64]
     else if (c <? 65536)%N then
       [224 + c / 4096; 128 + (c / 64) mod 64; 128 + c mod 64]
     else [240 + c / 262144; 128 + (c / 4096) mod 64;
           128 + (c / 64) mod 64; 128 + c mod 64])%N.

Definition utf8 (s : str) : string :=
  String.string_of_list_ascii (s ≫= utf8_char).

End Py.

(** * [src/server.py] and [src/drive_api.py] *)
Module Server.

(** ** Data model *)

(** The values of [job["state"]]:
    queued / running / zipping / uploading / done / error. *)
Inductive State : Type :=
  | Queued | Running | Zipping | Uploading | Done | Error.

Definition state_str (s : State) : string :=
  match s with
  | Queued => "queued" | Running => "running" | Zipping => "zipping"
  | Uploading => "uploading" | Done => "done" | Error => "error"
  end.

#[global] Instance State_eq_dec : EqDecision State.
Proof. solve_decision. Defined.

(** [job["progress"]] *)
Record Progress : Type := mkProgress {
  current : nat;
  total : nat;
  current_url : option string;
}.

(** [job["result"]]; the Drive client returns each field with [dict.get],
    so each may be [None]. *)
Record DriveResult : Type := mkDriveResult {
  drive_folder_id : option string;
  zip_file_id : option string;
  webViewLink : option string;
  webContentLink : option string;
}.

(** The job dict of [create_job].  [created_at] is the clock reading
    [time.time()], kept as an opaque number. *)
Record Job : Type := mkJob {
  j_id : string;
  j_urls : list string;
  j_name : string;
  j_state : State;
  j_progress : Progress;
  j_result : option DriveResult;
  j_error : option string;
  j_created_at : Z;
}.

(** Field assignments [job["state"] = s], [job["progress"][...] = ...],
    [job["error"] = msg], [job["result"] = r]. *)
Definition set_state (s : State) (j : Job) : Job :=
  mkJob (j_id j) (j_urls j) (j_name j) s (j_progress j) (j_result j)
    (j_error j) (j_created_at j).
Definition set_progress (p : Progress) (j : Job) : Job :=
  mkJob (j_id j) (j_urls j) (j_name j) (j_state j) p (j_result j)
    (j_error j) (j_created_at j).
Definition set_error (msg : string) (j : Job) : Job :=
  mkJob (j_id j) (j_urls j) (j_name j) (j_state j) (j_progress j) (j_result j)
    (Some msg) (j_created_at j).
Definition set_result (r : DriveResult) (j : Job) : Job :=
  mkJob (j_id j) (j_urls j) (j_name j) (j_state j) (j_progress j) (Some r)
    (j_error j) (j_created_at j).

(** ** External collaborators *)

(** What [subprocess.run(cmd, capture_output=True, text=True)] returns,
    and the files the process left in the batch folder. *)
Record CompletedProcess : Type := mkCompletedProcess {
  returncode : Z;
  stdout : string;
  stderr : string;
  written_files : list string;
}.

(** The fields [id], [webViewLink], [webContentLink] of a Drive file
    resource, each read with [f.get]. *)
Record DriveFile : Type := mkDriveFile {
  f_id : option string;
  f_webViewLink : option string;
  f_webContentLink : option string;
}.

(** The behaviour of the environment during one run of the executor.
    [yt_dlp idx url] is the outcome of the [idx]-th invocation of the
    downloader (an exception when the process cannot be started);
    [make_archive] that of [shutil.make_archive]; the other fields are the
    requests of the Drive client, whose [execute()] may raise. *)
Record Env : Type := mkEnv {
  yt_dlp : nat → string → Res CompletedProcess;
  make_archive : string → Res unit;
  token_file_exists : bool;
  files_create_folder : string → Res (option string);
  files_create_media : string → option string → Res DriveFile;
  permissions_create : option string → Res unit;
  files_get : option string → Res DriveFile;
}.

(** Calls observed during a run, in order.  [Put j] is a put of the record
    [j] into the job store by [create_job] or [update_job]: from then on
    [jobs] holds [j], which is what a poll reads, and the write of the
    file follows; when that write fails the put raises.  The other events
    are the calls of the collaborators. *)
Inductive Event : Type :=
  | Put (j : Job)
  | Rmtree (job_id : string)
  | Mkdir (job_id : string)
  | YtDlp (url : string)
  | Unlink (job_id : string)
  | MakeArchive (job_id : string)
  | CreateFolder (name : string)
  | UploadFile (job_id : string) (parent_id : option string)
  | MakeShareable (file_id : option string).

(** ** Process and disk state

    [jobs] is the in-memory dict; [JOBS_DIR] maps a file name to its
    content; [folders] and [zips] are the batch folders
    [PERSISTENT_DIR/<job_id>] (with the names of the files inside) and the
    archives [PERSISTENT_DIR/<job_id>.zip]; [threads] are the targets of
    the background threads started and not yet run; [faults] is what the
    environment does to the coming writes into [JOBS_DIR] ([None], or no
    entry left: the write succeeds). *)
Record World : Type := mkWorld {
  jobs : gmap string Job;
  JOBS_DIR : gmap string (file Job);
  folders : gmap string (list string);
  zips : gset string;
  threads : list string;
  faults : list (option fault);
  log : list Event;
}.

Definition set_jobs (v : gmap string Job) (w : World) : World :=
  mkWorld v (JOBS_DIR w) (folders w) (zips w) (threads w) (faults w) (log w).
Definition set_JOBS_DIR (v : gmap string (file Job)) (w : World) : World :=
  mkWorld (jobs w) v (folders w) (zips w) (threads w) (faults w) (log w).
Definition set_folders (v : gmap string (list string)) (w : World) : World :=
  mkWorld (jobs w) (JOBS_DIR w) v (zips w) (threads w) (faults w) (log w).
Definition set_zips (v : gset string) (w : World) : World :=
  mkWorld (jobs w) (JOBS_DIR w) (folders w) v (threads w) (faults w) (log w).
Definition set_threads (v : list string) (w : World) : World :=
  mkWorld (jobs w) (JOBS_DIR w) (folders w) (zips w) v (faults w) (log w).
Definition set_faults (v : list (option fault)) (w : World) : World :=
  mkWorld (jobs w) (JOBS_DIR w) (folders w) (zips w) (threads w) v (log w).
Definition set_log (v : list Event) (w : World) : World :=
  mkWorld (jobs w) (JOBS_DIR w) (folders w) (zips w) (threads w) (faults w) v.

Definition emit (e : Event) : M World unit :=
  modify (λ w, set_log (log w ++ [e]) w).

Definition lift {A} (r : Res A) : M World A := λ w, (r, w).

Definition DRIVE_TOKEN_FILE : string := "token.json".

(** ** The job store *)

(** [_save_job]: the file [JOBS_DIR/<id>.json] is opened for writing, which
    truncates it, and the record is dumped into it. *)
Definition _save_job (job : Job) : M World unit := λ w,
  let '(r, dir) :=
    write_json (next_fault (faults w)) (json_name (j_id job)) job (JOBS_DIR w) in
  (r, set_JOBS_DIR dir (set_faults (tail (faults w)) w)).

(** [_load_existing_jobs]: every [*.json] file that parses is stored under
    the id it holds; a file that does not parse is skipped. *)
Definition load_file (entry : string * file Job) (js : gmap string Job)
    : gmap string Job :=
  if endswith entry.1 ".json" then
    match json_load entry.2 with
    | Ok job => <[j_id job := job]> js
    | Raise _ => js
    end
  else js.

Definition _load_existing_jobs : M World unit :=
  modify (λ w, set_jobs (foldr load_file (jobs w) (map_to_list (JOBS_DIR w))) w).

(** The dict that [create_job(urls, name)] builds; [jid] is the value of
    [str(uuid.uuid4())] and [now] that of [time.time()]. *)
Definition new_job (jid : string) (now : Z) (urls : list string)
    (name : option string) : Job :=
  {| j_id := jid;
     j_urls := urls;
     (* name or f"batch_{jid[:8]}" *)
     j_name := match name with
               | Some n =>
                   if decide (n = "") then "batch_" +:+ String.substring 0 8 jid
                   else n
               | None => "batch_" +:+ String.substring 0 8 jid
               end;
     j_state := Queued;
     j_progress := {| current := 0; total := length urls; current_url := None |};
     j_result := None;
     j_error := None;
     j_created_at := now |}.

(** [create_job(urls, name)] *)
Definition create_job (jid : string) (now : Z) (urls : list string)
    (name : option string) : M World Job :=
  let job := new_job jid now urls name in
  modify (λ w, set_jobs (<[jid := job]> (jobs w)) w);;
  emit (Put job);;
  _save_job job;;
  mret job.

(** [update_job(job)] *)
Definition update_job (job : Job) : M World unit :=
  modify (λ w, set_jobs (<[j_id job := job]> (jobs w)) w);;
  emit (Put job);;
  _save_job job.


(** ** [drive_api.py] *)

(** [get_service] / [_get_creds] *)
Definition get_service (env : Env) : M World unit :=
  if token_file_exists env then mret tt
  else raise (Exception ("Drive token file not found: " +:+ DRIVE_TOKEN_FILE)).

Definition create_folder (env : Env) (name : string) : M World (option string) :=
  emit (CreateFolder name);;
  get_service env;;
  lift (files_create_folder env name).

Definition upload_file (env : Env) (job_id : string) (parent_id : option string)
    : M World DriveFile :=
  emit (UploadFile job_id parent_id);;
  get_service env;;
  lift (files_create_media env (job_id +:+ ".zip") parent_id).

(** The grant may fail (the permission might already exist): ignored. *)
Definition make_shareable (env : Env) (file_id : option string) : M World DriveFile :=
  emit (MakeShareable file_id);;
  get_service env;;
  try_except (lift (permissions_create env file_id)) (λ _, mret tt);;
  lift (files_get env file_id).

(** ** The batch folder and the archive under [PERSISTENT_DIR] *)

Definition folder_exists (job_id : string) : M World bool :=
  gets (λ w, bool_decide (is_Some (folders w !! job_id))).

(** [shutil.rmtree(batch_folder, ignore_errors=True)] *)
Definition rmtree (job_id : string) : M World unit :=
  emit (Rmtree job_id);;
  modify (λ w, set_folders (delete job_id (folders w)) w).

(** [batch_folder.mkdir(parents=True, exist_ok=True)] *)
Definition mkdir (job_id : string) : M World unit :=
  emit (Mkdir job_id);;
  modify (λ w,
    match folders w !! job_id with
    | Some _ => w
    | None => set_folders (<[job_id := []]> (folders w)) w
    end).

(** [subprocess.run(cmd, capture_output=True, text=True)] with
    [cmd = [YT_DLP, "-o", out_template, ..., url]] *)
Definition run_yt_dlp (env : Env) (job_id : string) (idx : nat) (url : string)
    : M World CompletedProcess :=
  emit (YtDlp url);;
  res ← lift (yt_dlp env idx url);
  modify (λ w,
    set_folders (alter (λ fs, fs ++ written_files res) job_id (folders w)) w);;
  mret res.

(** ** The pipeline executor [download_and_process]

    The dict bound to the local name [job] is the very object stored in
    [jobs] under [job_id]: an assignment to one of its fields is an update
    in place of that entry ([assign]), and reading the local name reads
    the entry ([the_job]; the entry is there, no code deletes from
    [jobs]). *)
Definition the_job (job_id : string) : M World Job := λ w,
  match jobs w !! job_id with
  | Some job => (Ok job, w)
  | None => (Raise (Exception "KeyError"), w)
  end.

Definition assign (job_id : string) (f : Job → Job) : M World unit :=
  modify (λ w, set_jobs (alter f job_id (jobs w)) w).

(** [f"yt-dlp failed for {url}: {res.returncode} stdout:{res.stdout} stderr:{res.stderr}"] *)
Definition failure_message (url : string) (res : CompletedProcess) : string :=
  "yt-dlp failed for " +:+ url +:+ ": " +:+ pretty (returncode res)
    +:+ " stdout:" +:+ stdout res +:+ " stderr:" +:+ stderr res.

(** [for idx, url in enumerate(urls, start=1): ...] from position [idx] on *)
Fixpoint download_loop (env : Env) (job_id : string) (total : nat)
    (idx : nat) (urls : list string) : M World unit :=
  match urls with
  | [] => mret tt
  | url :: rest =>
      assign job_id (set_progress (mkProgress idx total (Some url)));;
      (the_job job_id ≫= update_job);;
      res ← run_yt_dlp env job_id idx url;
      when (bool_decide (returncode res ≠ 0%Z))
        (assign job_id (set_error (failure_message url res));;
         (the_job job_id ≫= update_job));;
      download_loop env job_id total (S idx) rest
  end.

(** Lines 113-120: [# Zip everything] *)
Definition archive_stage (env : Env) (job_id : string) : M World unit :=
  assign job_id (set_state Zipping);;
  (the_job job_id ≫= update_job);;
  ex ← gets (λ w, bool_decide (job_id ∈ zips w));
  when ex (emit (Unlink job_id);;
           modify (λ w, set_zips (zips w ∖ {[job_id]}) w));;
  emit (MakeArchive job_id);;
  lift (make_archive env job_id);;
  modify (λ w, set_zips ({[job_id]} ∪ zips w) w).

(** Lines 122-138: [# Upload zip to Drive] up to the final [update_job] *)
Definition upload_stage (env : Env) (job_id : string) : M World unit :=
  assign job_id (set_state Uploading);;
  (the_job job_id ≫= update_job);;
  job ← the_job job_id;
  parent_folder_id ← create_folder env (j_name job);
  up ← upload_file env job_id parent_folder_id;
  share ← make_shareable env (f_id up);
  assign job_id (set_state Done);;
  assign job_id (set_result
    {| drive_folder_id := parent_folder_id;
       zip_file_id := f_id share;
       webViewLink := f_webViewLink share;
       webContentLink := f_webContentLink share |});;
  (the_job job_id ≫= update_job).

(** Lines 94-138: the body of the [try]. *)
Definition pipeline (env : Env) (job_id : string) : M World unit :=
  job ← the_job job_id;
  download_loop env job_id (length (j_urls job)) 1 (j_urls job);;
  archive_stage env job_id;;
  upload_stage env job_id.

(** Lines 140-143: [except Exception as e] *)
Definition on_error (job_id : string) (e : exn) : M World unit :=
  assign job_id (set_state Error);;
  assign job_id (set_error (exn_str e));;
  (the_job job_id ≫= update_job).

(** Lines 144-149: [finally] *)
Definition cleanup (job_id : string) : M World unit :=
  try_except (rmtree job_id) (λ _, mret tt).

Definition download_and_process (env : Env) (job_id : string) : M World unit :=
  js ← gets jobs;
  match js !! job_id with
  | None => mret tt
  | Some _ =>
      assign job_id (set_state Running);;
      (the_job job_id ≫= update_job);;
      ex ← folder_exists job_id;
      when ex (rmtree job_id);;
      mkdir job_id;;
      try_finally
        (try_except (pipeline env job_id) (on_error job_id))
        (cleanup job_id)
  end.

(** ** The HTTP handlers *)

(** The JSON body of a response and its status code. *)
Inductive Body : Type :=
  | BError (msg : string)
  | BJobId (job_id : string)
  | BJob (job : Job)
  | BJobs (js : list Job)
  | BMessage (msg : string).

Definition Response : Type := Body * nat.

(** [data.get("urls")]: absent, not a list, or a list. *)
Inductive UrlsField : Type :=
  | NoUrls
  | NotAList
  | UrlList (urls : list string).

Record Request : Type := mkRequest {
  r_urls : UrlsField;
  r_name : option string;
}.

(** [POST /enqueue]: the thread on [download_and_process] is started, it
    runs later (see [OpThread]). *)
Definition enqueue (jid : string) (now : Z) (data : Request) : M World Response :=
  match r_urls data with
  | UrlList (url :: urls) =>
      job ← create_job jid now (url :: urls) (r_name data);
      modify (λ w, set_threads (threads w ++ [j_id job]) w);;
      mret (BJobId (j_id job), 202)
  | _ =>
      mret (BError "send JSON with key 'urls' as a list of video/playlist urls", 400)
  end.

(** [GET /status/<job_id>] *)
Definition status (job_id : string) : M World Response :=
  js ← gets jobs;
  match js !! job_id with
  | Some job => mret (BJob job, 200)
  | None =>
      dir ← gets JOBS_DIR;
      match dir !! json_name job_id with
      | Some f =>
          job ← lift (json_load f);
          modify (λ w, set_jobs (<[job_id := job]> (jobs w)) w);;
          mret (BJob job, 200)
      | None => mret (BError "job not found", 404)
      end
  end.

(** [GET /jobs] *)
Definition list_jobs : M World Response :=
  js ← gets jobs;
  mret (BJobs (snd <$> map_to_list js), 200).

(** [GET /] *)
Definition home : M World Response :=
  mret (BMessage "Auto-downloader server running", 200).

(** ** The system

    What can happen to a running server: a request arrives, a started
    background thread runs (to completion, with the environment [env]),
    or the process is restarted, which loses [jobs] and the threads and
    executes the module again: [jobs = {}], [_load_existing_jobs()]. *)
Inductive Op : Type :=
  | OpEnqueue (jid : string) (now : Z) (data : Request)
  | OpStatus (job_id : string)
  | OpListJobs
  | OpHome
  | OpThread (env : Env) (i : nat)
  | OpRestart.

Definition step (w : World) (o : Op) : World :=
  match o with
  | OpEnqueue jid now data => exec (enqueue jid now data) w
  | OpStatus job_id => exec (status job_id) w
  | OpListJobs => exec list_jobs w
  | OpHome => exec home w
  | OpThread env i =>
      match threads w !! i with
      | Some job_id =>
          exec (download_and_process env job_id)
            (set_threads (delete i (threads w)) w)
      | None => w
      end
  | OpRestart => exec _load_existing_jobs (set_threads [] (set_jobs ∅ w))
  end.

Definition run (ops : list Op) (w : World) : World := foldl step w ops.

(** A first start on empty directories, with the faults to come. *)
Definition boot (flts : list (option fault)) : World :=
  exec _load_existing_jobs (mkWorld ∅ ∅ ∅ ∅ [] flts []).

(** ** Observations on a run *)

(** The records stored, in the order of the stores. *)
Definition puts (evs : list Event) : list Job :=
  omap (λ e, match e with Put j => Some j | _ => None end) evs.

(** The state that a reader of the store sees after the events [evs]. *)
Definition persisted_state (evs : list Event) : option State :=
  j_state <$> last (puts evs).

(** The stage a call belongs to: the downloader runs in state [running],
    the archiver in [zipping], the Drive client in [uploading]; the
    creation and the removal of the batch folder belong to no stage. *)
Definition stage_of (e : Event) : option State :=
  match e with
  | YtDlp _ => Some Running
  | Unlink _ | MakeArchive _ => Some Zipping
  | CreateFolder _ | UploadFile _ _ | MakeShareable _ => Some Uploading
  | Put _ | Rmtree _ | Mkdir _ => None
  end.

(** The position of a state in the lifecycle
    queued -> running -> zipping -> uploading -> done / error. *)
Definition state_rank (s : State) : nat :=
  match s with
  | Queued => 0 | Running => 1 | Zipping => 2 | Uploading => 3
  | Done => 4 | Error => 5
  end.

(** Every call that belongs to a stage is made while the store shows the
    state of that stage. *)
Definition staged (evs : list Event) : Prop :=
  ∀ pre e post s,
    evs = pre ++ e :: post → stage_of e = Some s → persisted_state pre = Some s.

(** The life of one job with no other request in between: the submission,
    then the run of the thread it started. *)
Definition lifetime (env : Env) (jid : string) (now : Z) (data : Request)
    (w : World) : World :=
  step (step w (OpEnqueue jid now data)) (OpThread env (length (threads w))).

(** The events that a run from [w] to [w'] added to the log. *)
Definition events_since (w w' : World) : list Event :=
  drop (length (log w)) (log w').

(** ** Invariants of a run *)

(** Orders on the records stored, and the bound on [progress]. *)
Definition le_current (a b : Job) : Prop :=
  current (j_progress a) ≤ current (j_progress b).
Definition le_rank (a b : Job) : Prop :=
  state_rank (j_state a) ≤ state_rank (j_state b).
Definition bounded (a : Job) : Prop :=
  current (j_progress a) ≤ total (j_progress a).

(** What holds of the events [evs] of a run that began with the store of
    [j0], each time the object [j] has just been stored. *)
Definition run_inv (j0 j : Job) (evs : list Event) : Prop :=
  last (puts evs) = Some j ∧
  Sorted le_current (puts evs) ∧
  Forall bounded (puts evs) ∧
  Sorted le_rank (puts evs) ∧
  staged evs ∧
  Forall (λ a, j_id a = j_id j0) (puts evs) ∧
  ∃ rest, evs = Put j0 :: rest.

(** In [w] the object of [job_id] is [j], and the log is [lg0] followed by
    the events [real] of the run under way; [evs] is [real] after the
    events [pre] of the job that came before this run. *)
Definition at_ (lg0 pre : list Event) (job_id : string) (j : Job)
    (evs : list Event) (w : World) : Prop :=
  jobs w !! job_id = Some j ∧
  ∃ real, evs = pre ++ real ∧ log w = lg0 ++ real.

Definition tracked (lg0 pre : list Event) (job_id : string)
    (Φ : Job → list Event → Prop) (w : World) : Prop :=
  ∃ j evs, at_ lg0 pre job_id j evs w ∧ Φ j evs.

(** The URLs handed to the downloader, in the order of the calls. *)
Definition downloads (evs : list Event) : list string :=
  omap (λ e, match e with YtDlp url => Some url | _ => None end) evs.

(** The object after the download loop, when every invocation of the
    downloader returns. *)
Fixpoint after_loop (env : Env) (total idx : nat) (urls : list string)
    (j : Job) : Job :=
  match urls with
  | [] => j
  | url :: rest =>
      let j1 := set_progress (mkProgress idx total (Some url)) j in
      after_loop env total (S idx) rest
        match yt_dlp env idx url with
        | Ok res =>
            if bool_decide (returncode res ≠ 0%Z)
            then set_error (failure_message url res) j1
            else j1
        | Raise _ => j1
        end
  end.

(** [at_], in a world where no fault is to come. *)
Definition at0 (lg0 pre : list Event) (job_id : string) (j : Job)
    (evs : list Event) (w : World) : Prop :=
  at_ lg0 pre job_id j evs w ∧ faults w = [].

(** Calls that only consult the environment. *)
Definition readonly {A} (m : M World A) : Prop := ∀ w, exec m w = w.

(** ** The identifiers known to the system *)

(** The operation creates a job with this identifier. *)
Definition created (o : Op) : option string :=
  match o with
  | OpEnqueue jid _ (mkRequest (UrlList (_ :: _)) _) => Some jid
  | _ => None
  end.

(** Every record in memory and every file on disk is that of a job whose
    identifier satisfies [K], under its own identifier. *)
Definition known (K : string → Prop) (w : World) : Prop :=
  (∀ k j, jobs w !! k = Some j → K k ∧ j_id j = k) ∧
  (∀ f c, JOBS_DIR w !! f = Some c →
          ∃ k, f = json_name k ∧ K k ∧
               ∀ j, c = Complete j → j_id j = k).

(** ** The records of each job *)

(** The records stored for the job [k]. *)
Definition puts_of (k : string) (lg : list Event) : list Job :=
  filter (λ j, j_id j = k) (puts lg).

(** The first record has [progress.current] 0, [progress.current] never
    decreases, and it never exceeds [progress.total]. *)
Definition good (l : list Job) : Prop :=
  (∀ j, head l = Some j → current (j_progress j) = 0) ∧
  Sorted le_current l ∧ Forall bounded l.

(** The thread of [k] has not run: the record is as created, in memory
    and in the log. *)
Definition pending (w : World) (k : string) : Prop :=
  ∃ jq, jobs w !! k = Some jq ∧ puts_of k (log w) = [jq] ∧ j_id jq = k ∧
        j_state jq = Queued ∧ current (j_progress jq) = 0.

(** The invariant of the system, [C] being the identifiers created so far. *)
Definition sys (C : list string) (w : World) : Prop :=
  known (λ k, k ∈ C) w ∧
  (∀ j, j ∈ puts (log w) → j_id j ∈ C) ∧
  (∀ k, good (puts_of k (log w))) ∧
  NoDup (threads w) ∧
  (∀ k, k ∈ threads w → pending w k).

(** ** Sample environments *)

(** Every download leaves one file and returns 0, except the second
    invocation, which returns -1; archive and uploads succeed, the grant
    is refused because it exists. *)
Definition env_second_fails : Env :=
  mkEnv (λ idx url,
           Ok (mkCompletedProcess (if decide (idx = 2) then (-1)%Z else 0%Z)
                 "out" "err" [url +:+ ".mp4"]))
        (λ _, Ok tt) true
        (λ _, Ok (Some "folder1"))
        (λ _ _, Ok (mkDriveFile (Some "file1") None None))
        (λ _, Raise (Exception "permission exists"))
        (λ file_id, Ok (mkDriveFile file_id (Some "view") (Some "content"))).

(** As [env_second_fails], but the archiver raises. *)
Definition env_archive_fails : Env :=
  mkEnv (yt_dlp env_second_fails)
        (λ _, Raise (Exception "No space left on device")) true
        (files_create_folder env_second_fails)
        (files_create_media env_second_fails)
        (permissions_create env_second_fails)
        (files_get env_second_fails).

(** The record of a job [j1] as created, and as the executor first stores
    it. *)
Definition job_queued : Job := new_job "j1" 0 ["u"] None.

Definition job_running : Job := set_state Running job_queued.

(** A disk that fills up while the second write is under way. *)
Definition world_disk_full : World :=
  exec (create_job "j1" 0 ["u"] None)
    (boot [None; Some (DumpFails 10 "No space left on device")]).

(** A submission of one URL, and a disk that refuses the sixth write. *)
Definition one_url : Request := mkRequest (UrlList ["u"]) None.

Definition world_last_write_fails : World :=
  boot [None; None; None; None; None; Some (OpenFails "Input/output error")].

(** A submission of three URLs. *)
Definition three_urls : Request := mkRequest (UrlList ["u1"; "u2"; "u3"]) None.

(** Two jobs: both are submitted, the thread of the second runs, the
    first is polled, its thread runs, and the server restarts. *)
Definition two_jobs : list Op :=
  [OpEnqueue "j1" 0 three_urls; OpEnqueue "j2" 1 one_url;
   OpThread env_archive_fails 1; OpStatus "j1";
   OpThread env_second_fails 0; OpRestart].

(** ** Memory and disk *)


(** ** The end of a run *)

(** The states from which the executor goes no further. *)
Definition terminal (s : State) : bool :=
  match s with Done | Error => true | _ => false end.

(** A collaborator that raises nothing an [except Exception] clause
    would miss. *)
Definition no_exit {A} (r : Res A) : Prop := ∀ msg, r ≠ Raise (SystemExit msg).

Definition raises_exceptions_only (env : Env) : Prop :=
  (∀ idx url, no_exit (yt_dlp env idx url)) ∧
  (∀ base, no_exit (make_archive env base)) ∧
  (∀ name, no_exit (files_create_folder env name)) ∧
  (∀ path parent_id, no_exit (files_create_media env path parent_id)) ∧
  (∀ file_id, no_exit (permissions_create env file_id)) ∧
  (∀ file_id, no_exit (files_get env file_id)).

(** The run is under way: the object has no result, its state is not
    terminal, and no record stored so far has a terminal state. *)
Definition live (j : Job) (evs : list Event) : Prop :=
  j_result j = None ∧ terminal (j_state j) = false ∧
  Forall (λ a, terminal (j_state a) = false) (puts evs).

(** The two ways a record ends: [done] with a result, or [error] with a
    message and no result. *)
Definition settled (j : Job) : Prop :=
  (j_state j = Done ∧ is_Some (j_result j)) ∨
  (j_state j = Error ∧ is_Some (j_error j) ∧ j_result j = None).

(** The run is over: the object is settled and it is the last record
    stored, the only one with a terminal state. *)
Definition ended (j : Job) (evs : list Event) : Prop :=
  ∃ init, puts evs = init ++ [j] ∧
          Forall (λ a, terminal (j_state a) = false) init ∧ settled j.

(** As [env_second_fails], but the token file of Drive is missing. *)
Definition env_no_token : Env :=
  mkEnv (yt_dlp env_second_fails) (make_archive env_second_fails) false
        (files_create_folder env_second_fails)
        (files_create_media env_second_fails)
        (permissions_create env_second_fails)
        (files_get env_second_fails).

End Server.

(** * [src/web/app.py] and [src/worker/server.py], filesystem mode *)
Module Worker.

(** ** Data model *)

(** The values of [job['status']]. *)
Inductive Status : Type :=
  | Queued | Running | Done | Error.

Definition status_str (s : Status) : string :=
  match s with
  | Queued => "queued" | Running => "running"
  | Done => "done" | Error => "error"
  end.

#[global] Instance Status_eq_dec : EqDecision Status.
Proof. solve_decision. Defined.

(** The job dict: [enqueue_job] writes the keys [id], [urls], [status] and
    [meta]; the worker adds [error], [drive_folder_id] and [zip_id]; the
    dict [{'id': job_id}] that [worker_loop] builds has no [urls] and no
    [meta]. *)
Record Job : Type := mkJob {
  j_id : string;
  j_urls : option (list string);
  j_status : Status;
  j_meta : option (list (string * string));
  j_error : option string;
  j_drive_folder_id : option string;
  j_zip_id : option (option string);
}.

Definition set_status (s : Status) (j : Job) : Job :=
  mkJob (j_id j) (j_urls j) s (j_meta j) (j_error j) (j_drive_folder_id j)
    (j_zip_id j).
Definition set_error (msg : string) (j : Job) : Job :=
  mkJob (j_id j) (j_urls j) (j_status j) (j_meta j) (Some msg)
    (j_drive_folder_id j) (j_zip_id j).
Definition set_drive_folder_id (v : string) (j : Job) : Job :=
  mkJob (j_id j) (j_urls j) (j_status j) (j_meta j) (j_error j) (Some v)
    (j_zip_id j).
Definition set_zip_id (v : option string) (j : Job) : Job :=
  mkJob (j_id j) (j_urls j) (j_status j) (j_meta j) (j_error j)
    (j_drive_folder_id j) (Some v).

(** ** External collaborators *)

(** [subprocess.run(cmd)]: the return code, and the files left in the
    folder. *)
Record CompletedProcess : Type := mkCompletedProcess {
  returncode : Z;
  written_files : list string;
}.

(** The environment during one turn of the worker: the outcome of the
    [idx]-th downloader invocation, of [shutil.make_archive], and of the
    Drive requests ([f['id']] of the created folder, [inserted.get('id')]
    of an uploaded file). *)
Record Env : Type := mkEnv {
  yt_dlp : nat → string → Res CompletedProcess;
  make_archive : string → Res unit;
  token_file_exists : bool;
  files_create_folder : string → Res string;
  files_create_media : string → string → Res (option string);
}.

Inductive Event : Type :=
  | Save (j : Job)
  | YtDlp (url : string)
  | CreateDriveFolder (name : string)
  | UploadFileToDrive (path : string) (parent_id : string)
  | ZipFolder (job_id : string)
  | Rmtree (job_id : string)
  | Remove (job_id : string)
  | Sleep.

(** ** Disk state

    [QUEUE_DIR] maps a file name to its content; [folders] are the
    directories [DATA_DIR/<job_id>] with the names of the files inside,
    [zips] the archives [DATA_DIR/<job_id>.zip]; [faults] is what the
    environment does to the coming writes into [QUEUE_DIR]. *)
Record World : Type := mkWorld {
  QUEUE_DIR : gmap string (file Job);
  folders : gmap string (list string);
  zips : gset string;
  faults : list (option fault);
  log : list Event;
}.

Definition set_QUEUE_DIR (v : gmap string (file Job)) (w : World) : World :=
  mkWorld v (folders w) (zips w) (faults w) (log w).
Definition set_folders (v : gmap string (list string)) (w : World) : World :=
  mkWorld (QUEUE_DIR w) v (zips w) (faults w) (log w).
Definition set_zips (v : gset string) (w : World) : World :=
  mkWorld (QUEUE_DIR w) (folders w) v (faults w) (log w).
Definition set_faults (v : list (option fault)) (w : World) : World :=
  mkWorld (QUEUE_DIR w) (folders w) (zips w) v (log w).
Definition set_log (v : list Event) (w : World) : World :=
  mkWorld (QUEUE_DIR w) (folders w) (zips w) (faults w) v.

Definition emit (e : Event) : M World unit :=
  modify (λ w, set_log (log w ++ [e]) w).

Definition lift {A} (r : Res A) : M World A := λ w, (r, w).

Definition TOKEN_FILE : string := "token.json".

(** [with open(path, 'w') as f: json.dump(job, f)] into [QUEUE_DIR] *)
Definition write_job (job : Job) : M World unit := λ w,
  let '(r, dir) :=
    write_json (next_fault (faults w)) (json_name (j_id job)) job (QUEUE_DIR w) in
  (r, set_QUEUE_DIR dir (set_faults (tail (faults w)) w)).

(** ** [web/app.py] *)

(** [enqueue_job(urls)]; [job_id] is the value of [str(uuid.uuid4())]. *)
Definition enqueue_job (job_id : string) (urls : list string) : M World string :=
  let job := mkJob job_id (Some urls) Queued (Some []) None None None in
  emit (Save job);;
  write_job job;;
  mret job_id.

Inductive Body : Type :=
  | BError (msg : string)
  | BJob (job : Job).

(** [GET /status/<job_id>] *)
Definition status (job_id : string) : M World (Body * nat) :=
  dir ← gets QUEUE_DIR;
  match dir !! json_name job_id with
  | None => mret (BError "not found", 404)
  | Some f => job ← lift (json_load f); mret (BJob job, 200)
  end.

(** ** [worker/server.py]: Drive and archive helpers *)

Definition get_drive_service (env : Env) : M World unit :=
  if token_file_exists env then mret tt
  else raise (SystemExit ("Missing " +:+ TOKEN_FILE
                +:+ ". Run auth.py locally and upload token.json.")).

Definition create_drive_folder (env : Env) (name : string) : M World string :=
  emit (CreateDriveFolder name);;
  get_drive_service env;;
  lift (files_create_folder env name).

Definition upload_file_to_drive (env : Env) (path : string) (parent_id : string)
    : M World (option string) :=
  emit (UploadFileToDrive path parent_id);;
  get_drive_service env;;
  lift (files_create_media env path parent_id).

Definition zip_folder (env : Env) (job_id : string) : M World unit :=
  emit (ZipFolder job_id);;
  lift (make_archive env job_id);;
  modify (λ w, set_zips ({[job_id]} ∪ zips w) w).

(** ** Job queue helpers *)

(** [os.listdir(QUEUE_DIR)], in the order the file system gives. *)
Definition listdir (w : World) : list string := (map_to_list (QUEUE_DIR w)).*1.

(** [blpop_job], else-branch: the first of the sorted [*.json] names is
    read, and the id it holds is returned. *)
Definition blpop_job : M World (option string) :=
  names ← gets listdir;
  let files := filter (λ f, endswith f ".json" = true) names in
  match merge_sort String.le files with
  | [] => emit Sleep;; mret None
  | fn :: _ =>
      dir ← gets QUEUE_DIR;
      match dir !! fn with
      | Some f => job ← lift (json_load f); mret (Some (j_id job))
      | None => raise (Exception "FileNotFoundError")
      end
  end.

Definition load_job (job_id : string) : M World (option Job) :=
  dir ← gets QUEUE_DIR;
  match dir !! json_name job_id with
  | None => mret None
  | Some f => job ← lift (json_load f); mret (Some job)
  end.

Definition save_job (job : Job) : M World unit :=
  emit (Save job);;
  write_job job.

(** ** Download, upload, and the worker loop *)

(** The loop of [download_urls] from the [idx]-th invocation on: a
    non-zero return code is printed and nothing else. *)
Fixpoint download_loop (env : Env) (job_id : string) (idx : nat)
    (urls : list string) : M World unit :=
  match urls with
  | [] => mret tt
  | u :: rest =>
      emit (YtDlp u);;
      res ← lift (yt_dlp env idx u);
      modify (λ w,
        set_folders (alter (λ fs, fs ++ written_files res) job_id (folders w)) w);;
      download_loop env job_id (S idx) rest
  end.

Definition download_urls (env : Env) (job_id : string) (urls : list string)
    : M World unit :=
  modify (λ w,
    match folders w !! job_id with
    | Some _ => w
    | None => set_folders (<[job_id := []]> (folders w)) w
    end);;
  download_loop env job_id 1 urls.

(** [for root, dirs, files in os.walk(folder): for f in files: ...] *)
Fixpoint upload_files (env : Env) (parent_id : string) (files : list string)
    : M World unit :=
  match files with
  | [] => mret tt
  | fp :: rest =>
      upload_file_to_drive env fp parent_id;;
      upload_files env parent_id rest
  end.

(** [shutil.rmtree(folder, ignore_errors=True)] *)
Definition rmtree (job_id : string) : M World unit :=
  emit (Rmtree job_id);;
  modify (λ w, set_folders (delete job_id (folders w)) w).

(** [os.remove(zip_path)] *)
Definition os_remove (job_id : string) : M World unit :=
  emit (Remove job_id);;
  ex ← gets (λ w, bool_decide (job_id ∈ zips w));
  if (ex : bool) then modify (λ w, set_zips (zips w ∖ {[job_id]}) w)
  else raise (Exception "FileNotFoundError").

(** [process_job]; each [return] of the source ends the computation with
    [mret tt]. *)
Definition process_job (env : Env) (job_id : string) : M World unit :=
  loaded ← load_job job_id;
  match loaded with
  | None => mret tt
  | Some job =>
      let job := set_status Running job in
      save_job job;;
      let urls := default [] (j_urls job) in
      download_urls env job_id urls;;
      (* Create Drive folder for this batch *)
      created ← try_except
        (parent_folder_id ← create_drive_folder env ("batch_" +:+ job_id);
         mret (Some parent_folder_id))
        (λ e,
           save_job (set_error ("Drive folder create failed: " +:+ exn_str e)
                       (set_status Error job));;
           mret None);
      match created with
      | None => mret tt
      | Some parent_folder_id =>
          (* Upload each downloaded file to Drive *)
          files ← gets (λ w, default [] (folders w !! job_id));
          uploaded ← try_except
            (upload_files env parent_folder_id files;; mret true)
            (λ e,
               save_job (set_error ("Upload failed: " +:+ exn_str e)
                           (set_status Error job));;
               mret false);
          if (uploaded : bool) then
            (* Zip local folder and upload zip *)
            zip_folder env job_id;;
            zipped ← try_except
              (zip_id ← upload_file_to_drive env (job_id +:+ ".zip") parent_folder_id;
               mret (Some zip_id))
              (λ e,
                 save_job (set_error ("Zip upload failed: " +:+ exn_str e)
                             (set_status Error job));;
                 mret None);
            match zipped with
            | None => mret tt
            | Some zip_id =>
                save_job (set_zip_id zip_id
                            (set_drive_folder_id parent_folder_id
                               (set_status Done job)));;
                (* cleanup local files *)
                rmtree job_id;;
                try_except_all (os_remove job_id) (mret tt)
            end
          else mret tt
      end
  end.

(** One turn of the [while True] loop of [worker_loop]. *)
Definition worker_turn (env : Env) : M World unit :=
  popped ← blpop_job;
  match popped with
  | None => mret tt
  | Some job_id =>
      if decide (job_id = "") then mret tt
      else
        try_except (process_job env job_id)
          (λ e,
             loaded ← load_job job_id;
             let job := default (mkJob job_id None Error None None None None) loaded in
             save_job (set_error (exn_str e) (set_status Error job)))
  end.

(** [worker_loop]: one turn per environment of [envs]; an exception that
    leaves a turn ends the loop (and the process). *)
Fixpoint worker_loop (envs : list Env) : M World unit :=
  match envs with
  | [] => mret tt
  | env :: rest => worker_turn env;; worker_loop rest
  end.

(** ** Observations *)

(** [fn] is the lexicographically first of the [*.json] files of the
    queue directory. *)
Definition first_queue_file (w : World) (fn : string) : Prop :=
  fn ∈ dom (QUEUE_DIR w) ∧ endswith fn ".json" = true ∧
  ∀ f, f ∈ dom (QUEUE_DIR w) → endswith f ".json" = true → String.le fn f.

(** The statuses written for the job [job_id], in the order of the writes. *)
Definition saved_statuses (job_id : string) (lg : list Event) : list Status :=
  omap (λ e, match e with
             | Save j => if decide (j_id j = job_id) then Some (j_status j) else None
             | _ => None
             end) lg.

(** ** Sample worlds and environments *)

(** Empty directories, no fault to come. *)
Definition empty_world : World := mkWorld ∅ ∅ ∅ [] [].

(** Every download leaves one file, and every request succeeds. *)
Definition env_ok : Env :=
  mkEnv (λ _ url, Ok (mkCompletedProcess 0 [url +:+ ".mp4"]))
        (λ _, Ok tt) true
        (λ _, Ok "folder1")
        (λ path _, Ok (Some ("id-of-" +:+ path))).

(** As [env_ok], but Drive refuses to create the folder. *)
Definition env_no_folder : Env :=
  mkEnv (yt_dlp env_ok) (make_archive env_ok) true
        (λ _, Raise (Exception "quotaExceeded"))
        (files_create_media env_ok).

(** A queue with the files [a-b.json] and [a.json]. *)
Definition job_a : Job :=
  mkJob "a" (Some ["u2"; "u3"]) Queued (Some []) None None None.
Definition job_a_b : Job :=
  mkJob "a-b" (Some ["u1"]) Queued (Some []) None None None.
Definition queue_of_two : World :=
  mkWorld (<["a.json" := Complete job_a]> (<["a-b.json" := Complete job_a_b]> ∅))
    ∅ ∅ [] [].

(** The queue after the dashboard has enqueued the job [j1], with one URL. *)
Definition queue_of_one : World := exec (enqueue_job "j1" ["u"]) empty_world.

(** ** [web/app.py]: the form of the dashboard and the listing *)

(** Line 50: [[u.strip() for u in data.replace(',', '\n').splitlines()
    if u.strip()]] (44 is the comma, 10 the line feed). *)
Definition parse_urls (data : Py.str) : list Py.str :=
  filter (λ u, u ≠ [])
    (Py.strip <$> Py.splitlines (Py.replace 44 10 data)).

(** [POST /enqueue]; [data] is the value of the [urls] field, a text or
    [None], and the answer is the body (or the location of a redirect)
    with the status code. *)
Definition enqueue (job_id : string) (data : option Py.str)
    : M World (string * nat) :=
  match data with
  | None | Some [] => mret ("No URLs provided", 400)
  | Some data =>
      let urls := parse_urls data in
      job_id ← enqueue_job job_id (Py.utf8 <$> urls);
      mret ("/status/" +:+ job_id, 302)
  end.

(** [GET /jobs]: the loop over [os.listdir(QUEUE_DIR)], [out] being the
    list built so far. *)
Fixpoint jobs_loop (names : list string) (out : list Job) : M World (list Job) :=
  match names with
  | [] => mret out
  | fn :: rest =>
      if endswith fn ".json" then
        dir ← gets QUEUE_DIR;
        match dir !! fn with
        | Some f => job ← lift (json_load f); jobs_loop rest (out ++ [job])
        | None => raise (Exception "FileNotFoundError")
        end
      else jobs_loop rest out
  end.

Definition jobs : M World (list Job * nat) :=
  names ← gets listdir;
  out ← jobs_loop names [];
  mret (out, 200).

(** ** More observations *)

(** What [parse_urls] lets through: a text that is not empty, neither
    begins nor ends with white space, and holds no comma and no line
    boundary. *)
Definition clean_url (u : Py.str) : Prop :=
  u ≠ [] ∧
  (∀ c, head u = Some c → Py.isspace c = false) ∧
  (∀ c, last u = Some c → Py.isspace c = false) ∧
  Forall (λ c, c ≠ 44%N ∧ Py.islinebreak c = false) u.

(** Every record of the queue is in the file named after its id, as
    [enqueue_job] and [save_job] write it. *)
Definition well_named (w : World) : Prop :=
  ∀ fn j, QUEUE_DIR w !! fn = Some (Complete j) → fn = json_name (j_id j).

(** As [env_ok], but the token file of Drive is missing. *)
Definition env_worker_no_token : Env :=
  mkEnv (yt_dlp env_ok) (make_archive env_ok) false
    (files_create_folder env_ok) (files_create_media env_ok).

(** As [env_ok], but the archiver raises. *)
Definition env_worker_archive_fails : Env :=
  mkEnv (yt_dlp env_ok) (λ _, Raise (Exception "No space left on device")) true
    (files_create_folder env_ok) (files_create_media env_ok).

(** As [env_ok], but every download returns 1 and leaves no file. *)
Definition env_downloads_fail : Env :=
  mkEnv (λ _ _, Ok (mkCompletedProcess 1 []))
    (make_archive env_ok) true (files_create_folder env_ok)
    (files_create_media env_ok).

End Worker.

(** * [src/client/send_request.py] *)
Module Client.

(** A file opened in text mode with the default [newline=None]: CR LF
    and a lone CR are read as LF (13 is CR, 10 is LF). *)
Fixpoint universal_newlines (s : Py.str) : Py.str :=
  match s with
  | [] => []
  | c :: rest =>
      if (c =? 13)%N then
        10%N ::
          match rest with
          | c' :: rest' =>
              if (c' =? 10)%N then universal_newlines rest'
              else universal_newlines rest
          | [] => []
          end
      else c :: universal_newlines rest
  end.

(** [f.readlines()]: the lines, each with the LF that ends it; [cur] is
    the line under way, in reverse. *)
Fixpoint readlines_go (cur : Py.str) (s : Py.str) : list Py.str :=
  match s with
  | [] => match cur with [] => [] | _ => [reverse cur] end
  | c :: rest =>
      if (c =? 10)%N then reverse (c :: cur) :: readlines_go [] rest
      else readlines_go (c :: cur) rest
  end.

Definition readlines (s : Py.str) : list Py.str := readlines_go [] s.

(** [read_urls(file)], [content] being the decoded text of the file:
    the lines are stripped, and the empty ones and those that begin with
    [#] (35) are dropped. *)
Definition read_urls (content : Py.str) : list Py.str :=
  let lines := Py.strip <$> readlines (universal_newlines content) in
  filter (λ l, l ≠ [] ∧ Py.startswith 35 l = false) lines.



(** What [read_urls] lets through: a text that is not empty, neither
    begins nor ends with white space, does not begin with [#], and holds
    neither LF nor CR. *)
Definition clean_line (u : Py.str) : Prop :=
  u ≠ [] ∧
  (∀ c, head u = Some c → Py.isspace c = false ∧ c ≠ 35%N) ∧
  (∀ c, last u = Some c → Py.isspace c = false) ∧
  Forall (λ c, c ≠ 10%N ∧ c ≠ 13%N) u.

End Client.

(** * Reasoning rules for the monad *)

Section wp_rules.
Context {W : Type}.
Implicit Types (w : W) (E : exn → W → Prop).

Lemma wp_ret {A} (a : A) (Q : A → W → Prop) E w :
  Q a w → wp (mret a) Q E w.
Proof. done. Qed.

Lemma wp_bind {A B} (m : M W A) (f : A → M W B) (Q : B → W → Prop) E w :
  wp m (λ a, wp (f a) Q E) E w → wp (m ≫= f) Q E w.
Proof.
  unfold wp, mbind, M_bind, m_bind. by destruct (m w) as [[a|e] w'].
Qed.

Lemma wp_raise {A} (e : exn) (Q : A → W → Prop) E w :
  E e w → wp (raise e) Q E w.
Proof. done. Qed.

Lemma wp_gets {A} (f : W → A) (Q : A → W → Prop) E w :
  Q (f w) w → wp (gets f) Q E w.
Proof. done. Qed.

Lemma wp_modify (f : W → W) (Q : unit → W → Prop) E w :
  Q tt (f w) → wp (modify f) Q E w.
Proof. done. Qed.

Lemma wp_when (c : bool) (body : M W unit) (Q : unit → W → Prop) E w :
  (if c then wp body Q E w else Q tt w) → wp (when c body) Q E w.
Proof. by destruct c. Qed.

Lemma wp_try_except {A} (body : M W A) (h : exn → M W A)
    (Q : A → W → Prop) E w :
  wp body Q
    (λ e w', match e with
             | Exception _ => wp (h e) Q E w'
             | SystemExit _ => E e w'
             end) w →
  wp (try_except body h) Q E w.
Proof.
  unfold wp, try_except. by destruct (body w) as [[a|[msg|msg]] w'].
Qed.

Lemma wp_try_except_all {A} (body h : M W A) (Q : A → W → Prop) E w :
  wp body Q (λ _ w', wp h Q E w') w → wp (try_except_all body h) Q E w.
Proof.
  unfold wp, try_except_all. by destruct (body w) as [[a|e] w'].
Qed.

Lemma wp_try_finally {A} (body : M W A) (cleanup : M W unit)
    (Q : A → W → Prop) E w :
  wp body (λ a, wp cleanup (λ _, Q a) E) (λ e, wp cleanup (λ _, E e) E) w →
  wp (try_finally body cleanup) Q E w.
Proof.
  unfold wp, try_finally.
  destruct (body w) as [[a|e] w']; by destruct (cleanup w') as [[[]|e'] w''].
Qed.

Lemma wp_mono {A} (m : M W A) (Q Q' : A → W → Prop) E E' w :
  wp m Q E w →
  (∀ a w', Q a w' → Q' a w') →
  (∀ e w', E e w' → E' e w') →
  wp m Q' E' w.
Proof.
  unfold wp. destruct (m w) as [[a|e] w']; auto.
Qed.

Lemma wp_any {A} (m : M W A) w : wp m (λ _ _, True) (λ _ _, True) w.
Proof. unfold wp. by destruct (m w) as [[a|e] w']. Qed.

(** From a weakest precondition to the run itself. *)
Lemma wp_run {A} (m : M W A) (Q : A → W → Prop) E w :
  wp m Q E w →
  match outcome m w with
  | Ok a => Q a (exec m w)
  | Raise e => E e (exec m w)
  end.
Proof. unfold wp, outcome, exec. by destruct (m w) as [[a|e] w']. Qed.

Lemma wp_exec {A} (m : M W A) (I : W → Prop) w :
  wp m (λ _, I) (λ _, I) w → I (exec m w).
Proof. unfold wp, exec. by destruct (m w) as [[a|e] w']. Qed.

Lemma preserves_wp {A} (m : M W A) (I : W → Prop) :
  preserves I m ↔ ∀ w, I w → wp m (λ _, I) (λ _, I) w.
Proof.
  unfold preserves, wp, exec.
  split; intros H w Hw; specialize (H w Hw); by destruct (m w) as [[a|e] w'].
Qed.

(** Invariants pass through the control structures. *)
Lemma preserves_ret {A} (I : W → Prop) (a : A) : preserves I (mret a).
Proof. by intros w. Qed.

Lemma preserves_raise {A} (I : W → Prop) e : preserves I (raise (A:=A) e).
Proof. by intros w. Qed.

Lemma preserves_gets {A} (I : W → Prop) (f : W → A) : preserves I (gets f).
Proof. by intros w. Qed.

Lemma preserves_modify (I : W → Prop) (g : W → W) :
  (∀ w, I w → I (g w)) → preserves I (modify g).
Proof. intros H w Hw. by apply H. Qed.

Lemma preserves_bind {A B} (I : W → Prop) (m : M W A) (f : A → M W B) :
  preserves I m → (∀ a, preserves I (f a)) → preserves I (m ≫= f).
Proof.
  intros Hm Hf w Hw. specialize (Hm w Hw).
  unfold exec, mbind, M_bind, m_bind in *.
  destruct (m w) as [[a|e] w']; [by apply Hf | done].
Qed.

Lemma preserves_when (I : W → Prop) (c : bool) (body : M W unit) :
  preserves I body → preserves I (when c body).
Proof. destruct c; [done | by intros _ w]. Qed.

Lemma preserves_try_except {A} (I : W → Prop) (body : M W A) h :
  preserves I body → (∀ e, preserves I (h e)) →
  preserves I (try_except body h).
Proof.
  intros Hb Hh w Hw. specialize (Hb w Hw).
  unfold exec, try_except in *.
  destruct (body w) as [[a|[msg|msg]] w']; [done | by apply Hh | done].
Qed.

Lemma preserves_try_except_all {A} (I : W → Prop) (body h : M W A) :
  preserves I body → preserves I h → preserves I (try_except_all body h).
Proof.
  intros Hb Hh w Hw. specialize (Hb w Hw).
  unfold exec, try_except_all in *.
  destruct (body w) as [[a|e] w']; [done | by apply Hh].
Qed.

Lemma preserves_try_finally {A} (I : W → Prop) (body : M W A) cleanup :
  preserves I body → preserves I cleanup →
  preserves I (try_finally body cleanup).
Proof.
  intros Hb Hc w Hw. specialize (Hb w Hw). specialize (Hc _ Hb).
  unfold exec, try_finally in *.
  destruct (body w) as [[a|e] w']; simpl in *;
    by destruct (cleanup w') as [[[]|e'] w''].
Qed.
End wp_rules.

(** Two facts about one run hold of it together. *)
Lemma wp_and {W A} (m : M W A) (Q1 Q2 : A → W → Prop) E1 E2 w :
  wp m Q1 E1 w → wp m Q2 E2 w →
  wp m (λ a w', Q1 a w' ∧ Q2 a w') (λ e w', E1 e w' ∧ E2 e w') w.
Proof. unfold wp. by destruct (m w) as [[a|e] w']. Qed.

(** Unfolding of the monad's operations in a run. *)
Ltac unfold_m :=
  unfold mbind, M_bind, m_bind, mret, M_ret, m_ret, modify, gets, raise in *.

(** * File names *)

Lemma string_app_inj_r (t s1 s2 : string) : s1 +:+ t = s2 +:+ t → s1 = s2.
Proof.
  assert (Hlen : ∀ s, String.length (s +:+ t) = String.length s + String.length t).
  { induction s as [|a s IH]; [done|].
    change (S (String.length (s +:+ t)) = S (String.length s) + String.length t).
    by rewrite IH. }
  revert s2. induction s1 as [|a s1 IH]; intros [|b s2] H.
  - done.
  - apply (f_equal String.length) in H. rewrite !Hlen in H. simpl in H. lia.
  - apply (f_equal String.length) in H. rewrite !Hlen in H. simpl in H. lia.
  - change (String a (s1 +:+ t) = String b (s2 +:+ t)) in H.
    injection H as -> H. f_equal. by apply IH.
Qed.

Lemma json_name_inj : Inj (=) (=) json_name.
Proof. intros s1 s2. apply string_app_inj_r. Qed.

Lemma string_length_app (s t : string) :
  String.length (s +:+ t) = String.length s + String.length t.
Proof.
  induction s as [|a s IH]; [done|].
  change (S (String.length (s +:+ t)) = S (String.length s) + String.length t).
  by rewrite IH.
Qed.

Lemma substring_0_length (t : string) :
  String.substring 0 (String.length t) t = t.
Proof. induction t as [|a t IH]; [done|]. simpl. by rewrite IH. Qed.

Lemma substring_app_length (s t : string) (m : nat) :
  String.substring (String.length s) m (s +:+ t) = String.substring 0 m t.
Proof.
  induction s as [|a s IH]; [done|].
  change (String.substring (String.length s) m (s +:+ t) = String.substring 0 m t).
  exact IH.
Qed.

Lemma endswith_app (s t : string) : endswith (s +:+ t) t = true.
Proof.
  unfold endswith. rewrite string_length_app.
  rewrite bool_decide_true by lia. simpl.
  replace (String.length s + String.length t - String.length t)
    with (String.length s) by lia.
  rewrite substring_app_length, substring_0_length. apply String.eqb_refl.
Qed.

Lemma endswith_json_name (k : string) : endswith (json_name k) ".json" = true.
Proof. apply endswith_app. Qed.

(** Lookups in a directory after a write. *)
Lemma file_insert_eq {J} (dir : gmap string (file J)) p c :
  <[p := c]> dir !! p = Some c.
Proof. exact (lookup_insert_eq (M:=gmap string) dir p c). Qed.

Lemma file_insert_ne {J} (dir : gmap string (file J)) p q c :
  p ≠ q → <[p := c]> dir !! q = dir !! q.
Proof. exact (lookup_insert_ne (M:=gmap string) dir p q c). Qed.

(** * The job store: what a put leaves on disk *)

Lemma write_json_outcome {J} flt path (j : J) (dir : gmap string (file J)) :
  put_outcome flt path j dir
    (write_json flt path j dir).1 (write_json flt path j dir).2.
Proof.
  split.
  - intros p Hp. destruct flt as [[msg|[|n] msg]|]; simpl;
      by rewrite ?lookup_insert_ne.
  - destruct flt as [[msg|[|n] msg]|]; simpl; (split; [done|]);
      rewrite ?lookup_insert_eq; eauto.
Qed.

Lemma write_json_dom {J} flt path (j : J) (dir : gmap string (file J)) :
  dom dir ⊆ dom (write_json flt path j dir).2.
Proof.
  destruct flt as [[msg|[|n] msg]|]; simpl; rewrite ?dom_insert; set_solver.
Qed.

(** C3, as amended: a put ([_save_job] of the server, [save_job] of the
    worker) that succeeds replaces the stored record in full and leaves
    every other file alone; a put that fails is not rolled back: when the
    file cannot be opened the previous record stays, when the dump stops
    the file, truncated by the open, is left empty or with a partial
    document that a later load rejects. *)
Theorem put_replaces_or_truncates :
  (∀ (w : Server.World) (job : Server.Job),
     put_outcome (next_fault (Server.faults w))
       (json_name (Server.j_id job)) job (Server.JOBS_DIR w)
       (outcome (Server._save_job job) w)
       (Server.JOBS_DIR (exec (Server._save_job job) w))) ∧
  (∀ (w : Worker.World) (job : Worker.Job),
     put_outcome (next_fault (Worker.faults w))
       (json_name (Worker.j_id job)) job (Worker.QUEUE_DIR w)
       (outcome (Worker.save_job job) w)
       (Worker.QUEUE_DIR (exec (Worker.save_job job) w))).
Proof.
  split; intros w job.
  - pose proof (write_json_outcome (next_fault (Server.faults w))
      (json_name (Server.j_id job)) job (Server.JOBS_DIR w)) as H.
    unfold outcome, exec, Server._save_job.
    destruct (write_json _ _ _ _) as [r dir']. exact H.
  - pose proof (write_json_outcome (next_fault (Worker.faults w))
      (json_name (Worker.j_id job)) job (Worker.QUEUE_DIR w)) as H.
    unfold outcome, exec, Worker.save_job, Worker.write_job, Worker.emit.
    unfold_m. simpl. destruct (write_json _ _ _ _) as [r dir']. exact H.
Qed.

(** * Facts about the text methods *)
Module PyFacts.
Import Py.

Lemma islinebreak_isspace c : islinebreak c = true → isspace c = true.
Proof.
  unfold islinebreak, isspace.
  rewrite !orb_true_iff, !andb_true_iff, !N.leb_le, !N.eqb_eq. lia.
Qed.

Lemma isspace_LF : isspace 10%N = true.
Proof. reflexivity. Qed.

(** *** [strip] *)

Lemma lstrip_spec s :
  ∃ pre, s = pre ++ lstrip s ∧ Forall (λ c, isspace c = true) pre.
Proof.
  induction s as [|c s (pre & Hs & Hpre)]; [by exists []|]. simpl.
  destruct (isspace c) eqn:Hc.
  - exists (c :: pre). split; [by rewrite <-app_comm_cons, <-Hs | by constructor].
  - by exists [].
Qed.

Lemma lstrip_head s c : head (lstrip s) = Some c → isspace c = false.
Proof.
  induction s as [|c' s IH]; [done|]. simpl.
  destruct (isspace c') eqn:Hc; [done|]. simpl. by intros [= <-].
Qed.

Lemma lstrip_nil s : lstrip s = [] ↔ Forall (λ c, isspace c = true) s.
Proof.
  induction s as [|c s IH]; simpl; [done|].
  destruct (isspace c) eqn:Hc.
  - rewrite IH. split; [by constructor | by inv 1].
  - split; [done|]. inv 1. congruence.
Qed.

Lemma lstrip_id s :
  (∀ c, head s = Some c → isspace c = false) → lstrip s = s.
Proof. destruct s as [|c s]; [done|]. simpl. intros H. by rewrite (H c). Qed.

Lemma rstrip_spec s :
  ∃ suf, s = rstrip s ++ suf ∧ Forall (λ c, isspace c = true) suf.
Proof.
  unfold rstrip. destruct (lstrip_spec (reverse s)) as (pre & Hs & Hpre).
  exists (reverse pre). split.
  - rewrite <-reverse_app, <-Hs. by rewrite reverse_involutive.
  - by apply Forall_reverse.
Qed.

Lemma rstrip_last s c : last (rstrip s) = Some c → isspace c = false.
Proof. unfold rstrip. rewrite last_reverse. apply lstrip_head. Qed.

Lemma rstrip_nil s : rstrip s = [] ↔ Forall (λ c, isspace c = true) s.
Proof.
  unfold rstrip. rewrite <-(Forall_reverse _ s), <-lstrip_nil.
  split; [|by intros ->].
  intros H. apply (f_equal reverse) in H. by rewrite reverse_involutive in H.
Qed.

Lemma rstrip_id s :
  (∀ c, last s = Some c → isspace c = false) → rstrip s = s.
Proof.
  intros H. unfold rstrip. rewrite lstrip_id; [apply reverse_involutive|].
  intros c. rewrite head_reverse. apply H.
Qed.

Lemma strip_nil s : strip s = [] ↔ Forall (λ c, isspace c = true) s.
Proof.
  unfold strip. rewrite lstrip_nil. split.
  - intros H. destruct (rstrip_spec s) as (suf & Hs & Hsuf). rewrite Hs.
    by apply Forall_app.
  - intros H. by apply rstrip_nil in H as ->.
Qed.

Lemma strip_spec s :
  ∃ pre suf, s = pre ++ strip s ++ suf ∧
             Forall (λ c, isspace c = true) pre ∧
             Forall (λ c, isspace c = true) suf.
Proof.
  destruct (rstrip_spec s) as (suf & Hs & Hsuf).
  destruct (lstrip_spec (rstrip s)) as (pre & Hr & Hpre).
  exists pre, suf. split; [|done]. unfold strip.
  rewrite app_assoc, <-Hr. done.
Qed.

Lemma strip_elem s c : c ∈ strip s → c ∈ s.
Proof.
  destruct (strip_spec s) as (pre & suf & Hs & _). intros Hc.
  rewrite Hs, !elem_of_app. auto.
Qed.

Lemma strip_keeps s c : c ∈ s → isspace c = false → c ∈ strip s.
Proof.
  destruct (strip_spec s) as (pre & suf & Hs & Hpre & Hsuf). intros Hc Hsp.
  rewrite Hs, !elem_of_app in Hc. destruct Hc as [Hc|[Hc|Hc]]; [|done|].
  - apply (proj1 (Forall_forall _ _) Hpre) in Hc. congruence.
  - apply (proj1 (Forall_forall _ _) Hsuf) in Hc. congruence.
Qed.

Lemma strip_head s c : head (strip s) = Some c → isspace c = false.
Proof. apply lstrip_head. Qed.

Lemma strip_last s c : last (strip s) = Some c → isspace c = false.
Proof.
  unfold strip. destruct (lstrip_spec (rstrip s)) as (pre & Hr & Hpre).
  intros Hlast. apply (rstrip_last s). rewrite Hr.
  destruct (lstrip (rstrip s)) as [|x l] eqn:Hl; [done|].
  by rewrite last_app, Hlast.
Qed.

Lemma strip_id s :
  (∀ c, head s = Some c → isspace c = false) →
  (∀ c, last s = Some c → isspace c = false) →
  strip s = s.
Proof.
  intros Hh Hl. unfold strip. rewrite (rstrip_id s Hl). by apply lstrip_id.
Qed.

(** *** [splitlines] *)

Lemma splitlines_go_LF rest :
  splitlines_go [] (10%N :: rest) = [] :: splitlines_go [] rest.
Proof. by destruct rest. Qed.

Lemma splitlines_go_break cur c rest :
  islinebreak c = true →
  splitlines_go cur (c :: rest)
  = reverse cur ::
      (if ((c =? 13%N) && bool_decide (head rest = Some 10%N))%N
       then tail (splitlines_go [] rest) else splitlines_go [] rest).
Proof.
  intros Hc. simpl. rewrite Hc. f_equal.
  destruct rest as [|c' rest'].
  { by destruct (_ && _). }
  destruct (c =? 13)%N eqn:Hcr; simpl; [|done].
  destruct (N.eqb_spec c' 10) as [->|Hne].
  - rewrite bool_decide_true by done. by destruct rest'.
  - rewrite bool_decide_false; [done|]. by intros [= ?].
Qed.

Lemma splitlines_go_char cur c rest :
  islinebreak c = false →
  splitlines_go cur (c :: rest) = splitlines_go (c :: cur) rest.
Proof. intros Hc. simpl. by rewrite Hc. Qed.

Lemma elem_of_tail {A} (x : A) (l : list A) : x ∈ tail l → x ∈ l.
Proof. destruct l; [done|]. by right. Qed.

(** The characters of a line are characters of the text, and none is a
    line boundary. *)
Lemma splitlines_go_elem s : ∀ cur l c,
  Forall (λ c, islinebreak c = false) cur →
  l ∈ splitlines_go cur s → c ∈ l →
  (c ∈ cur ∨ c ∈ s) ∧ islinebreak c = false.
Proof.
  induction s as [|c0 rest IH]; intros cur l c Hcur Hl Hc.
  - simpl in Hl. destruct cur as [|x cur']; [by apply elem_of_nil in Hl|].
    apply list_elem_of_singleton in Hl as ->. rewrite elem_of_reverse in Hc.
    split; [by left|]. by apply (proj1 (Forall_forall _ _) Hcur).
  - destruct (islinebreak c0) eqn:Hc0.
    + rewrite splitlines_go_break in Hl by done.
      apply elem_of_cons in Hl as [->|Hl].
      * rewrite elem_of_reverse in Hc. split; [by left|].
        by apply (proj1 (Forall_forall _ _) Hcur).
      * assert (l ∈ splitlines_go [] rest) as Hl'.
        { destruct (_ && _); [by apply elem_of_tail|done]. }
        destruct (IH [] l c (Forall_nil_2 _) Hl' Hc) as [[?%elem_of_nil|?] ?]; [done|].
        split; [right; by right | done].
    + rewrite splitlines_go_char in Hl by done.
      destruct (IH (c0 :: cur) l c) as [[Hin|Hin] ?]; [by constructor | done..| |].
      * apply elem_of_cons in Hin as [->|?]; split; auto. right. left.
      * split; [right; by right | done].
Qed.

(** Every character that is no line boundary is in some line. *)
Lemma splitlines_go_cover s : ∀ cur c,
  c ∈ cur ∨ c ∈ s ∧ islinebreak c = false →
  ∃ l, l ∈ splitlines_go cur s ∧ c ∈ l.
Proof.
  induction s as [|c0 rest IH]; intros cur c Hc.
  - destruct Hc as [Hc|[?%elem_of_nil _]]; [|done].
    destruct cur as [|x cur']; [by apply elem_of_nil in Hc|].
    exists (reverse (x :: cur')). split; [left | by apply elem_of_reverse_2].
  - destruct (islinebreak c0) eqn:Hc0.
    + rewrite splitlines_go_break by done.
      destruct Hc as [Hc|[Hc Hnb]].
      { exists (reverse cur). split; [left | by apply elem_of_reverse_2]. }
      apply elem_of_cons in Hc as [->|Hc]; [congruence|].
      destruct (IH [] c) as (l & Hl & Hcl); [by right|].
      exists l. split; [|done]. right.
      destruct (_ && _) eqn:Hcrlf; [|done].
      apply andb_true_iff in Hcrlf as [_ Hhd%bool_decide_eq_true].
      destruct rest as [|c' rest']; [done|]. injection Hhd as ->.
      rewrite splitlines_go_LF in Hl |- *. simpl.
      apply elem_of_cons in Hl as [->|Hl]; [by apply elem_of_nil in Hcl | done].
    + rewrite splitlines_go_char by done. apply IH.
      destruct Hc as [Hc|[Hc Hnb]]; [left; by right|].
      apply elem_of_cons in Hc as [->|Hc]; [left; left | right; done].
Qed.

Lemma splitlines_go_line u : ∀ cur rest,
  Forall (λ c, islinebreak c = false) u →
  splitlines_go cur (u ++ 10%N :: rest)
  = (reverse cur ++ u) :: splitlines_go [] rest.
Proof.
  induction u as [|c u IH]; intros cur rest Hu; simpl app.
  - rewrite splitlines_go_break by done. rewrite app_nil_r. done.
  - inv Hu. rewrite splitlines_go_char by done. rewrite IH by done.
    by rewrite reverse_cons, <-app_assoc.
Qed.

Lemma splitlines_go_last u : ∀ cur,
  Forall (λ c, islinebreak c = false) u → cur ++ u ≠ [] →
  splitlines_go cur u = [reverse cur ++ u].
Proof.
  induction u as [|c u IH]; intros cur Hu Hne.
  - simpl. rewrite app_nil_r in *. by destruct cur.
  - inv Hu. rewrite splitlines_go_char by done. rewrite IH; [|done|done].
    by rewrite reverse_cons, <-app_assoc.
Qed.

Lemma splitlines_join urls :
  Forall (λ u, u ≠ [] ∧ Forall (λ c, islinebreak c = false) u) urls →
  splitlines (join [10%N] urls) = urls.
Proof.
  unfold splitlines. induction 1 as [|u rest [Hne Hu] Hrest IH]; [done|].
  destruct rest as [|u' rest'].
  - simpl. by rewrite splitlines_go_last by (by destruct u).
  - change (join [10%N] (u :: u' :: rest'))
      with (u ++ 10%N :: join [10%N] (u' :: rest')).
    by rewrite splitlines_go_line, IH.
Qed.

(** *** [replace] *)

Lemma replace_elem old new s c :
  c ∈ replace old new s → c = new ∨ c ∈ s ∧ c ≠ old.
Proof.
  unfold replace. intros (c' & -> & Hc')%list_elem_of_fmap.
  destruct (N.eqb_spec c' old); auto.
Qed.

Lemma replace_keeps old new s c : c ∈ s → c ≠ old → c ∈ replace old new s.
Proof.
  intros Hc Hne. unfold replace. apply list_elem_of_fmap. exists c.
  split; [|done]. by destruct (N.eqb_spec c old).
Qed.

Lemma replace_id old new s : old ∉ s → replace old new s = s.
Proof.
  intros Hs. unfold replace. rewrite <-(list_fmap_id s) at 2.
  apply list_fmap_ext. intros i c Hc%list_elem_of_lookup_2. simpl.
  destruct (N.eqb_spec c old) as [->|]; done.
Qed.

Lemma replace_app old new s t :
  replace old new (s ++ t) = replace old new s ++ replace old new t.
Proof. apply fmap_app. Qed.

End PyFacts.

(** * Facts about [src/server.py] *)
Module ServerFacts.
Import Server.

(** ** The job store *)

(** C3, counterexample: the record of job [j1] is stored in full; the next
    put of that job fails during the dump and leaves the first ten
    characters of the new document in the file, neither the old record
    nor the new one; after a restart the job is no more listed and a poll
    of it fails to decode the file. *)
Lemma put_is_not_atomic :
  JOBS_DIR world_disk_full !! "j1.json" = Some (Complete job_queued) ∧
  outcome (update_job job_running) world_disk_full
    = Raise (Exception "No space left on device") ∧
  JOBS_DIR (exec (update_job job_running) world_disk_full) !! "j1.json"
    = Some (Partial job_running 10) ∧
  outcome list_jobs (step (exec (update_job job_running) world_disk_full) OpRestart)
    = Ok (BJobs [], 200) ∧
  outcome (status "j1") (step (exec (update_job job_running) world_disk_full) OpRestart)
    = Raise (Exception "JSONDecodeError").
Proof. repeat split; vm_compute; reflexivity. Qed.

(** ** Submission and poll *)



(** ** The trace of a run *)

Lemma puts_snoc evs e :
  puts (evs ++ [e]) = puts evs ++ match e with Put j => [j] | _ => [] end.
Proof. unfold puts. rewrite omap_app. by destruct e. Qed.

Lemma staged_nil : staged [].
Proof. intros pre e post s H. by destruct pre. Qed.

Lemma staged_snoc evs e :
  staged evs →
  (∀ s, stage_of e = Some s → persisted_state evs = Some s) →
  staged (evs ++ [e]).
Proof.
  intros Hevs He pre e' post s Heq Hs.
  destruct post as [|e'' post _] using rev_ind.
  - apply app_inj_tail in Heq as [-> ->]. by apply He.
  - rewrite app_comm_cons, app_assoc in Heq.
    apply app_inj_tail in Heq as [-> _]. by eapply Hevs.
Qed.

Lemma run_inv_first j : bounded j → run_inv j j [Put j].
Proof.
  intros Hb. split_and!; simpl; try done.
  - by repeat constructor.
  - by repeat constructor.
  - by repeat constructor.
  - apply (staged_snoc []); [apply staged_nil | done].
  - by repeat constructor.
  - by exists [].
Qed.

Lemma run_inv_id j0 j evs : run_inv j0 j evs → j_id j = j_id j0.
Proof.
  intros (Hlast & _ & _ & _ & _ & Hid & _). apply last_Some in Hlast as [l Hl].
  rewrite Hl in Hid. apply Forall_app in Hid as [_ Hj]. by inv Hj.
Qed.

Lemma Sorted_snoc_last {A} (R : relation A) (l : list A) (x y : A) :
  Sorted R l → last l = Some x → R x y → Sorted R (l ++ [y]).
Proof.
  intros Hl Hlast Hxy. apply Sorted_snoc; [done|].
  destruct l as [|z l _] using rev_ind; [done|].
  rewrite last_snoc in Hlast. injection Hlast as ->.
  by constructor.
Qed.

Lemma run_inv_put j0 jl j evs :
  run_inv j0 jl evs → le_current jl j → le_rank jl j → bounded j →
  j_id j = j_id jl →
  run_inv j0 j (evs ++ [Put j]).
Proof.
  intros Hinv ??? Hj. pose proof (run_inv_id _ _ _ Hinv) as Hjl.
  destruct Hinv as (Hlast & Hcur & Hbnd & Hrank & Hst & Hid & rest & ->).
  unfold run_inv. rewrite puts_snoc. split_and!.
  - by rewrite last_snoc.
  - by eapply Sorted_snoc_last.
  - apply Forall_app. split; [done | by constructor].
  - by eapply Sorted_snoc_last.
  - by apply staged_snoc.
  - apply Forall_app. split; [done|]. constructor; [congruence | done].
  - by exists (rest ++ [Put j]).
Qed.

Lemma run_inv_emit j0 j evs e :
  run_inv j0 j evs →
  match e with Put _ => False | _ => True end →
  (∀ s, stage_of e = Some s → j_state j = s) →
  run_inv j0 j (evs ++ [e]).
Proof.
  intros (Hlast & Hcur & Hbnd & Hrank & Hst & Hid & rest & ->) Hput He.
  unfold run_inv. rewrite puts_snoc.
  assert ((match e with Put j => [j] | _ => [] end) = []) as ->
    by (by destruct e).
  rewrite app_nil_r. split_and!; try done.
  - apply staged_snoc; [done|]. intros s Hs.
    unfold persisted_state. rewrite Hlast. simpl. f_equal. by apply He.
  - by exists (rest ++ [e]).
Qed.


Lemma write_json_result {J} flt path (j : J) (dir : gmap string (file J)) :
  (write_json flt path j dir).1 = Ok tt ∨
  ∃ msg, (write_json flt path j dir).1 = Raise (Exception msg).
Proof. destruct flt as [[msg|[|n] msg]|]; simpl; eauto. Qed.

Ltac put_ok :=
  unfold le_current, le_rank, bounded; simpl; (done || lia).

Section walk.
Variables (lg0 pre : list Event) (job_id : string) (j0 : Job).
Implicit Types (Q : unit → World → Prop) (E : exn → World → Prop).

Lemma wp_lift {A} (r : Res A) (Q : A → World → Prop) E w :
  match r with Ok a => Q a w | Raise e => E e w end → wp (lift r) Q E w.
Proof. unfold wp, lift. by destruct r. Qed.

Lemma at_snoc j j' evs e w w' :
  at_ lg0 pre job_id j evs w →
  jobs w' !! job_id = Some j' → log w' = log w ++ [e] →
  at_ lg0 pre job_id j' (evs ++ [e]) w'.
Proof.
  intros (_ & real & -> & Hlog) Hj' Hlog'. split; [done|].
  exists (real ++ [e]). by rewrite Hlog', Hlog, !app_assoc.
Qed.

Lemma at_same_log j j' evs w w' :
  at_ lg0 pre job_id j evs w →
  jobs w' !! job_id = Some j' → log w' = log w →
  at_ lg0 pre job_id j' evs w'.
Proof.
  intros (_ & real & -> & Hlog) Hj' Hlog'. split; [done|].
  exists real. by rewrite Hlog'.
Qed.

Lemma wp_emit_at e j evs Q E w :
  at_ lg0 pre job_id j evs w →
  (∀ w', at_ lg0 pre job_id j (evs ++ [e]) w' → Q tt w') →
  wp (emit e) Q E w.
Proof.
  intros Hat HQ. apply wp_modify, HQ.
  eapply at_snoc; [done | apply Hat | done].
Qed.

Lemma wp_assign_at f j evs Q E w :
  at_ lg0 pre job_id j evs w →
  (∀ w', at_ lg0 pre job_id (f j) evs w' → Q tt w') →
  wp (assign job_id f) Q E w.
Proof.
  intros Hat HQ. apply wp_modify, HQ.
  eapply at_same_log; [done | | done]. simpl.
  destruct Hat as [Hj _]. by rewrite lookup_alter_eq, Hj.
Qed.

Lemma wp_frame_at (g : World → World) j evs Q E w :
  (∀ w, jobs (g w) = jobs w ∧ log (g w) = log w) →
  at_ lg0 pre job_id j evs w →
  (∀ w', at_ lg0 pre job_id j evs w' → Q tt w') →
  wp (modify g) Q E w.
Proof.
  intros Hg Hat HQ. apply wp_modify, HQ.
  destruct (Hg w) as [Hjobs Hlg].
  eapply at_same_log; [done | | done]. rewrite Hjobs. apply Hat.
Qed.

Lemma wp_save_at job j evs Q E w :
  at_ lg0 pre job_id j evs w →
  (∀ w', at_ lg0 pre job_id j evs w' →
         Q tt w' ∧ ∀ msg, E (Exception msg) w') →
  wp (_save_job job) Q E w.
Proof.
  intros Hat HQ. unfold wp, _save_job.
  pose proof (write_json_result (next_fault (faults w))
    (json_name (j_id job)) job (JOBS_DIR w)) as Hr.
  destruct (write_json _ _ _ _) as [r dir']. simpl in Hr.
  destruct (HQ (set_JOBS_DIR dir' (set_faults (tail (faults w)) w)))
    as [HOk HRaise]; [exact Hat|].
  destruct Hr as [-> | [msg ->]]; [exact HOk | apply HRaise].
Qed.

Lemma wp_update_at j evs Q E w :
  at_ lg0 pre job_id j evs w →
  (∀ w', at_ lg0 pre job_id j (evs ++ [Put j]) w' →
         Q tt w' ∧ ∀ msg, E (Exception msg) w') →
  wp (the_job job_id ≫= update_job) Q E w.
Proof.
  intros Hat HQ. pose proof Hat as [Hj _].
  apply wp_bind. unfold wp at 1, the_job. rewrite Hj.
  unfold update_job. apply wp_bind, wp_modify, wp_bind.
  eapply (wp_emit_at _ j evs).
  { eapply at_same_log; [done | | done]. simpl.
    destruct (decide (j_id j = job_id)) as [->|Hne].
    - by rewrite lookup_insert_eq.
    - by rewrite lookup_insert_ne. }
  intros w' Hw'. by eapply wp_save_at.
Qed.

Lemma wp_readonly {A} (m : M World A) (Q : A → World → Prop) E w :
  readonly m → (∀ a, Q a w) → (∀ e, E e w) → wp m Q E w.
Proof.
  intros Hm HQ HE. specialize (Hm w). unfold wp, exec in *.
  destruct (m w) as [[a|e] w']; simpl in Hm; subst; auto.
Qed.

Lemma readonly_lift {A} (r : Res A) : readonly (lift r).
Proof. by intros w. Qed.

Lemma readonly_ret {A} (a : A) : readonly (mret a).
Proof. by intros w. Qed.

Lemma readonly_bind {A B} (m : M World A) (f : A → M World B) :
  readonly m → (∀ a, readonly (f a)) → readonly (m ≫= f).
Proof.
  intros Hm Hf w. specialize (Hm w). unfold exec in *. unfold_m.
  destruct (m w) as [[a|e] w']; simpl in *; subst; [apply Hf | done].
Qed.

Lemma readonly_try_except {A} (m : M World A) h :
  readonly m → (∀ e, readonly (h e)) → readonly (try_except m h).
Proof.
  intros Hm Hh w. specialize (Hm w). unfold exec, try_except in *.
  destruct (m w) as [[a|[msg|msg]] w']; simpl in *; subst; [done | apply Hh | done].
Qed.

Lemma readonly_get_service env : readonly (get_service env).
Proof. unfold get_service. by destruct (token_file_exists env). Qed.

Lemma wp_rmtree_at job_id' j evs Q E w :
  at_ lg0 pre job_id j evs w →
  (∀ w', at_ lg0 pre job_id j (evs ++ [Rmtree job_id']) w' → Q tt w') →
  wp (rmtree job_id') Q E w.
Proof.
  intros Hat HQ. apply wp_bind. eapply wp_emit_at; [done|]. intros w1 H1.
  eapply wp_frame_at; [done | done | exact HQ].
Qed.

Lemma wp_mkdir_at job_id' j evs Q E w :
  at_ lg0 pre job_id j evs w →
  (∀ w', at_ lg0 pre job_id j (evs ++ [Mkdir job_id']) w' → Q tt w') →
  wp (mkdir job_id') Q E w.
Proof.
  intros Hat HQ. apply wp_bind. eapply wp_emit_at; [done|]. intros w1 H1.
  eapply wp_frame_at; [|done | exact HQ].
  intros w'. by destruct (folders w' !! job_id').
Qed.

Lemma wp_run_yt_dlp_at env job_id' idx url j evs
    (Q : CompletedProcess → World → Prop) E w :
  at_ lg0 pre job_id j evs w →
  (∀ w', at_ lg0 pre job_id j (evs ++ [YtDlp url]) w' →
         (∀ res, Q res w') ∧ ∀ e, E e w') →
  wp (run_yt_dlp env job_id' idx url) Q E w.
Proof.
  intros Hat HQ. apply wp_bind. eapply wp_emit_at; [done|]. intros w1 H1.
  apply wp_bind, wp_lift. destruct (yt_dlp env idx url) as [res|e].
  - apply wp_bind. eapply wp_frame_at; [done | done |]. intros w2 H2.
    apply wp_ret. by apply HQ.
  - by apply HQ.
Qed.

(** A call of the Drive client: the event, then requests only. *)
Lemma wp_drive_at {A} ev (m : M World A) j evs (Q : A → World → Prop) E w :
  readonly m →
  at_ lg0 pre job_id j evs w →
  (∀ w', at_ lg0 pre job_id j (evs ++ [ev]) w' →
         (∀ a, Q a w') ∧ ∀ e, E e w') →
  wp (emit ev;; m) Q E w.
Proof.
  intros Hm Hat HQ. apply wp_bind. eapply wp_emit_at; [done|]. intros w1 H1.
  destruct (HQ w1 H1). by apply wp_readonly.
Qed.

Lemma readonly_create_folder_rest env name :
  readonly (get_service env;; lift (files_create_folder env name)).
Proof.
  apply readonly_bind; [apply readonly_get_service | intros _; apply readonly_lift].
Qed.

Lemma readonly_upload_file_rest env path parent_id :
  readonly (get_service env;; lift (files_create_media env path parent_id)).
Proof.
  apply readonly_bind; [apply readonly_get_service | intros _; apply readonly_lift].
Qed.

Lemma readonly_make_shareable_rest env file_id :
  readonly (get_service env;;
            try_except (lift (permissions_create env file_id)) (λ _, mret tt);;
            lift (files_get env file_id)).
Proof.
  apply readonly_bind; [apply readonly_get_service | intros _].
  apply readonly_bind; [|intros _; apply readonly_lift].
  apply readonly_try_except; [apply readonly_lift | intros _; apply readonly_ret].
Qed.

(** The download loop keeps the trace in order. *)
Lemma download_loop_inv env total urls : ∀ idx j evs w,
  at_ lg0 pre job_id j evs w → (run_inv j0) j evs → j_state j = Running →
  current (j_progress j) ≤ idx → idx + length urls = S total →
  wp (download_loop env job_id total idx urls)
    (λ _ w', ∃ j' evs', at_ lg0 pre job_id j' evs' w' ∧ (run_inv j0) j' evs' ∧
                        j_state j' = Running)
    (λ _, tracked lg0 pre job_id (run_inv j0)) w.
Proof.
  induction urls as [|url rest IH]; intros idx j evs w Hat Hinv Hst Hcur Hlen.
  { apply wp_ret. eauto. }
  simpl in *. apply wp_bind. eapply wp_assign_at; [done|]. intros w1 H1.
  apply wp_bind. eapply wp_update_at; [done|]. intros w2 H2.
  set (j1 := set_progress _ j) in *.
  assert ((run_inv j0) j1 (evs ++ [Put j1])) as Hinv1.
  { apply (run_inv_put j0 j); [done|..]; unfold le_current, le_rank, bounded;
      simpl; (done || lia). }
  split; [|intros msg; by exists j1, (evs ++ [Put j1])].
  apply wp_bind. eapply wp_run_yt_dlp_at; [done|]. intros w3 H3.
  assert ((run_inv j0) j1 (evs ++ [Put j1] ++ [YtDlp url])) as Hinv3.
  { rewrite app_assoc. apply run_inv_emit; [done | done |].
    intros s [= <-]. done. }
  rewrite <-app_assoc in H3.
  split; [|intros e; by exists j1, (evs ++ [Put j1] ++ [YtDlp url])].
  intros res. apply wp_bind, wp_when.
  destruct (bool_decide (returncode res ≠ 0%Z)).
  - apply wp_bind. eapply wp_assign_at; [done|]. intros w4 H4.
    eapply wp_update_at; [done|]. intros w5 H5.
    set (j2 := set_error _ j1) in *.
    assert ((run_inv j0) j2 ((evs ++ [Put j1] ++ [YtDlp url]) ++ [Put j2])) as Hinv5.
    { apply (run_inv_put j0 j1); [done|..]; unfold le_current, le_rank, bounded;
        simpl; (done || lia). }
    split; [|intros msg; by eexists j2, _].
    eapply IH; [done | done | done | simpl; lia | lia].
  - eapply IH; [done | done | done | simpl; lia | lia].
Qed.

Lemma wp_the_job_at j evs (Q : Job → World → Prop) E w :
  at_ lg0 pre job_id j evs w → Q j w → wp (the_job job_id) Q E w.
Proof. intros [Hj _] HQ. unfold wp, the_job. by rewrite Hj. Qed.

Lemma archive_stage_inv env j evs w :
  at_ lg0 pre job_id j evs w → (run_inv j0) j evs → j_state j = Running →
  bounded j →
  wp (archive_stage env job_id)
    (λ _ w', ∃ j' evs', at_ lg0 pre job_id j' evs' w' ∧ (run_inv j0) j' evs' ∧
                        j_state j' = Zipping ∧ bounded j')
    (λ _, tracked lg0 pre job_id (run_inv j0)) w.
Proof.
  intros Hat Hinv Hst Hb. unfold archive_stage.
  apply wp_bind. eapply wp_assign_at; [done|]. intros w1 H1.
  apply wp_bind. eapply wp_update_at; [done|]. intros w2 H2.
  set (j1 := set_state Zipping j) in *.
  assert ((run_inv j0) j1 (evs ++ [Put j1])) as Hinv1.
  { apply (run_inv_put j0 j); [done|..]; try put_ok. unfold le_rank. rewrite Hst. simpl. lia. }
  split; [|intros msg; by eexists j1, _].
  apply wp_bind, wp_gets, wp_bind, wp_when.
  assert (∀ evs2 w3, at_ lg0 pre job_id j1 evs2 w3 → (run_inv j0) j1 evs2 →
    wp (emit (MakeArchive job_id);; lift (make_archive env job_id);;
        modify (λ w, set_zips ({[job_id]} ∪ zips w) w))
      (λ _ w', ∃ j' evs', at_ lg0 pre job_id j' evs' w' ∧ (run_inv j0) j' evs' ∧
                          j_state j' = Zipping ∧ bounded j')
      (λ _, tracked lg0 pre job_id (run_inv j0)) w3) as Hrest.
  { intros evs2 w3 H3 Hinv3.
    apply wp_bind. eapply wp_emit_at; [done|]. intros w4 H4.
    assert ((run_inv j0) j1 (evs2 ++ [MakeArchive job_id])) as Hinv4.
    { apply run_inv_emit; [done | done | by intros s [= <-]]. }
    apply wp_bind, wp_lift. destruct (make_archive env job_id) as [[]|e].
    - eapply wp_frame_at; [done | done |]. intros w5 H5.
      eexists j1, _. split_and!; [done | done | done | put_ok].
    - by eexists j1, _. }
  destruct (bool_decide _).
  - apply wp_bind. eapply wp_emit_at; [done|]. intros w3 H3.
    eapply wp_frame_at; [done | done |]. intros w4 H4.
    eapply Hrest; [done|].
    apply run_inv_emit; [done | done | by intros s [= <-]].
  - by eapply Hrest.
Qed.

Lemma upload_stage_inv env j evs w :
  at_ lg0 pre job_id j evs w → (run_inv j0) j evs → j_state j = Zipping → bounded j →
  wp (upload_stage env job_id)
    (λ _, tracked lg0 pre job_id (run_inv j0)) (λ _, tracked lg0 pre job_id (run_inv j0)) w.
Proof.
  intros Hat Hinv Hst Hb. unfold upload_stage.
  apply wp_bind. eapply wp_assign_at; [done|]. intros w1 H1.
  apply wp_bind. eapply wp_update_at; [done|]. intros w2 H2.
  set (j1 := set_state Uploading j) in *.
  assert ((run_inv j0) j1 (evs ++ [Put j1])) as Hinv1.
  { apply (run_inv_put j0 j); [done|..]; try put_ok. unfold le_rank. rewrite Hst. simpl. lia. }
  split; [|intros msg; by eexists j1, _].
  apply wp_bind. eapply wp_the_job_at; [done|].
  apply wp_bind. unfold create_folder.
  eapply wp_drive_at; [apply readonly_create_folder_rest | done |].
  intros w3 H3.
  assert ((run_inv j0) j1 ((evs ++ [Put j1]) ++ [CreateFolder (j_name j1)])) as Hinv3.
  { apply run_inv_emit; [done | done | by intros s [= <-]]. }
  split; [|intros e; by eexists j1, _].
  intros parent_folder_id. apply wp_bind. unfold upload_file.
  eapply wp_drive_at; [apply readonly_upload_file_rest | done |].
  intros w4 H4.
  assert ((run_inv j0) j1 (((evs ++ [Put j1]) ++ [CreateFolder (j_name j1)])
                        ++ [UploadFile job_id parent_folder_id])) as Hinv4.
  { apply run_inv_emit; [done | done | by intros s [= <-]]. }
  split; [|intros e; by eexists j1, _].
  intros up. apply wp_bind. unfold make_shareable.
  eapply wp_drive_at; [apply readonly_make_shareable_rest | done |].
  intros w5 H5.
  match type of H5 with at_ _ _ _ _ ?l _ =>
    assert ((run_inv j0) j1 l) as Hinv5
      by (apply run_inv_emit; [done | done | by intros s [= <-]])
  end.
  split; [|intros e; by eexists j1, _].
  intros share. apply wp_bind. eapply wp_assign_at; [done|]. intros w6 H6.
  apply wp_bind. eapply wp_assign_at; [done|]. intros w7 H7.
  eapply wp_update_at; [done|]. intros w8 H8.
  match type of H8 with at_ _ _ _ ?jd ?l _ =>
    assert ((run_inv j0) jd l) as Hinv8 by (apply (run_inv_put j0 j1); [done|..]; put_ok)
  end.
  split; [|intros msg]; by eexists _, _.
Qed.

Lemma run_inv_bounded j evs : (run_inv j0) j evs → bounded j.
Proof.
  intros (Hlast & _ & Hbnd & _). apply last_Some in Hlast as [l Hl].
  rewrite Hl in Hbnd. apply Forall_app in Hbnd as [_ Hj]. by inv Hj.
Qed.

Lemma on_error_inv e j evs w :
  at_ lg0 pre job_id j evs w → run_inv j0 j evs → bounded j →
  wp (on_error job_id e)
    (λ _, tracked lg0 pre job_id (run_inv j0)) (λ _, tracked lg0 pre job_id (run_inv j0)) w.
Proof.
  intros Hat Hinv Hb. unfold on_error.
  apply wp_bind. eapply wp_assign_at; [done|]. intros w1 H1.
  apply wp_bind. eapply wp_assign_at; [done|]. intros w2 H2.
  eapply wp_update_at; [done|]. intros w3 H3.
  match type of H3 with at_ _ _ _ ?je ?l _ =>
    assert (run_inv j0 je l) as Hinv3
  end.
  { apply (run_inv_put j0 j); [done|..]; try put_ok.
    unfold le_rank. simpl. destruct (j_state j); simpl; lia. }
  split; [|intros msg]; by eexists _, _.
Qed.

Lemma cleanup_inv w :
  tracked lg0 pre job_id (run_inv j0) w →
  wp (cleanup job_id)
    (λ _, tracked lg0 pre job_id (run_inv j0)) (λ _, tracked lg0 pre job_id (run_inv j0)) w.
Proof.
  intros (j' & evs' & Hat' & Hinv').
  apply wp_try_except. eapply wp_rmtree_at; [done|]. intros w'' Hat''.
  eexists j', _. split; [done|]. by apply run_inv_emit.
Qed.

Lemma pipeline_inv env j evs w :
  at_ lg0 pre job_id j evs w → run_inv j0 j evs → j_state j = Running →
  current (j_progress j) ≤ 1 →
  wp (pipeline env job_id)
    (λ _, tracked lg0 pre job_id (run_inv j0)) (λ _, tracked lg0 pre job_id (run_inv j0)) w.
Proof.
  intros Hat Hinv Hst Hcur. unfold pipeline.
  apply wp_bind. eapply wp_the_job_at; [done|].
  apply wp_bind. eapply wp_mono.
  - eapply download_loop_inv; [done | done | done | done | simpl; lia].
  - intros ? w5 (j5 & evs5 & H5 & Hinv5 & Hst5).
    apply wp_bind. eapply wp_mono.
    + eapply archive_stage_inv; [done | done | done |].
      by eapply run_inv_bounded.
    + intros ? w6 (j6 & evs6 & H6 & Hinv6 & Hst6 & Hb6).
      by eapply upload_stage_inv.
    + by intros.
  - by intros.
Qed.

Lemma download_and_process_inv env j evs w :
  at_ lg0 pre job_id j evs w → run_inv j0 j evs →
  state_rank (j_state j) ≤ 1 → current (j_progress j) ≤ 1 →
  wp (download_and_process env job_id)
    (λ _, tracked lg0 pre job_id (run_inv j0)) (λ _, tracked lg0 pre job_id (run_inv j0)) w.
Proof.
  intros Hat Hinv Hst Hcur. pose proof (run_inv_bounded _ _ Hinv) as Hb.
  unfold download_and_process.
  apply wp_bind, wp_gets. pose proof Hat as [Hj _]. rewrite Hj.
  apply wp_bind. eapply wp_assign_at; [done|]. intros w1 H1.
  apply wp_bind. eapply wp_update_at; [done|]. intros w2 H2.
  set (j1 := set_state Running j) in *.
  assert (run_inv j0 j1 (evs ++ [Put j1])) as Hinv1.
  { apply (run_inv_put j0 j); [done|..]; put_ok. }
  split; [|intros msg; by eexists j1, _].
  apply wp_bind, wp_gets, wp_bind, wp_when.
  assert (∀ evs2 w3, at_ lg0 pre job_id j1 evs2 w3 → run_inv j0 j1 evs2 →
    wp (mkdir job_id;;
        try_finally
          (try_except (pipeline env job_id) (on_error job_id))
          (cleanup job_id))
      (λ _, tracked lg0 pre job_id (run_inv j0))
      (λ _, tracked lg0 pre job_id (run_inv j0)) w3)
    as Hrest.
  { clear dependent w. clear dependent w1. clear dependent w2.
    intros evs2 w3 H3 Hinv3.
    apply wp_bind. eapply wp_mkdir_at; [done|]. intros w4 H4.
    assert (run_inv j0 j1 (evs2 ++ [Mkdir job_id])) as Hinv4
      by (by apply run_inv_emit).
    apply wp_try_finally.
    eapply wp_mono with (Q := λ _, tracked lg0 pre job_id (run_inv j0))
                        (E := λ _, tracked lg0 pre job_id (run_inv j0));
      [|intros ? w' Hw'; by apply cleanup_inv
       |intros ? w' Hw'; by apply cleanup_inv].
    apply wp_try_except.
    eapply wp_mono with (Q := λ _, tracked lg0 pre job_id (run_inv j0))
                        (E := λ _, tracked lg0 pre job_id (run_inv j0));
      [|intros ? w' Hw'; exact Hw'|].
    - eapply pipeline_inv; [done | done | done | simpl; lia].
    - intros [msg|msg] w' (j' & evs' & Hat' & Hinv'); [|by eexists j', _].
      eapply on_error_inv; [done | done |]. by eapply run_inv_bounded. }
  destruct (bool_decide _).
  - apply wp_bind. eapply wp_rmtree_at; [done|]. intros w3 H3.
    eapply Hrest; [done|]. by apply run_inv_emit.
  - by eapply Hrest.
Qed.
End walk.


Lemma enqueue_run jid now url urls name w :
  let data := mkRequest (UrlList (url :: urls)) name in
  let w1 := exec (enqueue jid now data) w in
  at_ (log w) [] jid (new_job jid now (url :: urls) name)
    [Put (new_job jid now (url :: urls) name)] w1 ∧
  (threads w1 = threads w ++ [jid] ∨ threads w1 = threads w).
Proof.
  destruct w as [js dir fo zi th flts lg]. simpl.
  unfold exec, enqueue, create_job, emit, _save_job. unfold_m. simpl.
  destruct (write_json _ _ _ _) as [[[]|e] dir'] eqn:Hw; simpl;
    (split; [split; simpl; [by rewrite lookup_insert_eq | by eexists] | auto]).
Qed.

Lemma at_log lg0 job_id j evs w :
  at_ lg0 [] job_id j evs w → log w = lg0 ++ evs.
Proof. by intros (_ & real & -> & ->). Qed.

Lemma lifetime_inv env jid now data w :
  events_since w (lifetime env jid now data w) = [] ∨
  ∃ j0 j, j_id j0 = jid ∧ j_state j0 = Queued ∧ current (j_progress j0) = 0 ∧
          run_inv j0 j (events_since w (lifetime env jid now data w)).
Proof.
  unfold lifetime, events_since.
  destruct data as [[| |[|url urls]] name];
    try (left; unfold step at 2; unfold exec, enqueue; simpl;
         rewrite lookup_ge_None_2 by done; by rewrite drop_all).
  right.
  destruct (enqueue_run jid now url urls name w) as [Hat Hth].
  unfold step at 2. set (w1 := exec _ w) in *.
  set (jq := new_job jid now (url :: urls) name) in *.
  assert (run_inv jq jq [Put jq]) as Hinv by (apply run_inv_first; put_ok).
  exists jq. destruct Hth as [Hth|Hth]; unfold step; rewrite Hth.
  - rewrite lookup_app_r, Nat.sub_diag by done. simpl.
    set (w2 := set_threads _ w1).
    assert (at_ (log w) [] jid jq [Put jq] w2) as Hat2 by exact Hat.
    pose proof (download_and_process_inv (log w) [] jid jq env jq [Put jq] w2
      Hat2 Hinv) as Hwp.
    apply wp_exec in Hwp; [|simpl; lia..].
    destruct Hwp as (j & evs & Hlog%at_log & Hj').
    exists j. by rewrite Hlog, drop_app_length.
  - rewrite lookup_ge_None_2 by done. apply at_log in Hat as Hlog.
    exists jq. by rewrite Hlog, drop_app_length.
Qed.

Lemma Sorted_lookup_le {A} (R : relation A) `{!Reflexive R, !Transitive R}
    (l : list A) i k a b :
  Sorted R l → i ≤ k → l !! i = Some a → l !! k = Some b → R a b.
Proof.
  intros Hl%Sorted_StronglySorted Hik Ha Hb; [|done].
  destruct (decide (i = k)) as [->|Hne].
  { rewrite Ha in Hb. by injection Hb as ->. }
  apply lookup_lt_Some in Hb as Hlt.
  rewrite <-(take_drop_middle _ _ _ Hb) in Hl, Ha.
  rewrite lookup_app_l in Ha by (rewrite length_take; lia).
  apply list_elem_of_lookup_2 in Ha.
  eapply StronglySorted_app_1_elem_of in Hl; [done | done | left].
Qed.

#[local] Instance le_rank_refl : Reflexive le_rank.
Proof. intros a. unfold le_rank. lia. Qed.
#[local] Instance le_rank_trans : Transitive le_rank.
Proof. intros a b c. unfold le_rank. lia. Qed.
#[local] Instance le_current_refl : Reflexive le_current.
Proof. intros a. unfold le_current. lia. Qed.
#[local] Instance le_current_trans : Transitive le_current.
Proof. intros a b c. unfold le_current. lia. Qed.

(** Over the life of one job, from any world: the first record stored,
    at creation, has [progress.current] 0; along the sequence of the
    stores [progress.current] never decreases; and in every record stored
    [progress.current] is at most [progress.total]. *)
Lemma progress_monotone_one_job env jid now data w :
  let ps := j_progress <$> puts (events_since w (lifetime env jid now data w)) in
  (∀ p, head ps = Some p → current p = 0) ∧
  (∀ i k p q, i ≤ k → ps !! i = Some p → ps !! k = Some q →
              current p ≤ current q) ∧
  (∀ p, p ∈ ps → current p ≤ total p).
Proof.
  intros ps. unfold ps.
  destruct (lifetime_inv env jid now data w)
    as [-> | (j0 & j & Hid & Hq & H0 & Hinv)]; simpl.
  { split_and!; [done | intros i k p q _ Hp; by rewrite lookup_nil in Hp |].
    intros p Hp. by apply elem_of_nil in Hp. }
  destruct Hinv as (_ & Hcur & Hbnd & _ & _ & _ & rest & Hevs). split_and!.
  - rewrite Hevs. simpl. by intros p [= <-].
  - intros i k p q Hik Hp Hq'.
    rewrite list_lookup_fmap in Hp, Hq'.
    destruct (puts _ !! i) as [a|] eqn:Ha; [|done].
    destruct (puts _ !! k) as [b|] eqn:Hb; [|done].
    simpl in *. injection Hp as <-. injection Hq' as <-.
    by apply (Sorted_lookup_le le_current _ i k a b Hcur).
  - intros p (a & -> & Ha)%list_elem_of_fmap.
    by apply (proj1 (Forall_forall _ _) Hbnd).
Qed.

(** C6: over the life of a job, every call of the downloader is made
    while the last record stored has state [running], every call of the
    archiver while it has state [zipping], and every call of the Drive
    client while it has state [uploading]: the state was stored before
    the work of its stage began and no later state is stored before that
    work is over; and the states stored never move backwards in the
    lifecycle. *)
Theorem state_persisted_before_work env jid now data w :
  let evs := events_since w (lifetime env jid now data w) in
  staged evs ∧
  (∀ i k a b, i ≤ k → puts evs !! i = Some a → puts evs !! k = Some b →
              state_rank (j_state a) ≤ state_rank (j_state b)).
Proof.
  intros evs. unfold evs.
  destruct (lifetime_inv env jid now data w)
    as [-> | (j0 & j & Hid & Hq & H0 & Hinv)]; simpl.
  { split; [apply staged_nil|]. intros i k a b _ Ha. by rewrite lookup_nil in Ha. }
  destruct Hinv as (_ & _ & _ & Hrank & Hst & _). split; [done|].
  intros i k a b Hik Ha Hb.
  by apply (Sorted_lookup_le le_rank _ i k a b Hrank).
Qed.

(** On the server a terminal state can still change: when the put of
    [done] fails, the [except] clause stores [error] over it, and the
    record keeps the [result] assigned before the put. *)
Lemma done_overwritten_on_store_fault :
  let w' := lifetime env_second_fails "j1" 0 one_url world_last_write_fails in
  j_state <$> puts (events_since world_last_write_fails w')
    = [Queued; Running; Running; Zipping; Uploading; Done; Error] ∧
  ∃ job, outcome (status "j1") w' = Ok (BJob job, 200) ∧
         j_state job = Error ∧ j_error job = Some "Input/output error" ∧
         is_Some (j_result job).
Proof.
  split; [vm_compute; reflexivity|].
  eexists. vm_compute. repeat split. by eexists.
Qed.

(** ** Runs on a disk without faults *)

Lemma after_loop_core env total urls : ∀ idx j,
  let j' := after_loop env total idx urls j in
  j_id j' = j_id j ∧ j_urls j' = j_urls j ∧ j_name j' = j_name j ∧
  j_state j' = j_state j ∧ j_result j' = j_result j.
Proof.
  induction urls as [|url rest IH]; intros idx j; [done|]. simpl.
  match goal with |- context [after_loop _ _ _ _ ?x] =>
    destruct (IH (S idx) x) as (-> & -> & -> & -> & ->) end.
  by destruct (yt_dlp env idx url) as [res|e]; [destruct (bool_decide _)|].
Qed.

Lemma after_loop_error_none env total urls : ∀ idx j,
  (∀ i u, urls !! i = Some u →
          ∃ r, yt_dlp env (idx + i) u = Ok r ∧ returncode r = 0%Z) →
  j_error (after_loop env total idx urls j) = j_error j.
Proof.
  induction urls as [|url rest IH]; intros idx j Hall; [done|]. simpl.
  destruct (Hall 0 url) as (r & Hr & Hrc); [done|].
  rewrite Nat.add_0_r in Hr. rewrite Hr, Hrc. simpl.
  rewrite IH; [done|]. intros i u Hi.
  replace (S idx + i) with (idx + S i) by lia. by apply Hall.
Qed.

Lemma after_loop_error_one env total urls : ∀ idx j k url res,
  urls !! k = Some url →
  yt_dlp env (idx + k) url = Ok res → returncode res ≠ 0%Z →
  (∀ i u, i ≠ k → urls !! i = Some u →
          ∃ r, yt_dlp env (idx + i) u = Ok r ∧ returncode r = 0%Z) →
  j_error (after_loop env total idx urls j) = Some (failure_message url res).
Proof.
  induction urls as [|u0 rest IH]; intros idx j k url res Hk Hres Hrc Hothers;
    [done|].
  destruct k as [|k]; simpl in *.
  - injection Hk as ->. rewrite Nat.add_0_r in Hres. rewrite Hres.
    rewrite bool_decide_true by done.
    rewrite after_loop_error_none; [done|]. intros i u Hi.
    replace (S idx + i) with (idx + S i) by lia. by apply Hothers.
  - destruct (Hothers 0 u0) as (r & Hr & Hr0); [done | done |].
    rewrite Nat.add_0_r in Hr. rewrite Hr, Hr0. simpl.
    apply (IH (S idx) _ k); [done | | done |].
    + by replace (S idx + k) with (idx + S k) by lia.
    + intros i u Hi Hu. replace (S idx + i) with (idx + S i) by lia.
      apply Hothers; [lia | done].
Qed.

Section ok_walk.
Variables (lg0 pre : list Event) (job_id : string).
Implicit Types (Q : unit → World → Prop) (E : exn → World → Prop).

Lemma wp_emit_at0 e j evs Q E w :
  at0 lg0 pre job_id j evs w →
  (∀ w', at0 lg0 pre job_id j (evs ++ [e]) w' → Q tt w') →
  wp (emit e) Q E w.
Proof.
  intros [Hat Hf] HQ. apply wp_modify, HQ. split; [|done].
  eapply at_snoc; [done | apply Hat | done].
Qed.

Lemma wp_assign_at0 f j evs Q E w :
  at0 lg0 pre job_id j evs w →
  (∀ w', at0 lg0 pre job_id (f j) evs w' → Q tt w') →
  wp (assign job_id f) Q E w.
Proof.
  intros [Hat Hf] HQ. apply wp_modify, HQ. split; [|done].
  eapply at_same_log; [done | | done]. simpl.
  destruct Hat as [Hj _]. by rewrite lookup_alter_eq, Hj.
Qed.

Lemma wp_frame_at0 (g : World → World) j evs Q E w :
  (∀ w, jobs (g w) = jobs w ∧ log (g w) = log w ∧ faults (g w) = faults w) →
  at0 lg0 pre job_id j evs w →
  (∀ w', at0 lg0 pre job_id j evs w' → Q tt w') →
  wp (modify g) Q E w.
Proof.
  intros Hg [Hat Hf] HQ. apply wp_modify, HQ.
  destruct (Hg w) as (Hjobs & Hlg & Hfl). split; [|congruence].
  eapply at_same_log; [done | | done]. rewrite Hjobs. apply Hat.
Qed.

Lemma wp_update_at0 j evs Q E w :
  at0 lg0 pre job_id j evs w →
  (∀ w', at0 lg0 pre job_id j (evs ++ [Put j]) w' → Q tt w') →
  wp (the_job job_id ≫= update_job) Q E w.
Proof.
  intros [Hat Hf] HQ. pose proof Hat as [Hj _].
  apply wp_bind. unfold wp at 1, the_job. rewrite Hj.
  unfold update_job. apply wp_bind, wp_modify, wp_bind, wp_modify.
  unfold wp, _save_job. simpl. rewrite Hf. simpl. apply HQ.
  split; [|done]. eapply at_snoc; [done | | done]. simpl.
  destruct (decide (j_id j = job_id)) as [->|Hne].
  - by rewrite lookup_insert_eq.
  - by rewrite lookup_insert_ne.
Qed.

Lemma wp_the_job_at0 j evs (Q : Job → World → Prop) E w :
  at0 lg0 pre job_id j evs w → Q j w → wp (the_job job_id) Q E w.
Proof. intros [Hat _]. by eapply wp_the_job_at. Qed.

Lemma wp_rmtree_at0 job_id' j evs Q E w :
  at0 lg0 pre job_id j evs w →
  (∀ w', at0 lg0 pre job_id j (evs ++ [Rmtree job_id']) w' → Q tt w') →
  wp (rmtree job_id') Q E w.
Proof.
  intros Hat HQ. apply wp_bind. eapply wp_emit_at0; [done|]. intros w1 H1.
  eapply wp_frame_at0; [done | done | exact HQ].
Qed.

Lemma wp_mkdir_at0 job_id' j evs Q E w :
  at0 lg0 pre job_id j evs w →
  (∀ w', at0 lg0 pre job_id j (evs ++ [Mkdir job_id']) w' → Q tt w') →
  wp (mkdir job_id') Q E w.
Proof.
  intros Hat HQ. apply wp_bind. eapply wp_emit_at0; [done|]. intros w1 H1.
  eapply wp_frame_at0; [|done | exact HQ].
  intros w'. by destruct (folders w' !! job_id').
Qed.

(** The download loop when every invocation returns. *)
Lemma download_loop_ok env total urls : ∀ idx j evs w,
  at0 lg0 pre job_id j evs w →
  (∀ i u, urls !! i = Some u → ∃ r, yt_dlp env (idx + i) u = Ok r) →
  wp (download_loop env job_id total idx urls)
    (λ _ w', ∃ new,
       at0 lg0 pre job_id (after_loop env total idx urls j) (evs ++ new) w' ∧
       Forall (λ e, stage_of e ≠ Some Uploading) new ∧
       downloads new = urls)
    (λ _ _, False) w.
Proof.
  induction urls as [|url rest IH]; intros idx j evs w Hat Hall.
  { apply wp_ret. exists []. by rewrite app_nil_r. }
  simpl. destruct (Hall 0 url) as [res Hres]; [done|].
  rewrite Nat.add_0_r in Hres. rewrite Hres.
  apply wp_bind. eapply wp_assign_at0; [done|]. intros w1 H1.
  apply wp_bind. eapply wp_update_at0; [done|]. intros w2 H2.
  set (j1 := set_progress _ j) in *.
  apply wp_bind. unfold run_yt_dlp.
  apply wp_bind. eapply wp_emit_at0; [done|]. intros w3 H3.
  apply wp_bind, wp_lift. rewrite Hres.
  apply wp_bind. eapply wp_frame_at0; [done | done |]. intros w4 H4.
  apply wp_ret, wp_bind, wp_when.
  assert (∀ i u, rest !! i = Some u → ∃ r, yt_dlp env (S idx + i) u = Ok r)
    as Hrest.
  { intros i u Hi. replace (S idx + i) with (idx + S i) by lia. by apply Hall. }
  destruct (bool_decide (returncode res ≠ 0%Z)).
  - apply wp_bind. eapply wp_assign_at0; [done|]. intros w5 H5.
    eapply wp_update_at0; [done|]. intros w6 H6.
    eapply wp_mono; [by eapply IH | | done].
    intros _ w' (new & Hat' & Hnew & Hdl).
    eexists ([_; _; _] ++ new). rewrite <-!app_assoc in Hat'.
    split; [exact Hat'|]. split; [by repeat constructor|].
    simpl. by rewrite Hdl.
  - eapply wp_mono; [by eapply IH | | done].
    intros _ w' (new & Hat' & Hnew & Hdl).
    eexists ([_; _] ++ new). rewrite <-!app_assoc in Hat'.
    split; [exact Hat'|]. split; [by repeat constructor|].
    simpl. by rewrite Hdl.
Qed.

Lemma archive_stage_at0 env j evs w :
  at0 lg0 pre job_id j evs w →
  let P := λ w', ∃ new,
    at0 lg0 pre job_id (set_state Zipping j) (evs ++ new) w' ∧
    Forall (λ e, stage_of e ≠ Some Uploading) new ∧ downloads new = [] in
  wp (archive_stage env job_id)
    (λ _ w', make_archive env job_id = Ok tt ∧ P w')
    (λ e w', make_archive env job_id = Raise e ∧ P w') w.
Proof.
  intros Hat P. unfold archive_stage.
  apply wp_bind. eapply wp_assign_at0; [done|]. intros w1 H1.
  apply wp_bind. eapply wp_update_at0; [done|]. intros w2 H2.
  set (j1 := set_state Zipping j) in *.
  apply wp_bind, wp_gets, wp_bind, wp_when.
  assert (∀ new w3, at0 lg0 pre job_id j1 (evs ++ new) w3 →
    Forall (λ e, stage_of e ≠ Some Uploading) new → downloads new = [] →
    wp (emit (MakeArchive job_id);; lift (make_archive env job_id);;
        modify (λ w, set_zips ({[job_id]} ∪ zips w) w))
      (λ _ w', make_archive env job_id = Ok tt ∧ P w')
      (λ e w', make_archive env job_id = Raise e ∧ P w') w3) as Hrest.
  { intros new w3 H3 Hnew Hdl.
    apply wp_bind. eapply wp_emit_at0; [done|]. intros w4 H4.
    rewrite <-app_assoc in H4.
    assert (Forall (λ e, stage_of e ≠ Some Uploading) (new ++ [MakeArchive job_id]))
      by (apply Forall_app; split; [done | by repeat constructor]).
    assert (downloads (new ++ [MakeArchive job_id]) = [])
      by (unfold downloads in *; by rewrite omap_app, Hdl).
    apply wp_bind, wp_lift. destruct (make_archive env job_id) as [[]|e].
    - eapply wp_frame_at0; [done | done |]. intros w5 H5.
      split; [done|]. by eexists.
    - split; [done|]. by eexists. }
  destruct (bool_decide _).
  - apply wp_bind. eapply wp_emit_at0; [done|]. intros w3 H3.
    eapply wp_frame_at0; [done | done |]. intros w4 H4.
    rewrite <-app_assoc in H4. eapply Hrest; [done | by repeat constructor | done].
  - eapply Hrest; [done | by repeat constructor | done].
Qed.

Lemma upload_stage_ok env j evs w folder_id up share :
  at0 lg0 pre job_id j evs w →
  token_file_exists env = true →
  files_create_folder env (j_name j) = Ok folder_id →
  files_create_media env (job_id +:+ ".zip") folder_id = Ok up →
  (∀ msg, permissions_create env (f_id up) ≠ Raise (SystemExit msg)) →
  files_get env (f_id up) = Ok share →
  wp (upload_stage env job_id)
    (λ _ w', ∃ new,
       at0 lg0 pre job_id
         (set_result
            {| drive_folder_id := folder_id;
               zip_file_id := f_id share;
               webViewLink := f_webViewLink share;
               webContentLink := f_webContentLink share |}
            (set_state Done (set_state Uploading j)))
         (evs ++ new) w' ∧ downloads new = [])
    (λ _ _, False) w.
Proof.
  intros Hat Htok Hfolder Hup Hperm Hget. unfold upload_stage.
  apply wp_bind. eapply wp_assign_at0; [done|]. intros w1 H1.
  apply wp_bind. eapply wp_update_at0; [done|]. intros w2 H2.
  apply wp_bind. eapply wp_the_job_at0; [done|].
  apply wp_bind. unfold create_folder, get_service. rewrite Htok.
  apply wp_bind. eapply wp_emit_at0; [done|]. intros w3 H3.
  apply wp_bind, wp_ret, wp_lift. simpl. rewrite Hfolder.
  apply wp_bind. unfold upload_file, get_service. rewrite Htok.
  apply wp_bind. eapply wp_emit_at0; [done|]. intros w4 H4.
  apply wp_bind, wp_ret, wp_lift. rewrite Hup.
  apply wp_bind. unfold make_shareable, get_service. rewrite Htok.
  apply wp_bind. eapply wp_emit_at0; [done|]. intros w5 H5.
  apply wp_bind, wp_ret, wp_bind.
  apply wp_mono with (Q := λ _ w', w' = w5) (E := λ _ _, False);
    [|intros _ w' ->|done].
  { apply wp_try_except, wp_lift.
    destruct (permissions_create env (f_id up)) as [[]|[msg|msg]] eqn:Hp;
      [done | by apply wp_ret | by destruct (Hperm msg)]. }
  apply wp_lift. rewrite Hget.
  apply wp_bind. eapply wp_assign_at0; [done|]. intros w6 H6.
  apply wp_bind. eapply wp_assign_at0; [done|]. intros w7 H7.
  eapply wp_update_at0; [done|]. intros w8 H8.
  rewrite <-!app_assoc in H8. by eexists.
Qed.

Lemma downloads_app evs1 evs2 :
  downloads (evs1 ++ evs2) = downloads evs1 ++ downloads evs2.
Proof. apply omap_app. Qed.

Lemma pipeline_done env j evs w folder_id up share :
  at0 lg0 pre job_id j evs w →
  (∀ i u, j_urls j !! i = Some u → ∃ r, yt_dlp env (S i) u = Ok r) →
  make_archive env job_id = Ok tt →
  token_file_exists env = true →
  files_create_folder env (j_name j) = Ok folder_id →
  files_create_media env (job_id +:+ ".zip") folder_id = Ok up →
  (∀ msg, permissions_create env (f_id up) ≠ Raise (SystemExit msg)) →
  files_get env (f_id up) = Ok share →
  wp (pipeline env job_id)
    (λ _ w', ∃ new,
       at0 lg0 pre job_id
         (set_result
            {| drive_folder_id := folder_id;
               zip_file_id := f_id share;
               webViewLink := f_webViewLink share;
               webContentLink := f_webContentLink share |}
            (set_state Done (set_state Uploading (set_state Zipping
               (after_loop env (length (j_urls j)) 1 (j_urls j) j)))))
         (evs ++ new) w' ∧ downloads new = j_urls j)
    (λ _ _, False) w.
Proof.
  intros Hat Hdl Harch Htok Hfolder Hup Hperm Hget. unfold pipeline.
  apply wp_bind. eapply wp_the_job_at0; [done|].
  apply wp_bind. eapply wp_mono; [by eapply download_loop_ok | | done].
  intros _ w1 (new1 & H1 & _ & Hdl1).
  apply wp_bind. eapply wp_mono; [by eapply archive_stage_at0 | |].
  2:{ intros e w' [He _]. congruence. }
  intros _ w2 (_ & new2 & H2 & _ & Hdl2).
  eapply wp_mono; [eapply upload_stage_ok; try done | | done].
  - simpl. by destruct (after_loop_core env (length (j_urls j)) (j_urls j) 1 j)
      as (_ & _ & -> & _).
  - intros _ w3 (new3 & H3 & Hdl3). rewrite <-!app_assoc in H3.
    eexists. split; [exact H3|]. by rewrite !downloads_app, Hdl1, Hdl2, Hdl3, !app_nil_r.
Qed.

Lemma pipeline_archive_raises env j evs w e :
  at0 lg0 pre job_id j evs w →
  (∀ i u, j_urls j !! i = Some u → ∃ r, yt_dlp env (S i) u = Ok r) →
  make_archive env job_id = Raise e →
  wp (pipeline env job_id)
    (λ _ _, False)
    (λ e' w', e' = e ∧ ∃ new,
       at0 lg0 pre job_id
         (set_state Zipping (after_loop env (length (j_urls j)) 1 (j_urls j) j))
         (evs ++ new) w' ∧
       Forall (λ e, stage_of e ≠ Some Uploading) new) w.
Proof.
  intros Hat Hdl Harch. unfold pipeline.
  apply wp_bind. eapply wp_the_job_at0; [done|].
  apply wp_bind. eapply wp_mono; [by eapply download_loop_ok | | done].
  intros _ w1 (new1 & H1 & Hnew1 & _).
  apply wp_bind. eapply wp_mono; [by eapply archive_stage_at0 | |].
  { intros _ w' [He _]. congruence. }
  intros e' w2 (He' & new2 & H2 & Hnew2 & _). rewrite <-!app_assoc in H2.
  split; [congruence|]. eexists. split; [exact H2|]. by apply Forall_app.
Qed.

(** The prologue of [download_and_process], up to the [try]. *)
Lemma prologue_at0 env j evs w
    (Q : unit → World → Prop) (E : exn → World → Prop) :
  at0 lg0 pre job_id j evs w →
  (∀ new w', at0 lg0 pre job_id (set_state Running j) (evs ++ new) w' →
             Forall (λ e, stage_of e = None) new →
             wp (try_finally
                   (try_except (pipeline env job_id) (on_error job_id))
                   (cleanup job_id)) Q E w') →
  wp (download_and_process env job_id) Q E w.
Proof.
  intros Hat HQ. unfold download_and_process.
  apply wp_bind, wp_gets. pose proof Hat as [[Hj _] _]. rewrite Hj.
  apply wp_bind. eapply wp_assign_at0; [done|]. intros w1 H1.
  apply wp_bind. eapply wp_update_at0; [done|]. intros w2 H2.
  apply wp_bind, wp_gets, wp_bind, wp_when. destruct (bool_decide _).
  - apply wp_bind. eapply wp_rmtree_at0; [done|]. intros w3 H3.
    apply wp_bind. eapply wp_mkdir_at0; [done|]. intros w4 H4.
    rewrite <-!app_assoc in H4. eapply HQ; [done|]. by repeat constructor.
  - apply wp_bind. eapply wp_mkdir_at0; [done|]. intros w4 H4.
    rewrite <-!app_assoc in H4. eapply HQ; [done|]. by repeat constructor.
Qed.

Lemma cleanup_at0 j evs w (Q : unit → World → Prop) E :
  at0 lg0 pre job_id j evs w →
  (∀ w', at0 lg0 pre job_id j (evs ++ [Rmtree job_id]) w' → Q tt w') →
  wp (cleanup job_id) Q E w.
Proof.
  intros Hat HQ. apply wp_try_except. by eapply wp_rmtree_at0.
Qed.

End ok_walk.

Lemma enqueue_run_ok jid now url urls name w :
  faults w = [] →
  let w1 := exec (enqueue jid now (mkRequest (UrlList (url :: urls)) name)) w in
  at0 (log w) [] jid (new_job jid now (url :: urls) name)
    [Put (new_job jid now (url :: urls) name)] w1 ∧
  threads w1 = threads w ++ [jid].
Proof.
  destruct w as [js dir fo zi th flts lg]. simpl. intros ->.
  unfold exec, enqueue, create_job, emit, _save_job. unfold_m. simpl.
  split; [|done]. split; [split|]; simpl;
    [by rewrite lookup_insert_eq | by eexists | done].
Qed.

Lemma lifetime_ok_run env jid now url urls name w :
  faults w = [] →
  ∃ w1,
    at0 (log w) [] jid (new_job jid now (url :: urls) name)
      [Put (new_job jid now (url :: urls) name)] w1 ∧
    lifetime env jid now (mkRequest (UrlList (url :: urls)) name) w
    = exec (download_and_process env jid) w1.
Proof.
  intros Hf. destruct (enqueue_run_ok jid now url urls name w Hf) as [Hat Hth].
  unfold lifetime. unfold step at 2. set (w1 := exec _ w) in *.
  unfold step. rewrite Hth, lookup_app_r, Nat.sub_diag by done. simpl.
  eexists. split; [|reflexivity]. exact Hat.
Qed.

Lemma events_since_at0 lg0 job_id j evs w w' :
  lg0 = log w → at0 lg0 [] job_id j evs w' → events_since w w' = evs.
Proof.
  intros -> [Hlog%at_log _]. unfold events_since. by rewrite Hlog, drop_app_length.
Qed.

Lemma status_in_memory job_id job w :
  jobs w !! job_id = Some job → outcome (status job_id) w = Ok (BJob job, 200).
Proof. intros Hj. unfold outcome, status. unfold_m. by rewrite Hj. Qed.

(** C1: a job is submitted with the URLs [urls] and its thread runs, the
    disk taking every write.  If the downloader returns non-zero for the
    [k]-th URL and zero for every other one, and the archiver and the
    Drive requests succeed (the grant may be refused), then the downloader
    was called for every URL, in order, and a poll gives the record in
    state [done], with the message of the failed URL in [error] and the
    folder id, the file id and the links in [result]. *)
Theorem partial_failure_still_done env jid now urls name w k url res
    folder_id up share :
  faults w = [] →
  urls !! k = Some url →
  yt_dlp env (S k) url = Ok res → returncode res ≠ 0%Z →
  (∀ i u, i ≠ k → urls !! i = Some u →
          ∃ r, yt_dlp env (S i) u = Ok r ∧ returncode r = 0%Z) →
  make_archive env jid = Ok tt →
  token_file_exists env = true →
  files_create_folder env (j_name (new_job jid now urls name)) = Ok folder_id →
  files_create_media env (jid +:+ ".zip") folder_id = Ok up →
  (∀ msg, permissions_create env (f_id up) ≠ Raise (SystemExit msg)) →
  files_get env (f_id up) = Ok share →
  let w' := lifetime env jid now (mkRequest (UrlList urls) name) w in
  downloads (events_since w w') = urls ∧
  ∃ job,
    outcome (status jid) w' = Ok (BJob job, 200) ∧
    j_state job = Done ∧
    j_error job = Some (failure_message url res) ∧
    j_result job = Some {| drive_folder_id := folder_id;
                           zip_file_id := f_id share;
                           webViewLink := f_webViewLink share;
                           webContentLink := f_webContentLink share |}.
Proof.
  intros Hf Hk Hres Hrc Hothers Harch Htok Hfolder Hup Hperm Hget w'.
  destruct urls as [|u0 urls0]; [done|]. set (urls := u0 :: urls0) in *.
  destruct (lifetime_ok_run env jid now u0 urls0 name w Hf) as (w1 & Hat & Hlife).
  fold urls in Hat, Hlife. set (jq := new_job jid now urls name) in *.
  assert (∀ i u, urls !! i = Some u → ∃ r, yt_dlp env (S i) u = Ok r) as Hall.
  { intros i u Hi. destruct (decide (i = k)) as [->|Hne].
    - rewrite Hk in Hi. injection Hi as <-. eauto.
    - destruct (Hothers i u Hne Hi) as (r & Hr & _). eauto. }
  assert (wp (download_and_process env jid)
            (λ _ w2, ∃ evs, at0 (log w) [] jid
               (set_result
                  {| drive_folder_id := folder_id;
                     zip_file_id := f_id share;
                     webViewLink := f_webViewLink share;
                     webContentLink := f_webContentLink share |}
                  (set_state Done (set_state Uploading (set_state Zipping
                     (after_loop env (length urls) 1 urls (set_state Running jq))))))
               evs w2 ∧ downloads evs = urls)
            (λ _ _, False) w1) as Hwp.
  { eapply prologue_at0; [done|]. intros new0 w2 H2 Hnew0.
    apply wp_try_finally.
    eapply wp_mono with (E := λ _ _, False); [| |done].
    - apply wp_try_except.
      eapply wp_mono with (E := λ _ _, False);
        [|intros ? w3 H3; exact H3 | done].
      eapply pipeline_done;
        [exact H2 | exact Hall | exact Harch | exact Htok | exact Hfolder
        |exact Hup | exact Hperm | exact Hget].
    - intros _ w3 (new & H3 & Hdl). eapply cleanup_at0; [done|].
      intros w4 H4. rewrite <-!app_assoc in H4. eexists. split; [exact H4|].
      simpl. rewrite !downloads_app, Hdl. simpl.
      assert (downloads new0 = []) as ->; [|by rewrite ?app_nil_r].
      clear -Hnew0. induction Hnew0 as [|e l He _ IH]; [done|]. by destruct e. }
  apply wp_run in Hwp. unfold w'. rewrite Hlife.
  destruct (outcome _ w1); [|done]. destruct Hwp as (evs & Hat' & Hdl).
  split. { by rewrite (events_since_at0 _ _ _ _ _ _ eq_refl Hat'). }
  destruct Hat' as [[Hj _] _]. eexists. split; [by apply status_in_memory|].
  split_and!; [done | | done]. simpl.
  destruct (after_loop_core env (length urls) urls 1 (set_state Running jq))
    as (_ & _ & _ & _ & _).
  by apply (after_loop_error_one env (length urls) urls 1 _ k).
Qed.

(** C2: a job is submitted and its thread runs, the disk taking every
    write and every call of the downloader returning.  If the archiver
    raises an exception with message [msg], then no call of the Drive
    client (folder creation, upload, grant) is among the events of the
    run, and a poll gives the record in state [error], with [msg] in
    [error] and no [result]. *)
Theorem archive_failure_is_fatal env jid now urls name w msg :
  urls ≠ [] →
  faults w = [] →
  (∀ i u, urls !! i = Some u → ∃ r, yt_dlp env (S i) u = Ok r) →
  make_archive env jid = Raise (Exception msg) →
  let w' := lifetime env jid now (mkRequest (UrlList urls) name) w in
  Forall (λ e, stage_of e ≠ Some Uploading) (events_since w w') ∧
  ∃ job,
    outcome (status jid) w' = Ok (BJob job, 200) ∧
    j_state job = Error ∧
    j_error job = Some msg ∧
    j_result job = None.
Proof.
  intros Hurls Hf Hall Harch w'.
  destruct urls as [|u0 urls0]; [done|]. set (urls := u0 :: urls0) in *.
  destruct (lifetime_ok_run env jid now u0 urls0 name w Hf) as (w1 & Hat & Hlife).
  fold urls in Hat, Hlife. set (jq := new_job jid now urls name) in *.
  set (Post := λ evs0 w2, ∃ evs, at0 (log w) [] jid
               (set_error msg (set_state Error (set_state Zipping
                  (after_loop env (length urls) 1 urls (set_state Running jq)))))
               (evs ++ evs0) w2 ∧ Forall (λ e, stage_of e ≠ Some Uploading) evs).
  assert (wp (download_and_process env jid)
            (λ _, Post [Rmtree jid]) (λ _ _, False) w1) as Hwp.
  { eapply prologue_at0; [done|]. intros new0 w2 H2 Hnew0.
    apply wp_try_finally.
    eapply wp_mono with (Q := λ _, Post []) (E := λ _ _, False); [| |done].
    - apply wp_try_except.
      eapply wp_mono;
        [eapply pipeline_archive_raises; [exact H2 | exact Hall | exact Harch]
        |done|].
      intros e w3 (-> & new & H3 & Hnew). unfold on_error.
      apply wp_bind. eapply wp_assign_at0; [done|]. intros w4 H4.
      apply wp_bind. eapply wp_assign_at0; [done|]. intros w5 H5.
      eapply wp_update_at0; [done|]. intros w6 H6.
      eexists. rewrite app_nil_r. split; [exact H6|].
      rewrite !Forall_app. split_and!;
        [by repeat constructor | | done | by repeat constructor].
      eapply Forall_impl; [exact Hnew0|]. by intros ? ->.
    - intros _ w3 (evs & H3 & Hevs). rewrite app_nil_r in H3.
      eapply cleanup_at0; [done|]. intros w4 H4. by eexists. }
  apply wp_run in Hwp. unfold w'. rewrite Hlife.
  destruct (outcome _ w1); [|done]. destruct Hwp as (evs & Hat' & Hevs).
  split.
  { rewrite (events_since_at0 _ _ _ _ _ _ eq_refl Hat').
    apply Forall_app. split; [done | by repeat constructor]. }
  destruct Hat' as [[Hj _] _]. eexists. split; [by apply status_in_memory|].
  split_and!; [done | done |]. simpl.
  destruct (after_loop_core env (length urls) urls 1 (set_state Running jq))
    as (_ & _ & _ & _ & Hresult).
  etrans; [exact Hresult | done].
Qed.

Lemma partial_failure_still_done_witness :
  ∃ job,
    outcome (status "j1") (lifetime env_second_fails "j1" 0 three_urls (boot []))
      = Ok (BJob job, 200) ∧
    j_state job = Done ∧
    j_error job = Some "yt-dlp failed for u2: -1 stdout:out stderr:err" ∧
    j_result job = Some (mkDriveResult (Some "folder1") (Some "file1")
                           (Some "view") (Some "content")).
Proof.
  destruct (partial_failure_still_done env_second_fails "j1" 0
              ["u1"; "u2"; "u3"] None (boot []) 1 "u2"
              (mkCompletedProcess (-1) "out" "err" ["u2.mp4"])
              (Some "folder1") (mkDriveFile (Some "file1") None None)
              (mkDriveFile (Some "file1") (Some "view") (Some "content")))
    as (_ & job & Hpoll & Hstate & Herror & Hresult);
    try reflexivity.
  - discriminate.
  - intros i u Hne Hu. destruct i as [|[|[|i]]]; simpl in Hu; try done;
      injection Hu as <-; by eexists.
  - discriminate.
  - by exists job.
Defined.

Lemma archive_failure_is_fatal_witness :
  ∃ job,
    outcome (status "j1") (lifetime env_archive_fails "j1" 0 three_urls (boot []))
      = Ok (BJob job, 200) ∧
    j_state job = Error ∧
    j_error job = Some "No space left on device" ∧
    j_result job = None.
Proof.
  destruct (archive_failure_is_fatal env_archive_fails "j1" 0
              ["u1"; "u2"; "u3"] None (boot []) "No space left on device")
    as (_ & job & Hjob); try reflexivity.
  - discriminate.
  - intros i u Hu. by eexists.
  - by exists job.
Defined.

(** ** Invariants of the executor *)

(** An invariant that the steps of the executor on [job_id] keep is kept
    by the executor. *)
Section stable.
Variables (I : World → Prop) (job_id : string).
Hypotheses
  (I_log : ∀ w lg, I w → I (set_log lg w))
  (I_folders : ∀ w fo, I w → I (set_folders fo w))
  (I_zips : ∀ w zi, I w → I (set_zips zi w))
  (I_assign : ∀ f, (∀ j, j_id (f j) = j_id j) → preserves I (assign job_id f))
  (I_update : preserves I (the_job job_id ≫= update_job)).

Lemma stable_emit e : preserves I (emit e).
Proof. apply preserves_modify. intros w. apply I_log. Qed.

Lemma stable_lift {A} (r : Res A) : preserves I (lift r).
Proof. by intros w. Qed.

Lemma stable_the_job : preserves I (the_job job_id).
Proof. intros w Hw. unfold exec, the_job. by destruct (jobs w !! job_id). Qed.

Lemma stable_readonly {A} (m : M World A) : readonly m → preserves I m.
Proof. intros Hm w Hw. by rewrite Hm. Qed.

Lemma stable_rmtree job_id' : preserves I (rmtree job_id').
Proof.
  apply preserves_bind; [apply stable_emit | intros _].
  apply preserves_modify. intros w. apply I_folders.
Qed.

Lemma stable_mkdir job_id' : preserves I (mkdir job_id').
Proof.
  apply preserves_bind; [apply stable_emit | intros _].
  apply preserves_modify. intros w Hw.
  destruct (folders w !! job_id'); [done | by apply I_folders].
Qed.

Lemma stable_run_yt_dlp env job_id' idx url :
  preserves I (run_yt_dlp env job_id' idx url).
Proof.
  apply preserves_bind; [apply stable_emit | intros _].
  apply preserves_bind; [apply stable_lift | intros res].
  apply preserves_bind; [|intros _; apply preserves_ret].
  apply preserves_modify. intros w. apply I_folders.
Qed.

Lemma stable_download_loop env total urls : ∀ idx,
  preserves I (download_loop env job_id total idx urls).
Proof.
  induction urls as [|url rest IH]; intros idx; [apply preserves_ret|]. simpl.
  apply preserves_bind; [by apply I_assign | intros _].
  apply preserves_bind; [apply I_update | intros _].
  apply preserves_bind; [apply stable_run_yt_dlp | intros res].
  apply preserves_bind; [|intros _; apply IH].
  apply preserves_when.
  apply preserves_bind; [by apply I_assign | intros _; apply I_update].
Qed.

Lemma stable_archive_stage env : preserves I (archive_stage env job_id).
Proof.
  apply preserves_bind; [by apply I_assign | intros _].
  apply preserves_bind; [apply I_update | intros _].
  apply preserves_bind; [apply preserves_gets | intros ex].
  apply preserves_bind; [|intros _].
  { apply preserves_when.
    apply preserves_bind; [apply stable_emit | intros _].
    apply preserves_modify. intros w. apply I_zips. }
  apply preserves_bind; [apply stable_emit | intros _].
  apply preserves_bind; [apply stable_lift | intros _].
  apply preserves_modify. intros w. apply I_zips.
Qed.

Lemma stable_upload_stage env : preserves I (upload_stage env job_id).
Proof.
  apply preserves_bind; [by apply I_assign | intros _].
  apply preserves_bind; [apply I_update | intros _].
  apply preserves_bind; [apply stable_the_job | intros job].
  apply preserves_bind; [|intros parent_folder_id].
  { apply preserves_bind; [apply stable_emit | intros _].
    apply stable_readonly, readonly_create_folder_rest. }
  apply preserves_bind; [|intros up].
  { apply preserves_bind; [apply stable_emit | intros _].
    apply stable_readonly, readonly_upload_file_rest. }
  apply preserves_bind; [|intros share].
  { apply preserves_bind; [apply stable_emit | intros _].
    apply stable_readonly, readonly_make_shareable_rest. }
  apply preserves_bind; [by apply I_assign | intros _].
  apply preserves_bind; [by apply I_assign | intros _; apply I_update].
Qed.

Lemma stable_pipeline env : preserves I (pipeline env job_id).
Proof.
  apply preserves_bind; [apply stable_the_job | intros job].
  apply preserves_bind; [apply stable_download_loop | intros _].
  apply preserves_bind; [apply stable_archive_stage | intros _].
  apply stable_upload_stage.
Qed.

Lemma stable_on_error e : preserves I (on_error job_id e).
Proof.
  apply preserves_bind; [by apply I_assign | intros _].
  apply preserves_bind; [by apply I_assign | intros _; apply I_update].
Qed.

Lemma stable_cleanup : preserves I (cleanup job_id).
Proof.
  apply preserves_try_except; [apply stable_rmtree | intros _; apply preserves_ret].
Qed.

Lemma stable_download_and_process env :
  preserves I (download_and_process env job_id).
Proof.
  apply preserves_bind; [apply preserves_gets | intros js].
  destruct (js !! job_id); [|apply preserves_ret].
  apply preserves_bind; [by apply I_assign | intros _].
  apply preserves_bind; [apply I_update | intros _].
  apply preserves_bind; [apply preserves_gets | intros ex].
  apply preserves_bind; [apply preserves_when, stable_rmtree | intros _].
  apply preserves_bind; [apply stable_mkdir | intros _].
  apply preserves_try_finally; [|apply stable_cleanup].
  apply preserves_try_except; [apply stable_pipeline | apply stable_on_error].
Qed.
End stable.

(** ** Unknown identifiers *)

Section known.
Variable K : string → Prop.

Lemma known_frame (g : World → World) :
  (∀ w, jobs (g w) = jobs w ∧ JOBS_DIR (g w) = JOBS_DIR w) →
  preserves (known K) (modify g).
Proof.
  intros Hg. apply preserves_modify. intros w [Hj Hd].
  destruct (Hg w) as [Hjobs Hdir]. unfold known. by rewrite Hjobs, Hdir.
Qed.

Lemma known_emit e : preserves (known K) (emit e).
Proof. by apply known_frame. Qed.

Lemma known_lift {A} (r : Res A) : preserves (known K) (lift r).
Proof. by intros w. Qed.

Lemma known_save_job job :
  K (j_id job) → preserves (known K) (_save_job job).
Proof.
  intros HK w [Hj Hd]. unfold exec, _save_job.
  destruct (write_json_outcome (next_fault (faults w)) (json_name (j_id job))
              job (JOBS_DIR w)) as [Hother Hpath].
  destruct (write_json _ _ _ _) as [r dir']. simpl in *.
  split; [done|]. simpl. intros f c Hf.
  destruct (decide (f = json_name (j_id job))) as [->|Hne].
  - exists (j_id job). split; [done|]. split; [done|]. intros j ->.
    destruct (next_fault (faults w)) as [[msg|n msg]|].
    + destruct Hpath as [_ Hp]. rewrite Hp in Hf.
      destruct (Hd _ _ Hf) as (k & Hk%json_name_inj & _ & Hc). subst k.
      by apply Hc.
    + destruct Hpath as (_ & c & Hc & [-> | ->] & _); congruence.
    + destruct Hpath as [_ Hp]. congruence.
  - rewrite Hother in Hf by done. by apply Hd.
Qed.

Lemma known_assign job_id f :
  (∀ j, j_id (f j) = j_id j) → preserves (known K) (assign job_id f).
Proof.
  intros Hf. apply preserves_modify. intros w [Hj Hd]. split; [|done]. simpl.
  intros k j. destruct (decide (job_id = k)) as [->|Hne].
  - rewrite lookup_alter_eq. destruct (jobs w !! k) as [j'|] eqn:Hk; [|done].
    simpl. intros [= <-]. rewrite Hf. by apply Hj.
  - rewrite lookup_alter_ne by done. apply Hj.
Qed.

Lemma known_update_job j :
  K (j_id j) → preserves (known K) (update_job j).
Proof.
  intros HK. unfold update_job.
  apply preserves_bind; [|intros _].
  { apply preserves_modify. intros w [Hj Hd]. split; [|done]. simpl.
    intros k j'. destruct (decide (j_id j = k)) as [<-|Hne].
    - rewrite lookup_insert_eq. by intros [= <-].
    - rewrite lookup_insert_ne by done. apply Hj. }
  apply preserves_bind; [apply known_emit | intros _].
  by apply known_save_job.
Qed.

Lemma known_update job_id :
  preserves (known K) (the_job job_id ≫= update_job).
Proof.
  intros w Hw. unfold exec, the_job. unfold_m.
  destruct (jobs w !! job_id) as [j|] eqn:Hjob; [|done].
  apply (known_update_job j); [|done].
  destruct Hw as [Hj _]. destruct (Hj _ _ Hjob) as [HK <-]. done.
Qed.

Lemma known_download_and_process env job_id :
  preserves (known K) (download_and_process env job_id).
Proof.
  apply stable_download_and_process;
    [by intros w lg H | by intros w fo H | by intros w zi H
    |intros f Hf; by apply known_assign | apply known_update].
Qed.

Lemma known_enqueue jid now data :
  (∀ k, created (OpEnqueue jid now data) = Some k → K k) →
  preserves (known K) (enqueue jid now data).
Proof.
  intros HK. unfold enqueue. destruct data as [[| |[|url urls]] name]; simpl;
    try apply preserves_ret.
  assert (K jid) as Hjid by (by apply HK).
  apply preserves_bind; [|intros job].
  - unfold create_job.
    apply preserves_bind; [|intros _].
    { apply preserves_modify. intros w [Hj Hd]. split; [|done]. simpl.
      intros k j'. destruct (decide (jid = k)) as [<-|Hne].
      - rewrite lookup_insert_eq. by intros [= <-].
      - rewrite lookup_insert_ne by done. apply Hj. }
    apply preserves_bind; [apply known_emit | intros _].
    apply preserves_bind; [by apply known_save_job | intros _; apply preserves_ret].
  - apply preserves_bind; [by apply known_frame | intros _; apply preserves_ret].
Qed.

Lemma known_status job_id : preserves (known K) (status job_id).
Proof.
  apply preserves_bind; [apply preserves_gets | intros js].
  destruct (js !! job_id); [apply preserves_ret|].
  intros w Hw. unfold exec. unfold_m.
  destruct (JOBS_DIR w !! json_name job_id) as [c|] eqn:Hc; [|done].
  destruct c as [|j n|j]; simpl; [done | done |].
  destruct Hw as [Hj Hd]. split; [|done]. simpl.
  destruct (Hd _ _ Hc) as (k & Hk%json_name_inj & HK & Hid). subst k.
  intros k j'. destruct (decide (job_id = k)) as [<-|Hne].
  - rewrite lookup_insert_eq. intros [= <-]. split; [done | by apply Hid].
  - rewrite lookup_insert_ne by done. apply Hj.
Qed.

Lemma known_load (l : list (string * file Job)) :
  (∀ f c, (f, c) ∈ l →
          ∃ k, f = json_name k ∧ K k ∧ ∀ j, c = Complete j → j_id j = k) →
  ∀ k j, foldr load_file ∅ l !! k = Some j → K k ∧ j_id j = k.
Proof.
  induction l as [|[f c] l IH]; intros Hl k j; simpl.
  { by rewrite lookup_empty. }
  assert (∀ k j, foldr load_file ∅ l !! k = Some j → K k ∧ j_id j = k) as IH'.
  { apply IH. intros f' c' Hin. apply Hl. by right. }
  unfold load_file at 1. simpl.
  destruct (endswith f ".json"); [|apply IH'].
  destruct c as [|j' n|j']; simpl; [apply IH' | apply IH' |].
  destruct (Hl f (Complete j')) as (k' & _ & HK & Hid); [by left|].
  specialize (Hid j' eq_refl). subst k'.
  destruct (decide (j_id j' = k)) as [<-|Hne].
  - rewrite lookup_insert_eq. by intros [= <-].
  - rewrite lookup_insert_ne by done. apply IH'.
Qed.

Lemma known_step w o :
  (∀ k, created o = Some k → K k) → known K w → known K (step w o).
Proof.
  intros HK Hw. destruct o as [jid now data|job_id| | |env i|]; simpl.
  - by apply known_enqueue.
  - by apply known_status.
  - done.
  - done.
  - destruct (threads w !! i) as [job_id|]; [|done].
    by apply known_download_and_process.
  - destruct Hw as [Hj Hd]. unfold exec, _load_existing_jobs. simpl.
    split; [|done]. simpl. apply known_load.
    intros f c Hin%elem_of_map_to_list. by apply Hd.
Qed.

Lemma known_run ops : ∀ w,
  (∀ o k, o ∈ ops → created o = Some k → K k) →
  known K w → known K (run ops w).
Proof.
  induction ops as [|o ops IH]; intros w HK Hw; [done|]. simpl.
  apply IH.
  - intros o' k Hin. apply HK. by right.
  - apply known_step; [|done]. intros k. apply HK. by left.
Qed.

Lemma known_boot flts : known K (boot flts).
Proof.
  unfold boot, exec, _load_existing_jobs. simpl. rewrite map_to_list_empty.
  split; simpl; intros ?? H; by rewrite lookup_empty in H.
Qed.

End known.



(** X1: the executor of the server removes the batch folder on every way out
    of the [try]: whatever the collaborators do, once the record is
    stored with state [running] the run ends with the folder gone. *)
Lemma download_and_process_removes_folder env job_id w :
  is_Some (jobs w !! job_id) →
  next_fault (faults w) = None →
  folders (exec (download_and_process env job_id) w) !! job_id = None.
Proof.
  intros [j Hj] Hflt.
  apply (wp_exec _ (λ w', folders w' !! job_id = None)).
  assert (∀ w', wp (cleanup job_id)
            (λ _ w'', folders w'' !! job_id = None)
            (λ _ w'', folders w'' !! job_id = None) w') as Hcleanup.
  { intros w'. apply wp_try_except, wp_bind, wp_modify, wp_modify. simpl.
    apply lookup_delete_eq. }
  assert (∀ w', wp (mkdir job_id;;
                    try_finally
                      (try_except (pipeline env job_id) (on_error job_id))
                      (cleanup job_id))
            (λ _ w'', folders w'' !! job_id = None)
            (λ _ w'', folders w'' !! job_id = None) w') as Hrest.
  { intros w'. apply wp_bind, wp_bind, wp_modify, wp_modify, wp_try_finally.
    eapply wp_mono; [apply wp_any | intros; apply Hcleanup..]. }
  destruct w as [js dir fo zi th flts lg]. simpl in *.
  unfold download_and_process. apply wp_bind, wp_gets. simpl. rewrite Hj.
  apply wp_bind, wp_modify. simpl. apply wp_bind, wp_bind.
  unfold wp at 1, the_job. simpl. rewrite lookup_alter_eq, Hj. simpl.
  unfold update_job. apply wp_bind, wp_modify, wp_bind, wp_modify.
  unfold wp at 1, _save_job. simpl. rewrite Hflt. simpl.
  apply wp_bind, wp_gets, wp_bind, wp_when. destruct (bool_decide _).
  - apply wp_bind, wp_modify, wp_modify, Hrest.
  - apply Hrest.
Qed.

(** ** Every job of the system *)

(** The executor on [job_id] leaves the other records of [jobs] and the
    list of threads alone. *)
Lemma download_and_process_frame env job_id w j :
  jobs w !! job_id = Some j → j_id j = job_id →
  let w' := exec (download_and_process env job_id) w in
  threads w' = threads w ∧ ∀ k, k ≠ job_id → jobs w' !! k = jobs w !! k.
Proof.
  intros Hj Hid w'.
  set (I := λ w1 : World,
    (threads w1 = threads w ∧ ∀ k, k ≠ job_id → jobs w1 !! k = jobs w !! k) ∧
    ∀ j1, jobs w1 !! job_id = Some j1 → j_id j1 = job_id).
  assert (I w') as [Hw' _]; [|done].
  apply (stable_download_and_process I job_id);
    [by intros w1 lg H | by intros w1 fo H | by intros w1 zi H | | |].
  - intros f Hf. apply preserves_modify. intros w1 [[Hth Hjobs] Hwf].
    split; [split; [done|]|]; simpl.
    + intros k Hk. rewrite lookup_alter_ne by done. by apply Hjobs.
    + intros j1. rewrite lookup_alter_eq.
      destruct (jobs w1 !! job_id) as [j2|] eqn:Hj2; [|done].
      simpl. intros [= <-]. rewrite Hf. by apply Hwf.
  - intros w1 Hw1. pose proof Hw1 as [[Hth Hjobs] Hwf].
    unfold exec, the_job. unfold_m.
    destruct (jobs w1 !! job_id) as [j1|] eqn:Hj1; [|exact Hw1].
    pose proof (Hwf _ eq_refl) as Hid1.
    unfold update_job, emit, _save_job. unfold_m. simpl.
    destruct (write_json _ _ _ _) as [r dir']. destruct r; simpl;
      (split; [split; [done|]|]; simpl;
       [intros k Hk; rewrite Hid1, lookup_insert_ne by done; by apply Hjobs
       |intros j2; rewrite Hid1, lookup_insert_eq; by intros [= <-]]).
  - split; [done|]. intros j1. rewrite Hj. by intros [= <-].
Qed.

Lemma puts_app lg1 lg2 : puts (lg1 ++ lg2) = puts lg1 ++ puts lg2.
Proof. apply omap_app. Qed.

Lemma puts_of_app k lg1 lg2 :
  puts_of k (lg1 ++ lg2) = puts_of k lg1 ++ puts_of k lg2.
Proof. unfold puts_of. by rewrite puts_app, filter_app. Qed.

Lemma puts_of_same k lg :
  Forall (λ j, j_id j = k) (puts lg) → puts_of k lg = puts lg.
Proof.
  unfold puts_of. generalize (puts lg). intros l.
  induction 1 as [|j l Hj _ IH]; [done|].
  rewrite filter_cons_True by done. by f_equal.
Qed.

Lemma puts_of_other k k' lg :
  k' ≠ k → Forall (λ j, j_id j = k) (puts lg) → puts_of k' lg = [].
Proof.
  intros Hne. unfold puts_of. generalize (puts lg). intros l.
  induction 1 as [|j l Hj _ IH]; [done|].
  rewrite filter_cons_False by congruence. done.
Qed.

Lemma known_mono (K K' : string → Prop) w :
  (∀ k, K k → K' k) → known K w → known K' w.
Proof.
  intros HK [Hj Hd]. split.
  - intros k j Hk. destruct (Hj k j Hk). auto.
  - intros f c Hf. destruct (Hd f c Hf) as (k & ? & ? & ?). eauto.
Qed.

Lemma thread_run env k w jq :
  jobs w !! k = Some jq → j_id jq = k → j_state jq = Queued →
  current (j_progress jq) = 0 →
  ∃ real,
    log (exec (download_and_process env k) w) = log w ++ real ∧
    Forall (λ j, j_id j = k) (puts real) ∧
    good (jq :: puts real).
Proof.
  intros Hjq Hid Hst Hcur.
  assert (at_ (log w) [Put jq] k jq [Put jq] w) as Hat.
  { split; [done|]. exists []. by rewrite !app_nil_r. }
  assert (run_inv jq jq [Put jq]) as Hinv by (apply run_inv_first; put_ok).
  pose proof (download_and_process_inv (log w) [Put jq] k jq env jq [Put jq] w
    Hat Hinv) as Hwp.
  apply wp_exec in Hwp; [|rewrite ?Hst, ?Hcur; simpl; lia..].
  destruct Hwp as (j & evs & (_ & real & -> & Hlog) & Hj').
  exists real. split; [done|].
  destruct Hj' as (_ & Hsorted & Hbnd & _ & _ & Hids & _). simpl in *.
  split.
  - apply Forall_cons in Hids as [_ Hids]. by rewrite <-Hid.
  - split_and!; [by intros j' [= <-] | done | done].
Qed.

Lemma enqueue_world jid now url urls name w :
  let w1 := exec (enqueue jid now (mkRequest (UrlList (url :: urls)) name)) w in
  jobs w1 = <[jid := new_job jid now (url :: urls) name]> (jobs w) ∧
  log w1 = log w ++ [Put (new_job jid now (url :: urls) name)] ∧
  (threads w1 = threads w ∨ threads w1 = threads w ++ [jid]).
Proof.
  destruct w as [js dir fo zi th flts lg]. simpl.
  unfold exec, enqueue, create_job, emit, _save_job. unfold_m. simpl.
  destruct (write_json _ _ _ _) as [[[]|e] dir']; simpl; auto.
Qed.

Lemma status_world job_id w :
  let w1 := exec (status job_id) w in
  log w1 = log w ∧ threads w1 = threads w ∧
  ∀ k, is_Some (jobs w !! k) → jobs w1 !! k = jobs w !! k.
Proof.
  unfold exec, status. unfold_m.
  destruct (jobs w !! job_id) as [j|] eqn:Hjob; [done|].
  destruct (JOBS_DIR w !! json_name job_id) as [[|j n|j]|]; simpl; try done.
  split_and!; [done..|]. intros k [j' Hk].
  rewrite lookup_insert_ne; [done|]. intros ->. congruence.
Qed.

Lemma pending_frame w w' k :
  jobs w' !! k = jobs w !! k → puts_of k (log w') = puts_of k (log w) →
  pending w k → pending w' k.
Proof. intros Hj Hp (jq & ? & ? & ?). exists jq. by rewrite Hj, Hp. Qed.

Lemma good_nil : good [].
Proof. split_and!; [done | constructor | constructor]. Qed.

Lemma sys_threads_created C w k : sys C w → k ∈ threads w → k ∈ C.
Proof.
  intros (_ & Hputs & _ & _ & Hpend) Hk.
  destruct (Hpend k Hk) as (jq & _ & Hp & Hid & _).
  rewrite <-Hid. apply Hputs.
  assert (jq ∈ puts_of k (log w)) as Hin by (rewrite Hp; left).
  by apply list_elem_of_filter in Hin as [_ ?].
Qed.

Lemma sys_fresh C w k : sys C w → k ∉ C → puts_of k (log w) = [].
Proof.
  intros (_ & Hputs & _) Hk. unfold puts_of.
  induction (puts (log w)) as [|j l IH]; [done|].
  rewrite filter_cons_False.
  - apply IH. intros j' Hj'. apply Hputs. by right.
  - intros <-. apply Hk, Hputs. left.
Qed.

Lemma sys_step C w o :
  sys C w → (∀ k, created o = Some k → k ∉ C) →
  sys (C ++ omap created [o]) (step w o).
Proof.
  intros Hsys Hnew. pose proof Hsys as (Hknown & Hputs & Hgood & Hnd & Hpend).
  assert (known (λ k, k ∈ C ++ omap created [o]) (step w o)) as Hknown'.
  { apply known_step.
    - intros k Hk. apply elem_of_app. right. simpl. rewrite Hk. left.
    - eapply known_mono; [|done]. intros k Hk. apply elem_of_app. by left. }
  split; [done|]. clear Hknown'.
  destruct o as [jid now data|job_id| | |env i|]; simpl in *.
  - (* a submission *)
    destruct data as [[| |[|url urls]] name]; simpl;
      try (rewrite app_nil_r; unfold exec, enqueue; simpl; done).
    set (jq := new_job jid now (url :: urls) name).
    destruct (enqueue_world jid now url urls name w) as (Hjobs & Hlog & Hth).
    fold jq in Hjobs, Hlog. set (w1 := exec _ w) in *.
    assert (jid ∉ C) as Hjid by (by apply Hnew).
    assert (puts_of jid (log w) = []) as Hfresh by (by eapply sys_fresh).
    assert (∀ k, k ≠ jid → puts_of k (log w1) = puts_of k (log w)) as Hother.
    { intros k Hk. rewrite Hlog, puts_of_app. unfold puts_of at 2. simpl.
      rewrite filter_cons_False by (simpl; congruence).
      by rewrite filter_nil, app_nil_r. }
    assert (puts_of jid (log w1) = [jq]) as Hjq.
    { rewrite Hlog, puts_of_app, Hfresh. unfold puts_of. simpl.
      by rewrite filter_cons_True. }
    assert (∀ k, k ∈ threads w → pending w1 k) as Hold.
    { intros k Hk. assert (k ≠ jid).
      { intros ->. by apply Hjid, (sys_threads_created C w). }
      apply (pending_frame w); [|by apply Hother|by apply Hpend].
      by rewrite Hjobs, lookup_insert_ne. }
    split_and!.
    + intros j. rewrite Hlog, puts_app. simpl.
      intros [Hj | ->%list_elem_of_singleton]%elem_of_app;
        apply elem_of_app; [left; by apply Hputs | right; left].
    + intros k. destruct (decide (k = jid)) as [->|Hne].
      * rewrite Hjq. split_and!; [by intros j [= <-] | by repeat constructor |].
        repeat constructor. unfold bounded. simpl. lia.
      * by rewrite Hother.
    + destruct Hth as [-> | ->]; [done|].
      apply NoDup_app. split_and!; [done | | apply NoDup_singleton].
      intros k Hk ->%list_elem_of_singleton.
      by apply Hjid, (sys_threads_created C w).
    + assert (pending w1 jid) as Hp.
      { exists jq. split_and!; try done. by rewrite Hjobs, lookup_insert_eq. }
      destruct Hth as [-> | ->]; [done|].
      intros k [Hk | ->%list_elem_of_singleton]%elem_of_app; auto.
  - (* a poll *)
    rewrite app_nil_r.
    destruct (status_world job_id w) as (Hlog & Hth & Hjobs).
    rewrite Hlog, Hth. split_and!; try done.
    intros k Hk. apply (pending_frame w); [|by rewrite Hlog|by apply Hpend].
    apply Hjobs. destruct (Hpend k Hk) as (jq & -> & _). by eexists.
  - by rewrite app_nil_r.
  - by rewrite app_nil_r.
  - (* a thread *)
    rewrite app_nil_r.
    destruct (threads w !! i) as [k|] eqn:Hi; [|done].
    assert (k ∈ threads w) as Hk by (by eapply list_elem_of_lookup_2).
    destruct (Hpend k Hk) as (jq & Hjq & Hp & Hid & Hst & Hcur).
    set (w0 := set_threads (delete i (threads w)) w).
    destruct (thread_run env k w0 jq Hjq Hid Hst Hcur)
      as (real & Hlog & Hids & Hgood').
    destruct (download_and_process_frame env k w0 jq Hjq Hid) as [Hth Hjobs].
    set (w' := exec _ w0) in *. simpl in Hlog, Hth, Hjobs.
    assert (puts_of k (log w') = jq :: puts real) as Hmine.
    { by rewrite Hlog, puts_of_app, Hp, (puts_of_same k real). }
    assert (∀ k', k' ≠ k → puts_of k' (log w') = puts_of k' (log w)) as Hother.
    { intros k' Hk'. rewrite Hlog, puts_of_app, (puts_of_other k k' real) by done.
      by rewrite app_nil_r. }
    split_and!.
    + intros j. rewrite Hlog, puts_app.
      intros [Hj | Hj]%elem_of_app; [by apply Hputs|].
      rewrite (proj1 (Forall_forall _ _) Hids j Hj).
      by apply (sys_threads_created C w).
    + intros k'. destruct (decide (k' = k)) as [->|Hne].
      * by rewrite Hmine.
      * by rewrite Hother.
    + rewrite Hth. simpl. eapply sublist_NoDup; [done | apply sublist_delete].
    + rewrite Hth. simpl. intros k' Hk'.
      assert (k' ∈ threads w) as Hk'w by (by eapply list_elem_of_delete_inv).
      assert (k' ≠ k) as Hne.
      { intros ->. rewrite (delete_Permutation _ _ _ Hi) in Hnd.
        by apply NoDup_cons in Hnd as [? _]. }
      apply (pending_frame w); [by apply Hjobs | by apply Hother | by apply Hpend].
  - (* a restart *)
    rewrite app_nil_r. unfold exec, _load_existing_jobs. simpl.
    split_and!; [done | done | constructor | by intros k ?%elem_of_nil].
Qed.

Lemma sys_run ops : ∀ C w,
  sys C w → NoDup (C ++ omap created ops) →
  sys (C ++ omap created ops) (run ops w).
Proof.
  induction ops as [|o ops IH]; intros C w Hsys Hnd.
  { by rewrite app_nil_r. }
  change (omap created (o :: ops)) with (omap created ([o] ++ ops)) in *.
  rewrite omap_app, app_assoc in *. simpl. apply IH; [|done].
  apply sys_step; [done|]. intros k Hk Hin.
  rewrite <-app_assoc in Hnd. apply NoDup_app in Hnd as (_ & Hnd & _).
  apply (Hnd k Hin). apply elem_of_app. left. simpl. rewrite Hk. left.
Qed.

Lemma sys_boot flts : sys [] (boot flts).
Proof.
  split; [apply known_boot|]. unfold boot, exec, _load_existing_jobs. simpl.
  split_and!.
  - by intros j ?%elem_of_nil.
  - intros k. apply good_nil.
  - constructor.
  - by intros k ?%elem_of_nil.
Qed.

(** C5: from a first start on empty directories, after any sequence of
    requests, thread runs and restarts in which no two submissions draw
    the same identifier, and under any behaviour of the collaborators and
    of the disk: among the records stored for a job, the first one, stored
    at creation, has [progress.current] 0; along the sequence of the
    stores [progress.current] never decreases; and in every record stored
    [progress.current] is at most [progress.total]. *)
Theorem progress_monotone_every_job flts ops k :
  NoDup (omap created ops) →
  let ps := j_progress <$> puts_of k (log (run ops (boot flts))) in
  (∀ p, head ps = Some p → current p = 0) ∧
  (∀ i i' p q, i ≤ i' → ps !! i = Some p → ps !! i' = Some q →
               current p ≤ current q) ∧
  (∀ p, p ∈ ps → current p ≤ total p).
Proof.
  intros Hnd ps.
  destruct (sys_run ops [] (boot flts) (sys_boot flts) Hnd)
    as (_ & _ & Hgood & _).
  destruct (Hgood k) as (Hhead & Hsorted & Hbnd). unfold ps. split_and!.
  - intros p. destruct (puts_of k _) as [|j l]; [done|]. simpl.
    intros [= <-]. by apply Hhead.
  - intros i i' p q Hi Hp Hq. rewrite list_lookup_fmap in Hp, Hq.
    destruct (puts_of k _ !! i) as [a|] eqn:Ha; [|done].
    destruct (puts_of k _ !! i') as [b|] eqn:Hb; [|done].
    simpl in *. injection Hp as <-. injection Hq as <-.
    by apply (Sorted_lookup_le le_current _ i i' a b Hsorted).
  - intros p (a & -> & Ha)%list_elem_of_fmap.
    by apply (proj1 (Forall_forall _ _) Hbnd).
Qed.

Lemma progress_monotone_every_job_witness :
  current <$> (j_progress <$> puts_of "j1" (log (run two_jobs (boot []))))
    = [0; 0; 1; 2; 2; 3; 3; 3; 3] ∧
  Forall (λ p, current p ≤ total p)
    (j_progress <$> puts_of "j1" (log (run two_jobs (boot [])))).
Proof.
  split; [by vm_compute|].
  destruct (progress_monotone_every_job [] two_jobs "j1") as (_ & _ & Hbnd).
  - simpl. apply NoDup_cons. split; [|apply NoDup_singleton].
    by intros ?%list_elem_of_singleton.
  - by apply Forall_forall.
Defined.

(** ** Restart: what is read back from [JOBS_DIR] *)

Lemma load_lookup (l : list (string * file Job)) :
  NoDup l.*1 →
  (∀ f c, (f, c) ∈ l →
          ∃ k, f = json_name k ∧ ∀ j, c = Complete j → j_id j = k) →
  ∀ k j, foldr load_file ∅ l !! k = Some j ↔ (json_name k, Complete j) ∈ l.
Proof.
  induction l as [|[f c] l IH]; intros Hnd Hl k j; simpl.
  { rewrite lookup_empty. split; [done | by intros ?%elem_of_nil]. }
  apply NoDup_cons in Hnd as [Hf Hnd].
  assert (∀ k j, foldr load_file ∅ l !! k = Some j ↔ (json_name k, Complete j) ∈ l)
    as IH'.
  { apply IH; [done|]. intros f' c' Hin. apply Hl. by right. }
  destruct (Hl f c) as (k0 & -> & Hid); [by left|].
  unfold load_file at 1. simpl. rewrite endswith_json_name.
  assert (∀ c', (json_name k0, c') ∉ l) as Hnot.
  { intros c' Hin. apply Hf. apply list_elem_of_fmap. by exists (json_name k0, c'). }
  destruct c as [|j0 n|j0]; simpl.
  - rewrite IH', elem_of_cons. split; [by right|]. by intros [?|?].
  - rewrite IH', elem_of_cons. split; [by right|]. by intros [?|?].
  - specialize (Hid j0 eq_refl). subst k0.
    destruct (decide (j_id j0 = k)) as [<-|Hne].
    + rewrite lookup_insert_eq, elem_of_cons. split.
      * intros [= <-]. by left.
      * intros [[= <-]|Hin]; [done | by destruct (Hnot (Complete j))].
    + rewrite lookup_insert_ne, IH', elem_of_cons by done. split; [by right|].
      intros [[= Heq%json_name_inj _]|?]; [congruence | done].
Qed.

Lemma restart_jobs K w k j :
  known K w →
  jobs (step w OpRestart) !! k = Some j
  ↔ JOBS_DIR w !! json_name k = Some (Complete j).
Proof.
  intros [_ Hd]. unfold step, exec, _load_existing_jobs. simpl.
  rewrite load_lookup, elem_of_map_to_list; [done | apply NoDup_fst_map_to_list |].
  intros f c Hin%elem_of_map_to_list.
  destruct (Hd f c Hin) as (k' & -> & _ & Hid). eauto.
Qed.

Lemma known_reachable flts ops : known (λ _, True) (run ops (boot flts)).
Proof. apply known_run; [done | apply known_boot]. Qed.

(** X2: a restart reads back the files that decode, and only those: in every
    state the server can reach, under any faults of the disk, the table
    [jobs] holds after a restart the record [j] under [k] exactly when the
    file [<k>.json] holds the complete document of [j]; a file that a
    failed write left empty or cut short is skipped without a trace. *)
Theorem restart_loads_decodable_files flts ops k j :
  let w := run ops (boot flts) in
  jobs (step w OpRestart) !! k = Some j
  ↔ JOBS_DIR w !! json_name k = Some (Complete j).
Proof. intros w. eapply restart_jobs, known_reachable. Qed.

(** X3: [GET /jobs] and [GET /status/<id>] agree: in every state the server
    can reach, the listing names no identifier twice, and a record is
    listed exactly when a poll of its identifier is answered with that
    record from memory, leaving the server as it was. *)
Theorem listed_jobs_can_be_polled flts ops :
  let w := run ops (boot flts) in
  ∃ js, list_jobs w = (Ok (BJobs js, 200), w) ∧
        NoDup (j_id <$> js) ∧
        ∀ j, j ∈ js ↔ status (j_id j) w = (Ok (BJob j, 200), w).
Proof.
  intros w. pose proof (known_reachable flts ops) as [Hj _]. fold w in Hj.
  eexists. split; [reflexivity|]. split.
  - assert ((j_id <$> (snd <$> map_to_list (jobs w))) = (map_to_list (jobs w)).*1)
      as ->; [|apply NoDup_fst_map_to_list].
    rewrite <-list_fmap_compose. apply list_fmap_ext.
    intros i [k j] Hin%list_elem_of_lookup_2%elem_of_map_to_list. simpl.
    by destruct (Hj k j Hin).
  - intros j. rewrite list_elem_of_fmap. split.
    + intros ([k j'] & -> & Hin%elem_of_map_to_list). simpl.
      destruct (Hj k j' Hin) as [_ ->]. unfold status. unfold_m. by rewrite Hin.
    + intros Hst. exists (j_id j, j). split; [done|]. apply elem_of_map_to_list.
      unfold status in Hst. unfold_m.
      destruct (jobs w !! j_id j) as [j'|] eqn:Hjob; [congruence|].
      destruct (JOBS_DIR w !! json_name (j_id j)) as [[|j' n|j']|]; simpl in Hst;
        try discriminate.
      injection Hst as _ Hw. apply (f_equal jobs) in Hw. simpl in Hw.
      rewrite <-Hw, lookup_insert_eq in Hjob. discriminate.
Qed.

(** ** Memory and disk without faults *)

(** Between an assignment to a field and the next [update_job] the
    object of [job_id] is ahead of its file ([E]); every [update_job]
    brings them together again ([SE]), and every exception of the run is
    raised in such a state. *)
Section sync.
Variable job_id : string.

Let has_job (w : World) : Prop := ∃ j, jobs w !! job_id = Some j ∧ j_id j = job_id.
Let E (w : World) : Prop :=
  faults w = [] ∧
  (∀ k j, k ≠ job_id →
     jobs w !! k = Some j ↔ JOBS_DIR w !! json_name k = Some (Complete j)) ∧
  has_job w.














End sync.




(** ** How a run ends *)

Lemma live_emit j evs e :
  match e with Put _ => False | _ => True end →
  live j evs → live j (evs ++ [e]).
Proof.
  intros He (? & ? & ?). split_and!; [done..|].
  rewrite puts_snoc. destruct e; by rewrite ?app_nil_r.
Qed.

Lemma live_put j evs : live j evs → live j (evs ++ [Put j]).
Proof.
  intros (? & ? & ?). split_and!; [done..|].
  rewrite puts_snoc. apply Forall_app. split; [done | by constructor].
Qed.

Lemma live_field (f : Job → Job) j evs :
  j_result (f j) = j_result j → j_state (f j) = j_state j →
  live j evs → live (f j) evs.
Proof. intros Hr Hs (? & ? & ?). split_and!; congruence. Qed.

Lemma live_state s j evs :
  terminal s = false → live j evs → live (set_state s j) evs.
Proof. intros Hs (? & ? & ?). by split_and!. Qed.

Lemma ended_emit j evs e :
  match e with Put _ => False | _ => True end →
  ended j evs → ended j (evs ++ [e]).
Proof.
  intros He (init & Hp & ? & ?). exists init. split_and!; [|done..].
  rewrite puts_snoc, Hp. destruct e; by rewrite ?app_nil_r.
Qed.

(** The walk through the executor of a job that is [live]: each store
    keeps it so until the last one, which leaves it [ended]; an
    exception that leaves the pipeline was raised by a collaborator
    while the job was live. *)
Section outcome_walk.
Variables (lg0 pre : list Event) (job_id : string) (env : Env).

Let exc_ok (e : exn) : Prop :=
  raises_exceptions_only env → ∃ msg, e = Exception msg.
Let Live (w : World) : Prop := ∃ j evs, at0 lg0 pre job_id j evs w ∧ live j evs.
Let Ended (w : World) : Prop := ∃ j evs, at0 lg0 pre job_id j evs w ∧ ended j evs.
Let LiveE (e : exn) (w : World) : Prop := Live w ∧ exc_ok e.

Lemma exc_ok_raise {A} (r : Res A) e :
  (raises_exceptions_only env → no_exit r) → r = Raise e → exc_ok e.
Proof.
  intros Hr -> Henv. destruct e as [msg|msg]; [by eexists|].
  by destruct (Hr Henv msg).
Qed.

Lemma walk_store j evs w (Q : unit → World → Prop) E :
  at0 lg0 pre job_id j evs w → live j evs →
  (∀ w', at0 lg0 pre job_id j (evs ++ [Put j]) w' →
         live j (evs ++ [Put j]) → Q tt w') →
  wp (the_job job_id ≫= update_job) Q E w.
Proof.
  intros Hat Hl HQ. eapply wp_update_at0; [done|]. intros w' Hw'.
  apply HQ; [done | by apply live_put].
Qed.

Lemma walk_download_loop total urls : ∀ idx j evs w,
  at0 lg0 pre job_id j evs w → live j evs →
  wp (download_loop env job_id total idx urls) (λ _, Live) LiveE w.
Proof.
  induction urls as [|url rest IH]; intros idx j evs w Hat Hl.
  { apply wp_ret. by exists j, evs. }
  simpl.
  apply wp_bind. eapply wp_assign_at0; [done|]. intros w1 H1.
  apply wp_bind. eapply walk_store; [done | by apply live_field |].
  intros w2 H2 L2. set (j1 := set_progress _ j) in *.
  apply wp_bind. unfold run_yt_dlp.
  apply wp_bind. eapply wp_emit_at0; [done|]. intros w3 H3.
  assert (live j1 ((evs ++ [Put j1]) ++ [YtDlp url])) as L3 by (by apply live_emit).
  apply wp_bind, wp_lift.
  destruct (yt_dlp env idx url) as [res|e] eqn:Hres.
  2:{ split; [by eexists _, _|]. eapply exc_ok_raise; [|done]. intros Henv. apply Henv. }
  apply wp_bind. eapply wp_frame_at0; [done | done |]. intros w4 H4.
  apply wp_ret, wp_bind, wp_when.
  destruct (bool_decide (returncode res ≠ 0%Z)).
  - apply wp_bind. eapply wp_assign_at0; [done|]. intros w5 H5.
    eapply walk_store; [done | by apply live_field |]. intros w6 H6 L6.
    by eapply IH.
  - by eapply IH.
Qed.

Lemma walk_archive_stage j evs w :
  at0 lg0 pre job_id j evs w → live j evs →
  wp (archive_stage env job_id) (λ _, Live) LiveE w.
Proof.
  intros Hat Hl. unfold archive_stage.
  apply wp_bind. eapply wp_assign_at0; [done|]. intros w1 H1.
  apply wp_bind. eapply walk_store; [done | by apply live_state |].
  intros w2 H2 L2. set (j1 := set_state Zipping j) in *.
  apply wp_bind, wp_gets, wp_bind, wp_when.
  assert (∀ evs3 w3, at0 lg0 pre job_id j1 evs3 w3 → live j1 evs3 →
    wp (emit (MakeArchive job_id);; lift (make_archive env job_id);;
        modify (λ w, set_zips ({[job_id]} ∪ zips w) w))
      (λ _, Live) LiveE w3) as Hrest.
  { intros evs3 w3 H3 L3.
    apply wp_bind. eapply wp_emit_at0; [done|]. intros w4 H4.
    assert (live j1 (evs3 ++ [MakeArchive job_id])) as L4 by (by apply live_emit).
    apply wp_bind, wp_lift.
    destruct (make_archive env job_id) as [[]|e] eqn:Hres.
    - eapply wp_frame_at0; [done | done |]. intros w5 H5. by eexists _, _.
    - split; [by eexists _, _|]. eapply exc_ok_raise; [|done].
      intros Henv. apply Henv. }
  destruct (bool_decide _).
  - apply wp_bind. eapply wp_emit_at0; [done|]. intros w3 H3.
    eapply wp_frame_at0; [done | done |]. intros w4 H4.
    eapply Hrest; [done|]. by apply live_emit.
  - by eapply Hrest.
Qed.

Lemma walk_drive {A} ev (r : Res A) j evs w (Q : A → World → Prop) :
  match ev with Put _ => False | _ => True end →
  (raises_exceptions_only env → no_exit r) →
  at0 lg0 pre job_id j evs w → live j evs →
  (∀ a w', r = Ok a → at0 lg0 pre job_id j (evs ++ [ev]) w' →
           live j (evs ++ [ev]) → Q a w') →
  wp (emit ev;; get_service env;; lift r) Q LiveE w.
Proof.
  intros Hev Hr Hat Hl HQ.
  apply wp_bind. eapply wp_emit_at0; [done|]. intros w1 H1.
  assert (live j (evs ++ [ev])) as L1 by (by apply live_emit).
  apply wp_bind. unfold get_service. destruct (token_file_exists env).
  - apply wp_ret, wp_lift. destruct r as [a|e] eqn:Hres; [by apply HQ|].
    split; [by eexists _, _|]. by eapply exc_ok_raise.
  - apply wp_raise. split; [by eexists _, _|]. intros _. by eexists.
Qed.

Lemma walk_upload_stage j evs w :
  at0 lg0 pre job_id j evs w → live j evs →
  wp (upload_stage env job_id) (λ _, Ended) LiveE w.
Proof.
  intros Hat Hl. unfold upload_stage.
  apply wp_bind. eapply wp_assign_at0; [done|]. intros w1 H1.
  apply wp_bind. eapply walk_store; [done | by apply live_state |].
  intros w2 H2 L2. set (j1 := set_state Uploading j) in *.
  apply wp_bind. eapply wp_the_job_at0; [done|].
  apply wp_bind. eapply walk_drive; [done | | done | done |].
  { intros Henv. apply Henv. }
  intros parent_folder_id w3 _ H3 L3.
  apply wp_bind. eapply walk_drive; [done | | done | done |].
  { intros Henv. apply Henv. }
  intros up w4 _ H4 L4.
  apply wp_bind. unfold make_shareable.
  apply wp_bind. eapply wp_emit_at0; [done|]. intros w5 H5.
  assert (live j1 (((evs ++ [Put j1]) ++ [CreateFolder (j_name j1)]) ++
            [UploadFile job_id parent_folder_id] ++ [MakeShareable (f_id up)]))
    as L5.
  { rewrite app_assoc. by apply live_emit. }
  rewrite <-app_assoc in H5.
  apply wp_bind. unfold get_service. destruct (token_file_exists env).
  2:{ apply wp_raise. split; [by eexists _, _|]. intros _. by eexists. }
  apply wp_ret, wp_bind.
  apply wp_mono with (Q := λ _ w', w' = w5) (E := λ e w', w' = w5 ∧ exc_ok e).
  { apply wp_try_except, wp_lift.
    destruct (permissions_create env (f_id up)) as [[]|[msg|msg]] eqn:Hp;
      [done | by apply wp_ret |].
    split; [done|]. eapply exc_ok_raise; [|done]. intros Henv. apply Henv. }
  2:{ intros e w' [-> He]. split; [by eexists _, _ | done]. }
  intros ? w' ->. apply wp_lift.
  destruct (files_get env (f_id up)) as [share|e] eqn:Hget.
  2:{ split; [by eexists _, _|]. eapply exc_ok_raise; [|done].
      intros Henv. apply Henv. }
  apply wp_bind. eapply wp_assign_at0; [done|]. intros w6 H6.
  apply wp_bind. eapply wp_assign_at0; [done|]. intros w7 H7.
  eapply wp_update_at0; [done|]. intros w8 H8.
  eexists _, _. split; [exact H8|].
  destruct L5 as (_ & _ & Hputs). eexists. split; [by rewrite puts_snoc|].
  split; [done|]. left. by split.
Qed.

Lemma walk_pipeline j evs w :
  at0 lg0 pre job_id j evs w → live j evs →
  wp (pipeline env job_id) (λ _, Ended) LiveE w.
Proof.
  intros Hat Hl. unfold pipeline.
  apply wp_bind. eapply wp_the_job_at0; [done|].
  apply wp_bind. eapply wp_mono; [by eapply walk_download_loop | | done].
  intros ? w1 (j1 & evs1 & H1 & L1).
  apply wp_bind. eapply wp_mono; [by eapply walk_archive_stage | | done].
  intros ? w2 (j2 & evs2 & H2 & L2).
  by eapply walk_upload_stage.
Qed.

Lemma walk_on_error msg j evs w :
  at0 lg0 pre job_id j evs w → live j evs →
  wp (on_error job_id (Exception msg)) (λ _, Ended) (λ _ _, False) w.
Proof.
  intros Hat (Hres & _ & Hputs). unfold on_error.
  apply wp_bind. eapply wp_assign_at0; [done|]. intros w1 H1.
  apply wp_bind. eapply wp_assign_at0; [done|]. intros w2 H2.
  eapply wp_update_at0; [done|]. intros w3 H3.
  eexists _, _. split; [exact H3|].
  eexists. split; [by rewrite puts_snoc|]. split; [done|].
  right. by split_and!.
Qed.

(** The executor from the [try] on: the run ends with the record settled
    and stored last, or an exception that is no [Exception] has left it
    unfinished. *)
Lemma walk_try j evs w :
  at0 lg0 pre job_id j evs w → live j evs →
  wp (try_finally (try_except (pipeline env job_id) (on_error job_id))
        (cleanup job_id))
    (λ _, Ended) (λ e w', LiveE e w' ∧ ∃ msg, e = SystemExit msg) w.
Proof.
  intros Hat Hl. apply wp_try_finally.
  apply wp_mono with (Q := λ _, Ended)
    (E := λ e w', LiveE e w' ∧ ∃ msg, e = SystemExit msg).
  - apply wp_try_except.
    eapply wp_mono; [by eapply walk_pipeline | intros ? w1 H1; exact H1 |].
    intros [msg|msg] w1 [(j1 & evs1 & H1 & L1) He]; simpl.
    + eapply wp_mono; [by eapply walk_on_error | intros ? w2 H2; exact H2 | done].
    + split; [split; [by exists j1, evs1 | done] | by exists msg].
  - intros ? w1 (j1 & evs1 & H1 & L1). simpl.
    eapply cleanup_at0; [done|]. intros w2 H2.
    eexists _, _. split; [exact H2 | by apply ended_emit].
  - intros e w1 [[(j1 & evs1 & H1 & L1) He] Hmsg]. simpl.
    eapply cleanup_at0; [done|]. intros w2 H2.
    split; [|done]. split; [|done].
    eexists _, _. split; [exact H2 | by apply live_emit].
Qed.
End outcome_walk.

Lemma walk_download_and_process lg0 pre job_id env j evs w :
  at0 lg0 pre job_id j evs w → live j evs →
  wp (download_and_process env job_id)
    (λ _ w', ∃ j' evs', at0 lg0 pre job_id j' evs' w' ∧ ended j' evs')
    (λ e w', (∃ j' evs', at0 lg0 pre job_id j' evs' w' ∧ live j' evs') ∧
             ¬ raises_exceptions_only env) w.
Proof.
  intros Hat Hl. unfold download_and_process.
  apply wp_bind, wp_gets. pose proof Hat as [[Hj _] _]. rewrite Hj.
  apply wp_bind. eapply wp_assign_at0; [done|]. intros w1 H1.
  apply wp_bind. eapply walk_store; [done | by apply live_state |].
  intros w2 H2 L2.
  assert (∀ evs3 w3, at0 lg0 pre job_id (set_state Running j) evs3 w3 →
    live (set_state Running j) evs3 →
    wp (mkdir job_id;;
        try_finally (try_except (pipeline env job_id) (on_error job_id))
          (cleanup job_id))
      (λ _ w', ∃ j' evs', at0 lg0 pre job_id j' evs' w' ∧ ended j' evs')
      (λ e w', (∃ j' evs', at0 lg0 pre job_id j' evs' w' ∧ live j' evs') ∧
               ¬ raises_exceptions_only env) w3) as Hrest.
  { intros evs3 w3 H3 L3.
    apply wp_bind. eapply wp_mkdir_at0; [done|]. intros w4 H4.
    eapply wp_mono; [eapply walk_try; [done | by apply live_emit] | done |].
    intros e w' [[Hw' He] [msg ->]]. split; [done|].
    intros Henv. by destruct (He Henv). }
  apply wp_bind, wp_gets, wp_bind, wp_when. destruct (bool_decide _).
  - apply wp_bind. eapply wp_rmtree_at0; [done|]. intros w3 H3.
    eapply Hrest; [done | by apply live_emit].
  - by eapply Hrest.
Qed.

Lemma lifetime_outcome env jid now url urls name w :
  faults w = [] →
  let w' := lifetime env jid now (mkRequest (UrlList (url :: urls)) name) w in
  ∃ j, jobs w' !! jid = Some j ∧
       (ended j (events_since w w') ∨
        live j (events_since w w') ∧ ¬ raises_exceptions_only env).
Proof.
  intros Hf w'.
  destruct (lifetime_ok_run env jid now url urls name w Hf) as (w1 & Hat & Hlife).
  assert (live (new_job jid now (url :: urls) name)
            [Put (new_job jid now (url :: urls) name)]) as Hl.
  { split_and!; [done | done | by repeat constructor]. }
  pose proof (walk_download_and_process _ _ _ env _ _ _ Hat Hl) as Hwp.
  apply wp_run in Hwp. unfold w'. rewrite Hlife.
  destruct (outcome _ w1).
  - destruct Hwp as (j' & evs' & Hat' & Hend).
    rewrite (events_since_at0 _ _ _ _ _ _ eq_refl Hat').
    destruct Hat' as [[Hj _] _]. eauto.
  - destruct Hwp as [(j' & evs' & Hat' & Hlive) Henv].
    rewrite (events_since_at0 _ _ _ _ _ _ eq_refl Hat').
    destruct Hat' as [[Hj _] _]. eauto.
Qed.

(** X5: every job is settled: on a disk without faults and with
    collaborators that raise nothing but [Exception]s, once the thread of
    a job has run a poll gives the record either in state [done] with a
    result, or in state [error] with a message and no result; and that
    record is the last one stored. *)
Theorem job_ends_done_or_error env jid now urls name w :
  urls ≠ [] → faults w = [] → raises_exceptions_only env →
  let w' := lifetime env jid now (mkRequest (UrlList urls) name) w in
  ∃ job,
    outcome (status jid) w' = Ok (BJob job, 200) ∧
    last (puts (events_since w w')) = Some job ∧
    (j_state job = Done ∧ is_Some (j_result job) ∨
     j_state job = Error ∧ is_Some (j_error job) ∧ j_result job = None).
Proof.
  intros Hurls Hf Henv w'. destruct urls as [|url urls]; [done|].
  destruct (lifetime_outcome env jid now url urls name w Hf)
    as (j & Hj & [(init & Hp & _ & Hs) | [_ Hno]]); [|done].
  exists j. split; [by apply status_in_memory|].
  split; [|exact Hs]. unfold w'. rewrite Hp. apply last_snoc.
Qed.

(** X6: on a disk without faults a terminal state is final: whatever the
    collaborators do, a record in state [done] or [error] is the last
    record that the run stores for the job. *)
Theorem terminal_state_is_final env jid now urls name w :
  urls ≠ [] → faults w = [] →
  let evs := events_since w
               (lifetime env jid now (mkRequest (UrlList urls) name) w) in
  ∀ i a, puts evs !! i = Some a → terminal (j_state a) = true →
         S i = length (puts evs).
Proof.
  intros Hurls Hf evs i a Hi Ha. destruct urls as [|url urls]; [done|].
  subst evs.
  destruct (lifetime_outcome env jid now url urls name w Hf)
    as (j & Hj & [(init & Hp & Hinit & _) | [(_ & _ & Hall) _]]).
  - rewrite Hp in Hi |- *. rewrite length_app. simpl.
    destruct (decide (i < length init)) as [Hlt|Hge].
    + rewrite lookup_app_l in Hi by done.
      apply (proj1 (Forall_lookup _ _) Hinit) in Hi. congruence.
    + apply lookup_lt_Some in Hi. rewrite length_app in Hi. simpl in Hi. lia.
  - apply (proj1 (Forall_lookup _ _) Hall) in Hi. congruence.
Qed.

Lemma raises_exceptions_only_second_fails :
  raises_exceptions_only env_second_fails.
Proof. repeat split; intros; intros ?; discriminate. Qed.

Lemma job_ends_done_or_error_witness :
  ∃ job,
    outcome (status "j1") (lifetime env_second_fails "j1" 0 three_urls (boot []))
      = Ok (BJob job, 200) ∧
    (j_state job = Done ∨ j_state job = Error).
Proof.
  destruct (job_ends_done_or_error env_second_fails "j1" 0
              ["u1"; "u2"; "u3"] None (boot []))
    as (job & Hpoll & _ & Hs).
  - discriminate.
  - reflexivity.
  - apply raises_exceptions_only_second_fails.
  - exists job. split; [exact Hpoll|]. destruct Hs as [[? _]|[? _]]; auto.
Defined.

Lemma terminal_state_is_final_witness :
  S 7 = length (puts (events_since (boot [])
                  (lifetime env_archive_fails "j1" 0 three_urls (boot [])))).
Proof.
  eapply (terminal_state_is_final env_archive_fails "j1" 0
            ["u1"; "u2"; "u3"] None (boot []));
    [discriminate | reflexivity | vm_compute; reflexivity | reflexivity].
Defined.

(** ** The archive stays on disk *)

Lemma archive_stage_adds_zip env job_id w :
  wp (archive_stage env job_id) (λ _ w', job_id ∈ zips w') (λ _ _, True) w.
Proof.
  unfold archive_stage.
  apply wp_bind, wp_modify, wp_bind.
  eapply wp_mono; [apply wp_any | intros ? w1 _ | done].
  apply wp_bind, wp_gets, wp_bind.
  eapply wp_mono; [apply wp_any | intros ? w2 _ | done].
  apply wp_bind, wp_modify, wp_bind.
  eapply wp_mono; [apply wp_any | intros ? w3 _ | done].
  apply wp_modify. simpl. set_solver.
Qed.

(** Once the archive is there, the steps that follow keep it. *)
Section zip_kept.
Variable job_id : string.
Let Z (w : World) : Prop := job_id ∈ zips w.

Lemma zip_kept_assign f : preserves Z (assign job_id f).
Proof. by apply preserves_modify. Qed.

Lemma zip_kept_update : preserves Z (the_job job_id ≫= update_job).
Proof.
  intros w Hw. unfold exec, the_job, update_job, emit, _save_job. unfold_m.
  destruct (jobs w !! job_id) as [j|]; [|done]. simpl.
  by destruct (write_json _ _ _ _) as [r dir'].
Qed.

Lemma zip_kept_upload_stage env : preserves Z (upload_stage env job_id).
Proof.
  apply stable_upload_stage;
    [done | intros f _; apply zip_kept_assign | apply zip_kept_update].
Qed.

Lemma zip_kept_on_error e : preserves Z (on_error job_id e).
Proof.
  apply stable_on_error; [intros f _; apply zip_kept_assign | apply zip_kept_update].
Qed.

Lemma zip_kept_cleanup w :
  Z w →
  wp (cleanup job_id)
    (λ _ w', job_id ∈ zips w' ∧ folders w' !! job_id = None)
    (λ _ w', job_id ∈ zips w' ∧ folders w' !! job_id = None) w.
Proof.
  intros Hw. apply wp_try_except, wp_bind, wp_modify, wp_modify. simpl.
  split; [done | apply lookup_delete_eq].
Qed.
End zip_kept.

(** X7: the executor removes the batch folder but never the archive: on a
    disk without faults, when every call of the downloader returns and
    the archiver succeeds, the run ends with [PERSISTENT_DIR/<id>.zip]
    still there and the folder gone, whatever Drive answers. *)
Theorem archive_is_kept env jid now urls name w :
  urls ≠ [] → faults w = [] →
  (∀ i u, urls !! i = Some u → ∃ r, yt_dlp env (S i) u = Ok r) →
  make_archive env jid = Ok tt →
  let w' := lifetime env jid now (mkRequest (UrlList urls) name) w in
  jid ∈ zips w' ∧ folders w' !! jid = None.
Proof.
  intros Hurls Hf Hall Harch w'.
  destruct urls as [|u0 urls0]; [done|]. set (urls := u0 :: urls0) in *.
  destruct (lifetime_ok_run env jid now u0 urls0 name w Hf) as (w1 & Hat & Hlife).
  fold urls in Hat, Hlife. unfold w'. rewrite Hlife.
  apply (wp_exec _ (λ w', jid ∈ zips w' ∧ folders w' !! jid = None)).
  eapply prologue_at0; [done|]. intros new0 w2 H2 _.
  apply wp_try_finally.
  apply wp_mono with (Q := λ _ w', jid ∈ zips w') (E := λ _ w', jid ∈ zips w');
    [|intros ? w3 H3; by apply zip_kept_cleanup
     |intros ? w3 H3; by apply zip_kept_cleanup].
  assert (wp (pipeline env jid) (λ _ w', jid ∈ zips w') (λ _ w', jid ∈ zips w') w2)
    as Hpipe.
  { unfold pipeline.
    apply wp_bind. eapply wp_the_job_at0; [done|].
    apply wp_bind. eapply wp_mono; [by eapply download_loop_ok | | done].
    intros ? w3 (new1 & H3 & _).
    apply wp_bind.
    eapply wp_mono;
      [apply wp_and; [by eapply archive_stage_at0 | apply archive_stage_adds_zip]| |].
    - intros ? w4 [_ Hz]. simpl in Hz.
      by apply (proj1 (preserves_wp _ _) (zip_kept_upload_stage jid env)).
    - intros e w4 [[He _] _]. congruence. }
  apply wp_try_except. eapply wp_mono; [exact Hpipe | done |].
  intros [msg|msg] w3 H3; [|done].
  by apply (proj1 (preserves_wp _ _) (zip_kept_on_error jid (Exception msg))).
Qed.

Lemma archive_is_kept_witness :
  "j1" ∈ zips (lifetime env_second_fails "j1" 0 three_urls (boot [])) ∧
  folders (lifetime env_second_fails "j1" 0 three_urls (boot [])) !! "j1" = None.
Proof.
  apply (archive_is_kept env_second_fails "j1" 0 ["u1"; "u2"; "u3"] None (boot []));
    [discriminate | reflexivity | | reflexivity].
  intros i u Hu. by eexists.
Defined.

(** ** A missing token *)

Lemma pipeline_token_missing lg0 pre job_id env j evs w :
  at0 lg0 pre job_id j evs w →
  (∀ i u, j_urls j !! i = Some u → ∃ r, yt_dlp env (S i) u = Ok r) →
  make_archive env job_id = Ok tt →
  token_file_exists env = false →
  wp (pipeline env job_id)
    (λ _ _, False)
    (λ e w', e = Exception ("Drive token file not found: " +:+ DRIVE_TOKEN_FILE) ∧
       ∃ new,
         at0 lg0 pre job_id
           (set_state Uploading (set_state Zipping
              (after_loop env (length (j_urls j)) 1 (j_urls j) j)))
           (evs ++ new) w' ∧
         Forall (λ e, ∀ s, stage_of e = Some s → s = Uploading →
                      ∃ n, e = CreateFolder n) new) w.
Proof.
  intros Hat Hdl Harch Htok. unfold pipeline.
  apply wp_bind. eapply wp_the_job_at0; [done|].
  apply wp_bind. eapply wp_mono; [by eapply download_loop_ok | | done].
  intros ? w1 (new1 & H1 & Hnew1 & _).
  apply wp_bind. eapply wp_mono; [by eapply archive_stage_at0 | |].
  2:{ intros e w' [He _]. congruence. }
  intros ? w2 (_ & new2 & H2 & Hnew2 & _). unfold upload_stage.
  apply wp_bind. eapply wp_assign_at0; [done|]. intros w3 H3.
  apply wp_bind. eapply wp_update_at0; [done|]. intros w4 H4.
  apply wp_bind. eapply wp_the_job_at0; [done|].
  apply wp_bind. unfold create_folder, get_service. rewrite Htok.
  apply wp_bind. eapply wp_emit_at0; [done|]. intros w5 H5.
  apply wp_bind, wp_raise. split; [done|].
  rewrite <-!app_assoc in H5. eexists. split; [exact H5|].
  rewrite !Forall_app. split_and!.
  - eapply Forall_impl; [exact Hnew1|]. intros e He s Hs ->. done.
  - eapply Forall_impl; [exact Hnew2|]. intros e He s Hs ->. done.
  - by repeat constructor.
  - repeat constructor. intros s _ _. by eexists.
Qed.

(** X8: without the token file of Drive every job fails, after the
    downloads and the archive: the first call of the Drive client raises
    [FileNotFoundError], no file is uploaded and no grant made, and a poll
    gives the record in state [error] with the message naming the token
    file, and no result. *)
Theorem missing_token_is_an_error env jid now urls name w :
  urls ≠ [] → faults w = [] →
  (∀ i u, urls !! i = Some u → ∃ r, yt_dlp env (S i) u = Ok r) →
  make_archive env jid = Ok tt →
  token_file_exists env = false →
  let w' := lifetime env jid now (mkRequest (UrlList urls) name) w in
  Forall (λ e, ∀ p q f, e ≠ UploadFile p q ∧ e ≠ MakeShareable f)
    (events_since w w') ∧
  ∃ job,
    outcome (status jid) w' = Ok (BJob job, 200) ∧
    j_state job = Error ∧
    j_error job = Some "Drive token file not found: token.json" ∧
    j_result job = None.
Proof.
  intros Hurls Hf Hall Harch Htok w'.
  destruct urls as [|u0 urls0]; [done|]. set (urls := u0 :: urls0) in *.
  destruct (lifetime_ok_run env jid now u0 urls0 name w Hf) as (w1 & Hat & Hlife).
  fold urls in Hat, Hlife. set (jq := new_job jid now urls name) in *.
  set (quiet := λ e : Event, ∀ s, stage_of e = Some s → s = Uploading →
                             ∃ n, e = CreateFolder n).
  set (Post := λ evs0 w2, ∃ evs, at0 (log w) [] jid
               (set_error "Drive token file not found: token.json"
                  (set_state Error (set_state Uploading (set_state Zipping
                     (after_loop env (length urls) 1 urls (set_state Running jq))))))
               (evs ++ evs0) w2 ∧ Forall quiet evs).
  assert (wp (download_and_process env jid)
            (λ _, Post [Rmtree jid]) (λ _ _, False) w1) as Hwp.
  { eapply prologue_at0; [done|]. intros new0 w2 H2 Hnew0.
    apply wp_try_finally.
    eapply wp_mono with (Q := λ _, Post []) (E := λ _ _, False); [| |done].
    - apply wp_try_except.
      eapply wp_mono;
        [eapply pipeline_token_missing;
           [exact H2 | exact Hall | exact Harch | exact Htok]
        |done|].
      intros e w3 (-> & new & H3 & Hnew). unfold on_error.
      apply wp_bind. eapply wp_assign_at0; [done|]. intros w4 H4.
      apply wp_bind. eapply wp_assign_at0; [done|]. intros w5 H5.
      eapply wp_update_at0; [done|]. intros w6 H6.
      eexists. rewrite app_nil_r. split; [exact H6|].
      rewrite !Forall_app. split_and!;
        [by repeat constructor | | done | by repeat constructor].
      eapply Forall_impl; [exact Hnew0|]. intros e He s Hs. congruence.
    - intros ? w3 (evs & H3 & Hevs). rewrite app_nil_r in H3.
      eapply cleanup_at0; [done|]. intros w4 H4. by eexists. }
  apply wp_run in Hwp. unfold w'. rewrite Hlife.
  destruct (outcome _ w1); [|done]. destruct Hwp as (evs & Hat' & Hevs).
  split.
  { rewrite (events_since_at0 _ _ _ _ _ _ eq_refl Hat').
    apply Forall_app. split.
    - eapply Forall_impl; [exact Hevs|]. intros e He p q f.
      split; intros ->; by destruct (He Uploading eq_refl eq_refl).
    - by repeat constructor. }
  destruct Hat' as [[Hj _] _]. eexists. split; [by apply status_in_memory|].
  split_and!; [done | done |]. simpl.
  destruct (after_loop_core env (length urls) urls 1 (set_state Running jq))
    as (_ & _ & _ & _ & Hresult).
  etrans; [exact Hresult | done].
Qed.

Lemma missing_token_is_an_error_witness :
  ∃ job,
    outcome (status "j1") (lifetime env_no_token "j1" 0 three_urls (boot []))
      = Ok (BJob job, 200) ∧
    j_state job = Error ∧
    j_error job = Some "Drive token file not found: token.json".
Proof.
  destruct (missing_token_is_an_error env_no_token "j1" 0
              ["u1"; "u2"; "u3"] None (boot []))
    as (_ & job & Hpoll & Hstate & Herror & _); try reflexivity.
  - discriminate.
  - intros i u Hu. by eexists.
  - by exists job.
Defined.

Lemma download_and_process_removes_folder_witness :
  folders (exec (download_and_process env_archive_fails "j1")
             (exec (enqueue "j1" 0 three_urls) (boot []))) !! "j1" = None.
Proof.
  apply download_and_process_removes_folder; [by eexists | reflexivity].
Defined.

(** ** A restart does not resume the work *)

Lemma status_keeps_files job_id w :
  JOBS_DIR (exec (status job_id) w) = JOBS_DIR w.
Proof.
  unfold exec, status. unfold_m.
  destruct (jobs w !! job_id); [done|].
  by destruct (JOBS_DIR w !! json_name job_id) as [[|j n|j]|].
Qed.

Lemma enqueue_keeps_files jid now data w k :
  jid ≠ k →
  JOBS_DIR (exec (enqueue jid now data) w) !! json_name k
  = JOBS_DIR w !! json_name k.
Proof.
  intros Hne. destruct data as [[| |[|url urls]] name]; try done.
  unfold exec, enqueue, create_job, emit, _save_job. unfold_m. simpl.
  destruct (write_json_outcome (next_fault (faults w)) (json_name jid)
              (new_job jid now (url :: urls) name) (JOBS_DIR w)) as [Hother _].
  destruct (write_json _ _ _ _) as [[[]|e] dir']; simpl in *;
    apply Hother; by intros ?%json_name_inj.
Qed.

Lemma download_and_process_keeps_files env job_id w j k :
  jobs w !! job_id = Some j → j_id j = job_id → job_id ≠ k →
  JOBS_DIR (exec (download_and_process env job_id) w) !! json_name k
  = JOBS_DIR w !! json_name k.
Proof.
  intros Hj Hid Hne.
  set (I := λ w1 : World,
    JOBS_DIR w1 !! json_name k = JOBS_DIR w !! json_name k ∧
    ∀ j1, jobs w1 !! job_id = Some j1 → j_id j1 = job_id).
  assert (I (exec (download_and_process env job_id) w)) as [? _]; [|done].
  apply (stable_download_and_process I job_id);
    [by intros w1 lg H | by intros w1 fo H | by intros w1 zi H | | |].
  - intros f Hf. apply preserves_modify. intros w1 [Hfile Hwf].
    split; [done|]. simpl. intros j1. rewrite lookup_alter_eq.
    destruct (jobs w1 !! job_id) as [j2|] eqn:Hj2; [|done].
    simpl. intros [= <-]. rewrite Hf. by apply Hwf.
  - intros w1 Hw1. pose proof Hw1 as [Hfile Hwf].
    unfold exec, the_job. unfold_m.
    destruct (jobs w1 !! job_id) as [j1|] eqn:Hj1; [|exact Hw1].
    pose proof (Hwf _ eq_refl) as Hid1.
    unfold update_job, emit, _save_job. unfold_m. simpl.
    destruct (write_json_outcome (next_fault (faults w1)) (json_name (j_id j1))
                j1 (JOBS_DIR w1)) as [Hother _].
    destruct (write_json _ _ _ _) as [r dir']. simpl in *.
    assert (dir' !! json_name k = JOBS_DIR w !! json_name k) as Hdir.
    { rewrite Hother; [done|]. rewrite Hid1. by intros ?%json_name_inj. }
    destruct r; simpl; (split; [done|]); simpl;
      intros j2; rewrite Hid1, lookup_insert_eq; by intros [= <-].
  - split; [done|]. intros j1. rewrite Hj. by intros [= <-].
Qed.

(** What holds of a record [j] that was loaded under [k], as long as no
    submission draws [k] again: it is in memory and on disk, and no
    thread is there to work on it. *)
Section stranded.
Variables (k : string) (j : Job).

Let kept (w : World) : Prop :=
  known (λ _, True) w ∧ jobs w !! k = Some j ∧
  JOBS_DIR w !! json_name k = Some (Complete j) ∧ k ∉ threads w.

Lemma stranded_step w o : created o ≠ Some k → kept w → kept (step w o).
Proof.
  intros Ho (Hknown & Hjob & Hfile & Hth).
  split; [by apply known_step|].
  destruct o as [jid now data|job_id| | |env i|]; simpl in *.
  - destruct data as [[| |[|url urls]] name]; try done.
    assert (jid ≠ k) as Hne by congruence.
    destruct (enqueue_world jid now url urls name w) as (Hjobs & _ & Hthreads).
    split_and!.
    + by rewrite Hjobs, lookup_insert_ne.
    + by rewrite enqueue_keeps_files.
    + destruct Hthreads as [-> | ->]; [done|].
      rewrite not_elem_of_app. split; [done|]. by intros ?%list_elem_of_singleton.
  - destruct (status_world job_id w) as (_ & Hthreads & Hjobs).
    rewrite Hthreads, status_keeps_files, Hjobs by (by eexists). done.
  - done.
  - done.
  - destruct (threads w !! i) as [job_id|] eqn:Hi; [|done].
    assert (job_id ≠ k) as Hne.
    { intros ->. apply Hth. by eapply list_elem_of_lookup_2. }
    set (w0 := set_threads (delete i (threads w)) w).
    destruct (jobs w0 !! job_id) as [j'|] eqn:Hj'.
    2:{ unfold exec, download_and_process. unfold_m. rewrite Hj'. simpl.
        split_and!; [done..|]. intros Hin. apply Hth.
        by eapply list_elem_of_delete_inv. }
    assert (j_id j' = job_id) as Hid.
    { destruct Hknown as [Hk _]. by destruct (Hk _ _ Hj'). }
    destruct (download_and_process_frame env job_id w0 j' Hj' Hid) as [Hthreads Hjobs].
    rewrite Hthreads, Hjobs by done.
    rewrite (download_and_process_keeps_files env job_id w0 j' k) by done.
    split_and!; [done..|]. simpl. intros Hin. apply Hth.
    by eapply list_elem_of_delete_inv.
  - split_and!; [|done|by apply not_elem_of_nil].
    by apply (restart_jobs _ w k j Hknown).
Qed.

Lemma stranded_run ops : ∀ w,
  k ∉ omap created ops → kept w → kept (run ops w).
Proof.
  induction ops as [|o ops IH]; intros w Hk Hw; [done|]. simpl.
  apply IH.
  - intros Hin. apply Hk. simpl. destruct (created o); [by right | done].
  - apply stranded_step; [|done]. intros Ho. apply Hk. simpl. rewrite Ho. left.
Qed.
End stranded.

(** X9: the work of a job is never resumed: a record that a restart has
    loaded stays as it is through every later request, thread run and
    restart, under any faults of the disk, as long as no later submission
    draws its identifier.  A job that was [queued], [running], [zipping]
    or [uploading] when the server stopped is shown in that state for
    ever. *)
Theorem restart_strands_unfinished_jobs flts ops ops' k j :
  let w := step (run ops (boot flts)) OpRestart in
  jobs w !! k = Some j →
  k ∉ omap created ops' →
  jobs (run ops' w) !! k = Some j ∧
  outcome (status k) (run ops' w) = Ok (BJob j, 200).
Proof.
  intros w Hj Hk.
  assert (known (λ _, True) (run ops (boot flts))) as Hknown
    by apply known_reachable.
  destruct (stranded_run k j ops' w Hk) as (_ & Hjob & _).
  { split_and!.
    - by apply known_step.
    - done.
    - by apply (restart_jobs _ _ k j Hknown).
    - by apply not_elem_of_nil. }
  split; [done | by apply status_in_memory].
Qed.

Lemma restart_strands_unfinished_jobs_witness :
  ∃ job,
    outcome (status "j1")
      (run [OpEnqueue "j2" 1 one_url; OpThread env_second_fails 0; OpRestart]
         (step (run [OpEnqueue "j1" 0 three_urls] (boot [])) OpRestart))
    = Ok (BJob job, 200) ∧ j_state job = Queued.
Proof.
  exists (new_job "j1" 0 ["u1"; "u2"; "u3"] None). split; [|done].
  apply (restart_strands_unfinished_jobs [] [OpEnqueue "j1" 0 three_urls]
           [OpEnqueue "j2" 1 one_url; OpThread env_second_fails 0; OpRestart]
           "j1").
  - by vm_compute.
  - simpl. intros Hin. apply list_elem_of_singleton in Hin. discriminate.
Defined.

(** ** A submission that the disk refuses *)

(** X10: [create_job] stores the record in [jobs] before it writes the file:
    when that write fails, the request ends with the exception (the
    submitter gets no identifier) and no thread is started, but the record
    stays in memory, where a poll finds it in state [queued]. *)
Theorem failed_submission_leaves_a_record jid now urls name w flt :
  urls ≠ [] →
  next_fault (faults w) = Some flt →
  let submit := enqueue jid now (mkRequest (UrlList urls) name) in
  (∃ msg, outcome submit w = Raise (Exception msg)) ∧
  threads (exec submit w) = threads w ∧
  outcome (status jid) (exec submit w)
    = Ok (BJob (new_job jid now urls name), 200).
Proof.
  intros Hurls Hflt submit. subst submit.
  destruct urls as [|url urls]; [done|].
  destruct w as [js dir fo zi th flts lg]. simpl in Hflt.
  unfold outcome, exec, enqueue, create_job, emit, _save_job, status.
  unfold_m. simpl. rewrite Hflt.
  destruct flt as [msg|[|n] msg]; simpl; rewrite lookup_insert_eq; eauto.
Qed.

Lemma failed_submission_leaves_a_record_witness :
  outcome (status "j1")
    (exec (enqueue "j1" 0 one_url) (boot [Some (OpenFails "Read-only file system")]))
  = Ok (BJob (new_job "j1" 0 ["u"] None), 200).
Proof.
  apply (failed_submission_leaves_a_record "j1" 0 ["u"] None
           (boot [Some (OpenFails "Read-only file system")])
           (OpenFails "Read-only file system")); [done | reflexivity].
Defined.

(** ** A record that cannot be read *)

(** X11: a file that a failed write cut short makes its job unreadable: in
    every state the server can reach, when the file of a job holds no
    complete document then, after a restart, the job is not in the
    listing and every poll of it raises the decoding error, leaving the
    server as it was. *)
Theorem truncated_record_cannot_be_polled flts ops k f :
  let w := run ops (boot flts) in
  JOBS_DIR w !! json_name k = Some f →
  (∀ j, f ≠ Complete j) →
  let w' := step w OpRestart in
  jobs w' !! k = None ∧
  status k w' = (Raise (Exception "JSONDecodeError"), w').
Proof.
  intros w Hf Hbad w'.
  assert (jobs w' !! k = None) as Hnone.
  { destruct (jobs w' !! k) as [j|] eqn:Hj; [|done].
    apply (restart_jobs _ w k j (known_reachable flts ops)) in Hj.
    rewrite Hf in Hj. injection Hj as ->. by destruct (Hbad j). }
  split; [done|]. unfold status. unfold_m. rewrite Hnone.
  change (JOBS_DIR w') with (JOBS_DIR w). rewrite Hf.
  destruct f as [|j n|j]; simpl; [done | done | by destruct (Hbad j)].
Qed.

Lemma truncated_record_cannot_be_polled_witness :
  outcome (status "j1")
    (step (run [OpEnqueue "j1" 0 one_url; OpThread env_second_fails 0]
             (boot [None; Some (DumpFails 10 "No space left on device")]))
       OpRestart)
  = Raise (Exception "JSONDecodeError").
Proof.
  destruct (truncated_record_cannot_be_polled
              [None; Some (DumpFails 10 "No space left on device")]
              [OpEnqueue "j1" 0 one_url; OpThread env_second_fails 0]
              "j1" (Partial (set_state Running (new_job "j1" 0 ["u"] None)) 10))
    as [_ Hpoll].
  - by vm_compute.
  - done.
  - unfold outcome. by rewrite Hpoll.
Defined.

End ServerFacts.

(** * Facts about [src/worker/server.py] *)
Module WorkerFacts.
Import Worker.

(** ** The queue *)

Lemma first_sorted (w : World) (fn : string) :
  first_queue_file w fn →
  ∃ rest,
    merge_sort String.le (filter (λ f, endswith f ".json" = true) (listdir w))
    = fn :: rest.
Proof.
  intros (Hdom & Hjson & Hmin).
  set (l := filter _ _).
  assert (Hl : ∀ f, f ∈ l ↔ f ∈ dom (QUEUE_DIR w) ∧ endswith f ".json" = true).
  { intros f. unfold l, listdir. rewrite list_elem_of_filter, list_elem_of_fmap.
    rewrite elem_of_dom. split.
    - intros [? ([k v] & -> & Hkv%elem_of_map_to_list)]. eauto.
    - intros [[v Hv] ?]. split; [done|]. exists (f, v).
      by rewrite elem_of_map_to_list. }
  pose proof (merge_sort_Permutation String.le l) as Hperm.
  pose proof (StronglySorted_merge_sort String.le l) as Hsorted.
  assert (Hfn : fn ∈ merge_sort String.le l) by (rewrite Hperm; by apply Hl).
  destruct (merge_sort String.le l) as [|x rest]; [by apply elem_of_nil in Hfn|].
  exists rest. f_equal.
  apply (anti_symm String.le).
  - apply StronglySorted_inv in Hsorted as [_ Hall].
    apply elem_of_cons in Hfn as [->|Hin]; [done|].
    by apply (proj1 (Forall_forall _ _) Hall).
  - assert (x ∈ l) as [? ?]%Hl by (rewrite <-Hperm; left). by apply Hmin.
Qed.

Lemma preserves_lift {A} (I : World → Prop) (r : Res A) : preserves I (lift r).
Proof. by intros w. Qed.

(** Steps that leave [QUEUE_DIR] alone, or only add to it. *)
Section queue_files.
Variable fn : string.
Let I (w : World) : Prop := fn ∈ dom (QUEUE_DIR w).

Lemma keeps_emit e : preserves I (emit e).
Proof. by apply preserves_modify. Qed.

Lemma keeps_write_job job : preserves I (write_job job).
Proof.
  intros w Hw. unfold I, exec, write_job in *.
  pose proof (write_json_dom (next_fault (faults w)) (json_name (j_id job))
    job (QUEUE_DIR w)) as Hdom.
  destruct (write_json _ _ _ _) as [r dir']. simpl in *. set_solver.
Qed.

Lemma keeps_save_job job : preserves I (save_job job).
Proof.
  apply preserves_bind; [apply keeps_emit | intros _; apply keeps_write_job].
Qed.

Lemma keeps_load_job job_id : preserves I (load_job job_id).
Proof.
  apply preserves_bind; [apply preserves_gets | intros dir].
  destruct (dir !! _); [|apply preserves_ret].
  apply preserves_bind; [apply preserves_lift | intros ?; apply preserves_ret].
Qed.

Lemma keeps_download_loop env job_id urls idx :
  preserves I (download_loop env job_id idx urls).
Proof.
  revert idx. induction urls as [|u rest IH]; intros idx; simpl.
  - apply preserves_ret.
  - apply preserves_bind; [apply keeps_emit | intros _].
    apply preserves_bind; [apply preserves_lift | intros res].
    apply preserves_bind; [by apply preserves_modify | intros _; apply IH].
Qed.

Lemma keeps_download_urls env job_id urls :
  preserves I (download_urls env job_id urls).
Proof.
  apply preserves_bind; [|intros _; apply keeps_download_loop].
  apply preserves_modify. intros w Hw. by destruct (folders w !! job_id).
Qed.

Lemma keeps_get_drive_service env : preserves I (get_drive_service env).
Proof.
  unfold get_drive_service.
  destruct (token_file_exists env); [apply preserves_ret | apply preserves_raise].
Qed.

Lemma keeps_create_drive_folder env name :
  preserves I (create_drive_folder env name).
Proof.
  apply preserves_bind; [apply keeps_emit | intros _].
  apply preserves_bind; [apply keeps_get_drive_service | intros _].
  apply preserves_lift.
Qed.

Lemma keeps_upload_file_to_drive env path parent_id :
  preserves I (upload_file_to_drive env path parent_id).
Proof.
  apply preserves_bind; [apply keeps_emit | intros _].
  apply preserves_bind; [apply keeps_get_drive_service | intros _].
  apply preserves_lift.
Qed.

Lemma keeps_upload_files env parent_id files :
  preserves I (upload_files env parent_id files).
Proof.
  induction files as [|fp rest IH]; simpl; [apply preserves_ret|].
  apply preserves_bind; [apply keeps_upload_file_to_drive | by intros _].
Qed.

Lemma keeps_zip_folder env job_id : preserves I (zip_folder env job_id).
Proof.
  apply preserves_bind; [apply keeps_emit | intros _].
  apply preserves_bind; [apply preserves_lift | intros _].
  by apply preserves_modify.
Qed.

Lemma keeps_rmtree job_id : preserves I (rmtree job_id).
Proof.
  apply preserves_bind; [apply keeps_emit | intros _].
  by apply preserves_modify.
Qed.

Lemma keeps_os_remove job_id : preserves I (os_remove job_id).
Proof.
  apply preserves_bind; [apply keeps_emit | intros _].
  apply preserves_bind; [apply preserves_gets | intros [|]].
  - by apply preserves_modify.
  - apply preserves_raise.
Qed.

Lemma keeps_process_job env job_id : preserves I (process_job env job_id).
Proof.
  apply preserves_bind; [apply keeps_load_job | intros [job|]];
    [|apply preserves_ret].
  apply preserves_bind; [apply keeps_save_job | intros _].
  apply preserves_bind; [apply keeps_download_urls | intros _].
  apply preserves_bind.
  { apply preserves_try_except.
    - apply preserves_bind; [apply keeps_create_drive_folder | intros ?].
      apply preserves_ret.
    - intros e. apply preserves_bind; [apply keeps_save_job | intros _].
      apply preserves_ret. }
  intros [parent_folder_id|]; [|apply preserves_ret].
  apply preserves_bind; [apply preserves_gets | intros files].
  apply preserves_bind.
  { apply preserves_try_except.
    - apply preserves_bind; [apply keeps_upload_files | intros ?].
      apply preserves_ret.
    - intros e. apply preserves_bind; [apply keeps_save_job | intros _].
      apply preserves_ret. }
  intros [|]; [|apply preserves_ret].
  apply preserves_bind; [apply keeps_zip_folder | intros _].
  apply preserves_bind.
  { apply preserves_try_except.
    - apply preserves_bind; [apply keeps_upload_file_to_drive | intros ?].
      apply preserves_ret.
    - intros e. apply preserves_bind; [apply keeps_save_job | intros _].
      apply preserves_ret. }
  intros [zip_id|]; [|apply preserves_ret].
  apply preserves_bind; [apply keeps_save_job | intros _].
  apply preserves_bind; [apply keeps_rmtree | intros _].
  apply preserves_try_except_all; [apply keeps_os_remove | apply preserves_ret].
Qed.

Lemma keeps_blpop_job : preserves I blpop_job.
Proof.
  apply preserves_bind; [apply preserves_gets | intros names].
  cbv beta zeta. destruct (merge_sort String.le _) as [|f rest].
  - apply preserves_bind; [apply keeps_emit | intros _; apply preserves_ret].
  - apply preserves_bind; [apply preserves_gets | intros dir].
    destruct (dir !! f); [|apply preserves_raise].
    apply preserves_bind; [apply preserves_lift | intros ?; apply preserves_ret].
Qed.

Lemma keeps_worker_turn env : preserves I (worker_turn env).
Proof.
  apply preserves_bind; [apply keeps_blpop_job | intros [job_id|]];
    [|apply preserves_ret].
  destruct (decide (job_id = "")); [apply preserves_ret|].
  apply preserves_try_except; [apply keeps_process_job | intros e].
  apply preserves_bind; [apply keeps_load_job | intros loaded].
  apply keeps_save_job.
Qed.
End queue_files.

Lemma blpop_job_run (w : World) (fn : string) :
  first_queue_file w fn →
  ∃ f, QUEUE_DIR w !! fn = Some f ∧
       blpop_job w
       = (match json_load f with
          | Ok job => Ok (Some (j_id job))
          | Raise e => Raise e
          end, w).
Proof.
  intros Hfirst. destruct (first_sorted w fn Hfirst) as [rest Hsort].
  destruct Hfirst as (Hdom & _ & _).
  apply elem_of_dom in Hdom as [f Hf]. exists f. split; [done|].
  unfold blpop_job. unfold_m. rewrite Hsort, Hf.
  unfold lift. by destruct (json_load f).
Qed.

(** C10: when the queue directory holds a [*.json] file, [blpop_job]
    leaves the directory (and the whole world) as it was and returns the
    id held in the lexicographically first of these files, so that a
    second pop returns what the first returned; and a turn of the worker,
    whatever the job comes to, removes no file of the queue directory. *)
Theorem blpop_job_keeps_the_file (w : World) (fn : string) :
  first_queue_file w fn →
  exec blpop_job w = w ∧
  (∀ job, QUEUE_DIR w !! fn = Some (Complete job) →
          outcome blpop_job w = Ok (Some (j_id job))) ∧
  outcome blpop_job (exec blpop_job w) = outcome blpop_job w ∧
  ∀ env, dom (QUEUE_DIR w) ⊆ dom (QUEUE_DIR (exec (worker_turn env) w)).
Proof.
  intros Hfirst. destruct (blpop_job_run w fn Hfirst) as (f & Hf & Hrun).
  assert (exec blpop_job w = w) as Hexec by (unfold exec; by rewrite Hrun).
  split_and!.
  - done.
  - intros job Hjob. unfold outcome. rewrite Hrun.
    rewrite Hjob in Hf. by injection Hf as <-.
  - by rewrite Hexec.
  - intros env f' Hf'. by apply (keeps_worker_turn f' env).
Qed.


Lemma first_of_two : first_queue_file queue_of_two "a-b.json".
Proof.
  unfold first_queue_file, queue_of_two. simpl.
  rewrite !dom_insert_L, dom_empty_L. split_and!.
  - set_solver.
  - reflexivity.
  - intros f Hf _.
    apply elem_of_union in Hf as [->%elem_of_singleton|Hf]; [by vm_compute|].
    apply elem_of_union in Hf as [->%elem_of_singleton|Hf]; [by vm_compute|].
    by apply elem_of_empty in Hf.
Defined.

Lemma blpop_job_keeps_the_file_witness :
  exec blpop_job queue_of_two = queue_of_two ∧
  outcome blpop_job queue_of_two = Ok (Some "a-b").
Proof.
  destruct (blpop_job_keeps_the_file queue_of_two "a-b.json" first_of_two)
    as (Hsame & Hid & _ & _).
  split; [exact Hsame | by apply (Hid job_a_b)].
Defined.

(** ** The executor [process_job] and the loop *)

(** C4, failing input: the job [j1] is in the queue and Drive refuses to
    create the folder.  [process_job] returns, the record on disk says
    [error], and the working directory [DATA_DIR/j1] is still there with
    the downloaded file in it. *)
Theorem process_job_error_leaves_folder :
  outcome (process_job env_no_folder "j1") queue_of_one = Ok tt ∧
  outcome (load_job "j1") (exec (process_job env_no_folder "j1") queue_of_one)
    = Ok (Some (mkJob "j1" (Some ["u"]) Error (Some [])
                  (Some "Drive folder create failed: quotaExceeded") None None)) ∧
  folders (exec (process_job env_no_folder "j1") queue_of_one) !! "j1"
    = Some ["u.mp4"].
Proof. repeat split; vm_compute; reflexivity. Qed.

(** On success the same function does remove the folder. *)
Lemma process_job_done_removes_folder :
  outcome (process_job env_ok "j1") queue_of_one = Ok tt ∧
  folders (exec (process_job env_ok "j1") queue_of_one) !! "j1" = None.
Proof. repeat split; vm_compute; reflexivity. Qed.

(** C7, failing input: the job [j1] is in the queue and everything
    succeeds.  The first turn of the worker takes the job to [done]; its
    file stays in the queue, so that the second turn pops it again and
    writes [running] over [done]. *)
Theorem worker_reruns_finished_job :
  outcome (status "j1") (exec (worker_loop [env_ok]) queue_of_one)
    = Ok (BJob (mkJob "j1" (Some ["u"]) Done (Some []) None (Some "folder1")
                  (Some (Some "id-of-j1.zip"))), 200) ∧
  outcome blpop_job (exec (worker_loop [env_ok]) queue_of_one) = Ok (Some "j1") ∧
  saved_statuses "j1" (log (exec (worker_loop [env_ok; env_ok]) queue_of_one))
    = [Queued; Running; Done; Running; Done].
Proof. repeat split; vm_compute; reflexivity. Qed.
(** ** The listing of the dashboard *)

Lemma jobs_loop_run (w : World) (names : list string) : ∀ out,
  (∀ fn, fn ∈ names → is_Some (QUEUE_DIR w !! fn)) →
  jobs_loop names out w
  = (match
       mapM (λ fn, match QUEUE_DIR w !! fn with
                   | Some (Complete j) => Some j
                   | _ => None
                   end)
         (filter (λ fn, endswith fn ".json" = true) names)
     with
     | Some js => Ok (out ++ js)
     | None => Raise (Exception "JSONDecodeError")
     end, w).
Proof.
  induction names as [|fn rest IH]; intros out Hin; simpl.
  { by rewrite app_nil_r. }
  assert (∀ fn', fn' ∈ rest → is_Some (QUEUE_DIR w !! fn')) as Hrest.
  { intros fn' ?. apply Hin. by right. }
  destruct (endswith fn ".json") eqn:Hjson.
  - rewrite filter_cons_True by done. simpl. unfold_m.
    destruct (Hin fn) as [f Hf]; [by left|]. rewrite Hf.
    destruct f as [|j n|j]; simpl; [done | done |].
    rewrite IH by done.
    destruct (mapM _ _) as [js|]; simpl; [|done]. by rewrite <-app_assoc.
  - rewrite filter_cons_False by (by rewrite Hjson). by apply IH.
Qed.

(** X12: [GET /jobs] of the dashboard decodes every [*.json] file of the
    queue directory and skips none: it fails, with the decoding error and
    without touching anything, exactly when one of these files does not
    hold a complete document; and when it answers, it answers 200 with
    the records of these files and nothing else. *)
Theorem jobs_listing_fails_on_a_truncated_file (w : World) :
  ((∃ fn f, QUEUE_DIR w !! fn = Some f ∧ endswith fn ".json" = true ∧
            ∀ j, f ≠ Complete j)
   ↔ jobs w = (Raise (Exception "JSONDecodeError"), w)) ∧
  ∀ out code,
    jobs w = (Ok (out, code), w) →
    code = 200 ∧
    ∀ j, j ∈ out ↔ ∃ fn, endswith fn ".json" = true ∧
                         QUEUE_DIR w !! fn = Some (Complete j).
Proof.
  assert (∀ fn, fn ∈ listdir w ↔ is_Some (QUEUE_DIR w !! fn)) as Hnames.
  { intros fn. unfold listdir. rewrite list_elem_of_fmap. split.
    - intros ([fn' f] & -> & Hf%elem_of_map_to_list). by eexists.
    - intros [f Hf]. exists (fn, f). split; [done|]. by apply elem_of_map_to_list. }
  unfold jobs. unfold_m. rewrite jobs_loop_run by (intros fn; apply Hnames).
  destruct (mapM _ _) as [js|] eqn:Hjs.
  - apply mapM_Some_1 in Hjs. split.
    + split; [|done]. intros (fn & f & Hf & Hjson & Hbad). exfalso.
      assert (fn ∈ filter (λ fn, endswith fn ".json" = true) (listdir w)) as Hin.
      { apply list_elem_of_filter. split; [done|]. apply Hnames. by eexists. }
      apply list_elem_of_lookup in Hin as [i Hi].
      destruct (Forall2_lookup_l _ _ _ _ _ Hjs Hi) as (j & _ & Hj).
      rewrite Hf in Hj. destruct f as [|j' n|j']; try done. by destruct (Hbad j').
    + intros out code [= <- <-]. split; [done|]. intros j. simpl. split.
      * intros [i Hi]%list_elem_of_lookup.
        destruct (Forall2_lookup_r _ _ _ _ _ Hjs Hi) as (fn & Hfn & Hj).
        apply list_elem_of_lookup_2, list_elem_of_filter in Hfn as [Hjson _].
        exists fn. split; [done|].
        destruct (QUEUE_DIR w !! fn) as [[|j' n|j']|]; try done.
        by injection Hj as ->.
      * intros (fn & Hjson & Hf).
        assert (fn ∈ filter (λ fn, endswith fn ".json" = true) (listdir w)) as Hin.
        { apply list_elem_of_filter. split; [done|]. apply Hnames. by eexists. }
        apply list_elem_of_lookup in Hin as [i Hi].
        destruct (Forall2_lookup_l _ _ _ _ _ Hjs Hi) as (j' & Hj' & Hj).
        rewrite Hf in Hj. injection Hj as <-. by eapply list_elem_of_lookup_2.
  - split; [|done]. split; [done|]. intros _.
    apply mapM_None_1 in Hjs. apply Exists_exists in Hjs as (fn & Hin & Hnone).
    apply list_elem_of_filter in Hin as [Hjson Hin].
    apply Hnames in Hin as [f Hf]. rewrite Hf in Hnone.
    exists fn, f. split_and!; [done..|]. by intros j ->.
Qed.

(** ** Invariants of [process_job] *)

(** An invariant kept by the steps of [process_job] on [job_id]. *)
Section worker_stable.
Variables (I : World → Prop) (job_id : string).
Hypotheses
  (I_log : ∀ w lg, I w → I (set_log lg w))
  (I_folders : ∀ w fo, I w → I (set_folders fo w))
  (I_zips : ∀ w zi, I w → I (set_zips zi w))
  (I_save : ∀ j, j_id j = job_id → preserves I (save_job j))
  (I_named : ∀ w j, I w →
     QUEUE_DIR w !! json_name job_id = Some (Complete j) → j_id j = job_id).

Lemma wstable_emit e : preserves I (emit e).
Proof. apply preserves_modify. intros w. apply I_log. Qed.

Lemma wstable_download_urls env urls :
  preserves I (download_urls env job_id urls).
Proof.
  apply preserves_bind; [|intros _].
  { apply preserves_modify. intros w Hw.
    destruct (folders w !! job_id); [done | by apply I_folders]. }
  generalize 1. induction urls as [|u rest IH]; intros idx; simpl.
  - apply preserves_ret.
  - apply preserves_bind; [apply wstable_emit | intros _].
    apply preserves_bind; [apply preserves_lift | intros res].
    apply preserves_bind; [|intros _; apply IH].
    apply preserves_modify. intros w. apply I_folders.
Qed.

Lemma wstable_drive {A} ev env (r : Res A) :
  preserves I (emit ev;; get_drive_service env;; lift r).
Proof.
  apply preserves_bind; [apply wstable_emit | intros _].
  apply preserves_bind; [|intros _; apply preserves_lift].
  unfold get_drive_service.
  destruct (token_file_exists env); [apply preserves_ret | apply preserves_raise].
Qed.

Lemma wstable_upload_files env parent_id files :
  preserves I (upload_files env parent_id files).
Proof.
  induction files as [|fp rest IH]; simpl; [apply preserves_ret|].
  apply preserves_bind; [apply wstable_drive | by intros _].
Qed.

Lemma wstable_process_job env : preserves I (process_job env job_id).
Proof.
  intros w Hw. unfold process_job, load_job.
  apply (wp_exec _ I). apply wp_bind, wp_bind, wp_gets.
  destruct (QUEUE_DIR w !! json_name job_id) as [f|] eqn:Hf; [|by apply wp_ret].
  apply wp_bind. unfold wp at 1, lift.
  destruct f as [|j n|job]; simpl; [done | done |].
  pose proof (I_named w job Hw Hf) as Hid.
  clear Hf. revert w Hw. apply (proj1 (preserves_wp _ I)).
  apply preserves_bind; [by apply I_save | intros _].
  apply preserves_bind; [apply wstable_download_urls | intros _].
  apply preserves_bind.
  { apply preserves_try_except.
    - apply preserves_bind; [apply wstable_drive | intros ?; apply preserves_ret].
    - intros e. apply preserves_bind; [by apply I_save | intros _; apply preserves_ret]. }
  intros [parent_folder_id|]; [|apply preserves_ret].
  apply preserves_bind; [apply preserves_gets | intros files].
  apply preserves_bind.
  { apply preserves_try_except.
    - apply preserves_bind; [apply wstable_upload_files | intros ?; apply preserves_ret].
    - intros e. apply preserves_bind; [by apply I_save | intros _; apply preserves_ret]. }
  intros [|]; [|apply preserves_ret].
  apply preserves_bind.
  { apply preserves_bind; [apply wstable_emit | intros _].
    apply preserves_bind; [apply preserves_lift | intros _].
    apply preserves_modify. intros w. apply I_zips. }
  intros _. apply preserves_bind.
  { apply preserves_try_except.
    - apply preserves_bind; [apply wstable_drive | intros ?; apply preserves_ret].
    - intros e. apply preserves_bind; [by apply I_save | intros _; apply preserves_ret]. }
  intros [zip_id|]; [|apply preserves_ret].
  apply preserves_bind; [by apply I_save | intros _].
  apply preserves_bind.
  { apply preserves_bind; [apply wstable_emit | intros _].
    apply preserves_modify. intros w. apply I_folders. }
  intros _. apply preserves_try_except_all; [|apply preserves_ret].
  apply preserves_bind; [apply wstable_emit | intros _].
  apply preserves_bind; [apply preserves_gets | intros [|]].
  - apply preserves_modify. intros w. apply I_zips.
  - apply preserves_raise.
Qed.

Lemma wstable_handler e :
  preserves I
    (loaded ← load_job job_id;
     let job := default (mkJob job_id None Error None None None None) loaded in
     save_job (set_error (exn_str e) (set_status Error job))).
Proof.
  intros w Hw. unfold load_job. apply (wp_exec _ I).
  apply wp_bind, wp_bind, wp_gets.
  destruct (QUEUE_DIR w !! json_name job_id) as [f|] eqn:Hf.
  - apply wp_bind. unfold wp at 1, lift.
    destruct f as [|j n|job]; simpl; [done | done |].
    apply wp_ret. simpl. apply (proj1 (preserves_wp _ I)); [|done].
    apply I_save. simpl. by eapply I_named.
  - apply wp_ret. simpl. apply (proj1 (preserves_wp _ I)); [|done]. by apply I_save.
Qed.
End worker_stable.

(** ** A queue that the worker cannot read *)

Lemma first_queue_file_dom w w' fn :
  dom (QUEUE_DIR w') = dom (QUEUE_DIR w) →
  first_queue_file w fn → first_queue_file w' fn.
Proof. intros Hdom. unfold first_queue_file. by rewrite Hdom. Qed.

(** X13: a first file that does not decode stops the worker: when the
    lexicographically first [*.json] file of the queue is empty or cut
    short, as a failed write leaves it, [blpop_job] raises the decoding
    error outside every [try] of [worker_loop]; the loop ends there,
    having changed nothing, whatever jobs wait behind that file. *)
Theorem corrupt_first_file_stops_the_worker w fn f env envs :
  first_queue_file w fn →
  QUEUE_DIR w !! fn = Some f → (∀ j, f ≠ Complete j) →
  worker_loop (env :: envs) w = (Raise (Exception "JSONDecodeError"), w).
Proof.
  intros Hfirst Hf Hbad.
  destruct (blpop_job_run w fn Hfirst) as (f' & Hf' & Hrun).
  rewrite Hf in Hf'. injection Hf' as <-.
  simpl. unfold worker_turn. unfold_m. rewrite Hrun.
  destruct f as [|j n|j]; simpl; [done | done | by destruct (Hbad j)].
Qed.

Lemma corrupt_first_file_stops_the_worker_witness :
  worker_loop [env_ok; env_ok]
    (set_QUEUE_DIR (<["a-b.json" := Partial job_a_b 7]> (QUEUE_DIR queue_of_two))
       queue_of_two)
  = (Raise (Exception "JSONDecodeError"),
     set_QUEUE_DIR (<["a-b.json" := Partial job_a_b 7]> (QUEUE_DIR queue_of_two))
       queue_of_two).
Proof.
  apply (corrupt_first_file_stops_the_worker _ "a-b.json" (Partial job_a_b 7)).
  - eapply first_queue_file_dom; [|apply first_of_two]. by vm_compute.
  - by vm_compute.
  - done.
Defined.

(** ** The worker stays on the first file *)

(** What the turns of the worker keep of a queue [w0] whose first file
    is [fn]. *)
Section first_file.
Variables (w0 : World) (fn : string).
Hypothesis Hfirst : first_queue_file w0 fn.

Let J (w : World) : Prop :=
  well_named w ∧ dom (QUEUE_DIR w) = dom (QUEUE_DIR w0) ∧
  ∀ p, p ≠ fn → QUEUE_DIR w !! p = QUEUE_DIR w0 !! p.

Lemma first_file_save j : json_name (j_id j) = fn → preserves J (save_job j).
Proof.
  intros Hfn w (Hnamed & Hdom & Hother). unfold exec, save_job, emit, write_job.
  unfold_m. simpl.
  destruct (write_json_outcome (next_fault (faults w)) (json_name (j_id j)) j
              (QUEUE_DIR w)) as [Hout Hpath].
  pose proof (write_json_dom (next_fault (faults w)) (json_name (j_id j)) j
                (QUEUE_DIR w)) as Hsub.
  destruct (write_json _ _ _ _) as [r dir']. simpl in *. rewrite Hfn in *.
  assert (fn ∈ dom (QUEUE_DIR w)) as Hin.
  { rewrite Hdom. by destruct Hfirst. }
  split_and!; simpl.
  - intros p j' Hp. simpl in Hp. destruct (decide (p = fn)) as [->|Hne].
    + destruct (next_fault (faults w)) as [[msg|n msg]|].
      * destruct Hpath as [_ Hsame]. rewrite Hsame in Hp. by apply Hnamed.
      * destruct Hpath as (_ & c & Hc & [-> | ->] & _); congruence.
      * destruct Hpath as [_ Hc]. rewrite Hc in Hp. by injection Hp as <-.
    + rewrite Hout in Hp by done. by apply Hnamed.
  - rewrite <-Hdom. apply set_eq. intros p. split; [|by apply Hsub].
    destruct (decide (p = fn)) as [->|Hne]; [done|].
    rewrite !elem_of_dom, Hout by done. done.
  - intros p Hp. rewrite Hout by done. by apply Hother.
Qed.

Lemma first_file_turn env : preserves J (worker_turn env).
Proof.
  intros w Hw. pose proof Hw as (Hnamed & Hdom & Hother).
  assert (first_queue_file w fn) as Hfn by (by eapply first_queue_file_dom).
  destruct (blpop_job_run w fn Hfn) as (f & Hf & Hrun).
  unfold exec, worker_turn. unfold_m. rewrite Hrun.
  destruct f as [|j n|job]; simpl; [done | done |].
  destruct (decide (j_id job = "")); [done|].
  pose proof (Hnamed _ _ Hf) as Hname.
  assert (preserves J (process_job env (j_id job))) as Hproc.
  { apply wstable_process_job; [done | done | done | |].
    - intros j Hj. apply first_file_save. by rewrite Hj.
    - intros w1 j (Hn1 & _) Hj. apply Hn1 in Hj. by apply json_name_inj in Hj. }
  assert (∀ e, preserves J
    (loaded ← load_job (j_id job);
     let job' := default (mkJob (j_id job) None Error None None None None) loaded in
     save_job (set_error (exn_str e) (set_status Error job')))) as Hhandler.
  { intros e. apply wstable_handler.
    - intros j Hj. apply first_file_save. by rewrite Hj.
    - intros w1 j (Hn1 & _) Hj. apply Hn1 in Hj. by apply json_name_inj in Hj. }
  apply (preserves_try_except J _ _ Hproc Hhandler w Hw).
Qed.

Lemma first_file_loop envs : preserves J (worker_loop envs).
Proof.
  induction envs as [|env rest IH]; [apply preserves_ret|]. simpl.
  apply preserves_bind; [apply first_file_turn | by intros _].
Qed.
End first_file.

(** X14: the worker never gets past the first file: in a queue whose records
    are in the files named after their ids, after any number of turns of
    the loop, whatever the collaborators and the disk do, the first file
    is still the first and every other file of the queue is as it was. *)
Theorem worker_never_leaves_the_first_file w fn envs :
  well_named w → first_queue_file w fn →
  let w' := exec (worker_loop envs) w in
  first_queue_file w' fn ∧
  ∀ p, p ≠ fn → QUEUE_DIR w' !! p = QUEUE_DIR w !! p.
Proof.
  intros Hnamed Hfirst w'.
  destruct (first_file_loop w fn Hfirst envs w) as (_ & Hdom & Hother).
  { by split_and!. }
  split; [by eapply first_queue_file_dom | done].
Qed.

Lemma well_named_queue_of_two : well_named queue_of_two.
Proof.
  intros p j. unfold queue_of_two. simpl.
  destruct (decide (p = "a.json")) as [->|Ha].
  { rewrite file_insert_eq. by intros [= <-]. }
  rewrite file_insert_ne by done.
  destruct (decide (p = "a-b.json")) as [->|Hb].
  { rewrite file_insert_eq. by intros [= <-]. }
  rewrite file_insert_ne by done. by rewrite lookup_empty.
Qed.

Lemma worker_never_leaves_the_first_file_witness :
  QUEUE_DIR (exec (worker_loop [env_ok; env_no_folder; env_ok]) queue_of_two)
    !! "a.json" = Some (Complete job_a).
Proof.
  destruct (worker_never_leaves_the_first_file queue_of_two "a-b.json"
              [env_ok; env_no_folder; env_ok] well_named_queue_of_two first_of_two)
    as [_ Hother].
  rewrite Hother by done. by vm_compute.
Defined.

(** ** One turn of the worker on a disk without faults *)

(** [T c F]: the file of the job holds [c], no fault is to come, and
    the folders satisfy [F]. *)
Section turn.
Variables (env : Env) (job_id : string).
Implicit Types (F : gmap string (list string) → Prop).

Let T (c : file Job) F (w : World) : Prop :=
  QUEUE_DIR w !! json_name job_id = Some c ∧ faults w = [] ∧ F (folders w).
Let has_folder (fo : gmap string (list string)) : Prop := is_Some (fo !! job_id).

Lemma turn_save j c F (Q : unit → World → Prop) (E : exn → World → Prop) w :
  j_id j = job_id → T c F w →
  (∀ w', T (Complete j) F w' → Q tt w') →
  wp (save_job j) Q E w.
Proof.
  intros Hid (Hc & Hf & HF) HQ. destruct w as [dir fo zi flts lg]. simpl in *.
  subst flts. unfold wp, save_job, emit, write_job. unfold_m. simpl.
  apply HQ. split_and!; simpl; [|done..]. by rewrite Hid, file_insert_eq.
Qed.

Lemma turn_emit e c F (Q : unit → World → Prop) (E : exn → World → Prop) w :
  T c F w → (∀ w', T c F w' → Q tt w') → wp (emit e) Q E w.
Proof. intros Hw HQ. by apply wp_modify, HQ. Qed.

Lemma turn_download_loop c urls : ∀ idx w,
  (∀ i u, urls !! i = Some u → ∃ r, yt_dlp env (idx + i) u = Ok r) →
  T c has_folder w →
  wp (download_loop env job_id idx urls) (λ _, T c has_folder) (λ _ _, False) w.
Proof.
  induction urls as [|u rest IH]; intros idx w Hall Hw; [done|]. simpl.
  apply wp_bind. eapply turn_emit; [done|]. intros w1 H1.
  destruct (Hall 0 u) as [res Hres]; [done|]. rewrite Nat.add_0_r in Hres.
  apply wp_bind. unfold wp at 1, lift. rewrite Hres.
  apply wp_bind, wp_modify. apply IH.
  - intros i u' Hi. replace (S idx + i) with (idx + S i) by lia. by apply Hall.
  - destruct H1 as (? & ? & Hfo). split_and!; [done..|]. simpl.
    unfold has_folder in *. rewrite lookup_alter_eq. by apply fmap_is_Some.
Qed.

Lemma turn_download_urls c F urls w :
  (∀ i u, urls !! i = Some u → ∃ r, yt_dlp env (S i) u = Ok r) →
  T c F w →
  wp (download_urls env job_id urls) (λ _, T c has_folder) (λ _ _, False) w.
Proof.
  intros Hall (Hc & Hf & _). unfold download_urls.
  apply wp_bind, wp_modify. apply turn_download_loop; [done|].
  unfold has_folder. destruct (folders w !! job_id) eqn:Hfo.
  - split_and!; [done..|]. by rewrite Hfo.
  - split_and!; [done..|]. simpl. by rewrite lookup_insert_eq.
Qed.

Lemma turn_drive {A} ev (r : Res A) c F (Q : A → World → Prop) E w :
  T c F w →
  (∀ w', T c F w' →
     if token_file_exists env
     then match r with Ok a => Q a w' | Raise e => E e w' end
     else E (SystemExit ("Missing " +:+ TOKEN_FILE
               +:+ ". Run auth.py locally and upload token.json.")) w') →
  wp (emit ev;; get_drive_service env;; lift r) Q E w.
Proof.
  intros Hw HQ. apply wp_bind. eapply turn_emit; [done|]. intros w1 H1.
  specialize (HQ w1 H1). unfold get_drive_service.
  destruct (token_file_exists env).
  - apply wp_bind, wp_ret. unfold wp, lift. by destruct r.
  - by apply wp_bind, wp_raise.
Qed.

Lemma turn_upload_files c F parent_id files : ∀ w,
  token_file_exists env = true →
  (∀ path, ∃ r, files_create_media env path parent_id = Ok r) →
  T c F w →
  wp (upload_files env parent_id files) (λ _, T c F) (λ _ _, False) w.
Proof.
  induction files as [|fp rest IH]; intros w Htok Hall Hw; [done|]. simpl.
  apply wp_bind. eapply turn_drive; [done|]. intros w1 H1. rewrite Htok.
  destruct (Hall fp) as [r ->]. by apply IH.
Qed.

(** [process_job] up to the folder creation on Drive. *)
Lemma turn_prologue job F (Q : unit → World → Prop) E w
    (rest : M World unit) :
  j_id job = job_id →
  (∀ i u, default [] (j_urls job) !! i = Some u →
          ∃ r, yt_dlp env (S i) u = Ok r) →
  T (Complete job) F w →
  (∀ w', T (Complete (set_status Running job)) has_folder w' → wp rest Q E w') →
  wp (save_job (set_status Running job);;
      download_urls env job_id (default [] (j_urls (set_status Running job)));;
      rest) Q E w.
Proof.
  intros Hid Hall Hw Hrest.
  apply wp_bind. eapply turn_save; [done | done |]. intros w1 H1.
  apply wp_bind.
  eapply wp_mono; [by eapply turn_download_urls | | done].
  intros ? w2 H2. by apply Hrest.
Qed.
End turn.

Lemma wp_wlift {A} (r : Res A) (Q : A → World → Prop) E w :
  match r with Ok a => Q a w | Raise e => E e w end → wp (lift r) Q E w.
Proof. unfold wp, lift. by destruct r. Qed.

Lemma status_on_disk job_id job w :
  QUEUE_DIR w !! json_name job_id = Some (Complete job) →
  outcome (status job_id) w = Ok (BJob job, 200).
Proof. intros Hf. unfold outcome, status. unfold_m. by rewrite Hf. Qed.

(** X15: the worker ignores the return code of the downloader: on a disk
    without faults, when every call of the downloader returns (with any
    return code) and Drive and the archiver succeed, [process_job] takes
    the job to [done] with the ids of the Drive folder and of the archive,
    sets no error, and removes the folder and the archive from the
    disk. *)
Theorem process_job_ignores_return_codes env job_id job w fid zid :
  QUEUE_DIR w !! json_name job_id = Some (Complete job) →
  j_id job = job_id →
  faults w = [] →
  (∀ i u, default [] (j_urls job) !! i = Some u →
          ∃ r, yt_dlp env (S i) u = Ok r) →
  token_file_exists env = true →
  files_create_folder env ("batch_" +:+ job_id) = Ok fid →
  (∀ path, ∃ r, files_create_media env path fid = Ok r) →
  make_archive env job_id = Ok tt →
  files_create_media env (job_id +:+ ".zip") fid = Ok zid →
  let w' := exec (process_job env job_id) w in
  outcome (process_job env job_id) w = Ok tt ∧
  outcome (status job_id) w'
    = Ok (BJob (set_zip_id zid (set_drive_folder_id fid (set_status Done job))),
          200) ∧
  folders w' !! job_id = None ∧
  job_id ∉ zips w'.
Proof.
  intros Hfile Hid Hflt Hall Htok Hfolder Hmedia Harch Hzip w'.
  set (done := set_zip_id zid (set_drive_folder_id fid (set_status Done job))).
  assert (wp (process_job env job_id)
    (λ _ w', QUEUE_DIR w' !! json_name job_id = Some (Complete done) ∧
             folders w' !! job_id = None ∧ job_id ∉ zips w')
    (λ _ _, False) w) as Hwp.
  { unfold process_job, load_job.
    apply wp_bind, wp_bind, wp_gets. rewrite Hfile.
    apply wp_bind, wp_wlift. simpl. apply wp_ret. cbv zeta.
    eapply (turn_prologue env job_id job (λ _, True)); [done | done | done |].
    intros w1 H1.
    apply wp_bind, wp_try_except, wp_bind. unfold create_drive_folder.
    eapply turn_drive with (F := λ fo, is_Some (fo !! job_id)); [exact H1|].
    intros w2 H2. rewrite Htok, Hfolder.
    apply wp_ret. apply wp_bind, wp_gets, wp_bind, wp_try_except, wp_bind.
    eapply wp_mono;
      [by eapply turn_upload_files with (F := λ fo, is_Some (fo !! job_id)) | | done].
    intros ? w3 H3. apply wp_ret.
    apply wp_bind. unfold zip_folder.
    apply wp_bind.
    eapply turn_emit with (F := λ fo, is_Some (fo !! job_id)); [exact H3|].
    intros w4 H4.
    apply wp_bind, wp_wlift. rewrite Harch. apply wp_modify.
    apply wp_bind, wp_try_except, wp_bind. unfold upload_file_to_drive.
    eapply turn_drive with (F := λ fo, is_Some (fo !! job_id)).
    { destruct H4 as (? & ? & ?). split_and!; [|done|]; simpl; done. }
    intros w5 H5. rewrite Htok, Hzip. apply wp_ret.
    apply wp_bind.
    eapply turn_save with (F := λ fo, is_Some (fo !! job_id)); [done | exact H5 |].
    intros w6 (H6 & _).
    apply wp_bind. unfold rmtree. apply wp_bind, wp_modify, wp_modify.
    apply wp_try_except_all. unfold os_remove.
    apply wp_bind, wp_modify, wp_bind, wp_gets. simpl.
    destruct (bool_decide _) eqn:Hz.
    - apply wp_modify. simpl. rewrite lookup_delete_eq. split_and!; [done..|].
      intros [_ Hn]%elem_of_difference. by apply Hn, elem_of_singleton.
    - apply wp_raise, wp_ret. simpl. rewrite lookup_delete_eq.
      split_and!; [done..|]. by apply bool_decide_eq_false in Hz. }
  apply wp_run in Hwp. destruct (outcome (process_job env job_id) w) as [[]|e];
    [|done].
  destruct Hwp as (Hq & Hfo & Hzi). split_and!; [done | | done | done].
  by apply status_on_disk.
Qed.

Lemma process_job_ignores_return_codes_witness :
  outcome (status "j1") (exec (process_job env_downloads_fail "j1") queue_of_one)
  = Ok (BJob (mkJob "j1" (Some ["u"]) Done (Some []) None (Some "folder1")
                (Some (Some "id-of-j1.zip"))), 200).
Proof.
  apply (process_job_ignores_return_codes env_downloads_fail "j1"
           (mkJob "j1" (Some ["u"]) Queued (Some []) None None None)
           queue_of_one "folder1" (Some "id-of-j1.zip"));
    try reflexivity.
  - intros i u Hu. by eexists.
  - intros path. by eexists.
Defined.

Lemma first_of_one : first_queue_file queue_of_one "j1.json".
Proof.
  assert (dom (QUEUE_DIR queue_of_one) = {["j1.json"]}) as Hdom.
  { change (QUEUE_DIR queue_of_one)
      with (<["j1.json" := Complete (mkJob "j1" (Some ["u"]) Queued (Some [])
                                       None None None)]>
              (<["j1.json" := Empty]> (∅ : gmap string (file Job)))).
    rewrite !dom_insert_L, dom_empty_L. set_solver. }
  unfold first_queue_file. rewrite Hdom. split_and!.
  - by apply elem_of_singleton.
  - reflexivity.
  - intros f ->%elem_of_singleton _. by vm_compute.
Defined.

(** X16: a missing token ends the worker: [get_drive_service] raises
    [SystemExit], which no [except Exception] clause catches, so that the
    exception leaves [process_job] and [worker_loop]: the loop ends, the
    record of the job still says [running], and its folder stays. *)
Theorem missing_token_exits_the_worker env envs job_id job w :
  first_queue_file w (json_name job_id) →
  QUEUE_DIR w !! json_name job_id = Some (Complete job) →
  j_id job = job_id → job_id ≠ "" →
  faults w = [] →
  (∀ i u, default [] (j_urls job) !! i = Some u →
          ∃ r, yt_dlp env (S i) u = Ok r) →
  token_file_exists env = false →
  let w' := exec (worker_loop (env :: envs)) w in
  outcome (worker_loop (env :: envs)) w
    = Raise (SystemExit
               "Missing token.json. Run auth.py locally and upload token.json.") ∧
  outcome (status job_id) w' = Ok (BJob (set_status Running job), 200) ∧
  is_Some (folders w' !! job_id).
Proof.
  intros Hfirst Hfile Hid Hne Hflt Hall Htok w'.
  destruct (blpop_job_run w _ Hfirst) as (f & Hf & Hrun).
  rewrite Hfile in Hf. injection Hf as <-. simpl in Hrun. rewrite Hid in Hrun.
  assert (wp (worker_loop (env :: envs))
    (λ _ _, False)
    (λ e w', e = SystemExit
                   "Missing token.json. Run auth.py locally and upload token.json." ∧
             QUEUE_DIR w' !! json_name job_id
               = Some (Complete (set_status Running job)) ∧
             is_Some (folders w' !! job_id)) w) as Hwp.
  { simpl. apply wp_bind. unfold worker_turn. apply wp_bind.
    unfold wp at 1. rewrite Hrun. simpl.
    destruct (decide (job_id = "")); [done|].
    apply wp_try_except. unfold process_job, load_job.
    apply wp_bind, wp_bind, wp_gets. rewrite Hfile.
    apply wp_bind, wp_wlift. simpl. apply wp_ret. cbv zeta.
    eapply (turn_prologue env job_id job (λ _, True)); [done | done | done |].
    intros w1 H1.
    apply wp_bind, wp_try_except, wp_bind. unfold create_drive_folder.
    eapply turn_drive with (F := λ fo, is_Some (fo !! job_id)); [exact H1|].
    intros w2 (H2 & _ & Hfo). rewrite Htok. by split_and!. }
  apply wp_run in Hwp.
  destruct (outcome (worker_loop (env :: envs)) w) as [[]|e]; [done|].
  destruct Hwp as (-> & Hq & Hfo). split_and!; [done | | done].
  by apply status_on_disk.
Qed.

Lemma missing_token_exits_the_worker_witness :
  outcome (worker_loop [env_worker_no_token; env_ok]) queue_of_one
  = Raise (SystemExit
             "Missing token.json. Run auth.py locally and upload token.json.").
Proof.
  apply (missing_token_exits_the_worker env_worker_no_token [env_ok] "j1"
           (mkJob "j1" (Some ["u"]) Queued (Some []) None None None)
           queue_of_one); try reflexivity.
  - apply first_of_one.
  - discriminate.
  - intros i u Hu. by eexists.
Defined.

(** X17: an exception of the archiver, which [process_job] calls outside its
    [try] blocks, is caught by [worker_loop]: the turn returns, the record
    says [error] with the bare message of the exception, and the folder
    stays on disk. *)
Theorem archive_failure_is_caught_by_the_loop env job_id job w fid msg :
  first_queue_file w (json_name job_id) →
  QUEUE_DIR w !! json_name job_id = Some (Complete job) →
  j_id job = job_id → job_id ≠ "" →
  faults w = [] →
  (∀ i u, default [] (j_urls job) !! i = Some u →
          ∃ r, yt_dlp env (S i) u = Ok r) →
  token_file_exists env = true →
  files_create_folder env ("batch_" +:+ job_id) = Ok fid →
  (∀ path, ∃ r, files_create_media env path fid = Ok r) →
  make_archive env job_id = Raise (Exception msg) →
  let w' := exec (worker_turn env) w in
  outcome (worker_turn env) w = Ok tt ∧
  outcome (status job_id) w'
    = Ok (BJob (set_error msg (set_status Error (set_status Running job))), 200) ∧
  is_Some (folders w' !! job_id).
Proof.
  intros Hfirst Hfile Hid Hne Hflt Hall Htok Hfolder Hmedia Harch w'.
  destruct (blpop_job_run w _ Hfirst) as (f & Hf & Hrun).
  rewrite Hfile in Hf. injection Hf as <-. simpl in Hrun. rewrite Hid in Hrun.
  set (failed := set_error msg (set_status Error (set_status Running job))).
  assert (wp (worker_turn env)
    (λ _ w', QUEUE_DIR w' !! json_name job_id = Some (Complete failed) ∧
             is_Some (folders w' !! job_id))
    (λ _ _, False) w) as Hwp.
  { unfold worker_turn. apply wp_bind.
    unfold wp at 1. rewrite Hrun. simpl.
    destruct (decide (job_id = "")); [done|].
    apply wp_try_except. unfold process_job, load_job.
    apply wp_bind, wp_bind, wp_gets. rewrite Hfile.
    apply wp_bind, wp_wlift. simpl. apply wp_ret. cbv zeta.
    eapply (turn_prologue env job_id job (λ _, True)); [done | done | done |].
    intros w1 H1.
    apply wp_bind, wp_try_except, wp_bind. unfold create_drive_folder.
    eapply turn_drive with (F := λ fo, is_Some (fo !! job_id)); [exact H1|].
    intros w2 H2. rewrite Htok, Hfolder.
    apply wp_ret. apply wp_bind, wp_gets, wp_bind, wp_try_except, wp_bind.
    eapply wp_mono;
      [by eapply turn_upload_files with (F := λ fo, is_Some (fo !! job_id)) | | done].
    intros ? w3 H3. apply wp_ret.
    apply wp_bind. unfold zip_folder.
    apply wp_bind.
    eapply turn_emit with (F := λ fo, is_Some (fo !! job_id)); [exact H3|].
    intros w4 H4.
    apply wp_bind, wp_wlift. rewrite Harch.
    unfold load_job. apply wp_bind, wp_bind, wp_gets.
    destruct H4 as (Hq4 & Hf4 & Hfo4). rewrite Hq4.
    apply wp_bind, wp_wlift. simpl. apply wp_ret. simpl.
    eapply turn_save with (F := λ fo, is_Some (fo !! job_id)); [done | done |].
    intros w5 (H5 & _ & Hfo5). done. }
  apply wp_run in Hwp. destruct (outcome (worker_turn env) w) as [[]|e]; [|done].
  destruct Hwp as (Hq & Hfo). split_and!; [done | | done].
  by apply status_on_disk.
Qed.

Lemma archive_failure_is_caught_by_the_loop_witness :
  outcome (status "j1") (exec (worker_turn env_worker_archive_fails) queue_of_one)
  = Ok (BJob (mkJob "j1" (Some ["u"]) Error (Some [])
                (Some "No space left on device") None None), 200).
Proof.
  apply (archive_failure_is_caught_by_the_loop env_worker_archive_fails "j1"
           (mkJob "j1" (Some ["u"]) Queued (Some []) None None None)
           queue_of_one "folder1" "No space left on device"); try reflexivity.
  - apply first_of_one.
  - discriminate.
  - intros i u Hu. by eexists.
  - intros path. by eexists.
Defined.

(** X18: when Drive refuses the folder, [process_job] records the error and
    returns at once: on a disk without faults, when every call of the
    downloader returns and the creation of the Drive folder raises an
    [Exception], the record says [error] with the message prefixed by
    [Drive folder create failed], and the folder of the job stays on
    disk. *)
Theorem drive_folder_failure_leaves_folder env job_id job w msg :
  QUEUE_DIR w !! json_name job_id = Some (Complete job) →
  j_id job = job_id →
  faults w = [] →
  (∀ i u, default [] (j_urls job) !! i = Some u →
          ∃ r, yt_dlp env (S i) u = Ok r) →
  token_file_exists env = true →
  files_create_folder env ("batch_" +:+ job_id) = Raise (Exception msg) →
  let w' := exec (process_job env job_id) w in
  outcome (process_job env job_id) w = Ok tt ∧
  outcome (status job_id) w'
    = Ok (BJob (set_error ("Drive folder create failed: " +:+ msg)
                  (set_status Error (set_status Running job))), 200) ∧
  is_Some (folders w' !! job_id).
Proof.
  intros Hfile Hid Hflt Hall Htok Hfolder w'.
  set (failed := set_error ("Drive folder create failed: " +:+ msg)
                   (set_status Error (set_status Running job))).
  assert (wp (process_job env job_id)
    (λ _ w', QUEUE_DIR w' !! json_name job_id = Some (Complete failed) ∧
             is_Some (folders w' !! job_id))
    (λ _ _, False) w) as Hwp.
  { unfold process_job, load_job.
    apply wp_bind, wp_bind, wp_gets. rewrite Hfile.
    apply wp_bind, wp_wlift. simpl. apply wp_ret. cbv zeta.
    eapply (turn_prologue env job_id job (λ _, True)); [done | done | done |].
    intros w1 H1.
    apply wp_bind, wp_try_except, wp_bind. unfold create_drive_folder.
    eapply turn_drive with (F := λ fo, is_Some (fo !! job_id)); [exact H1|].
    intros w2 H2. rewrite Htok, Hfolder. simpl.
    apply wp_bind.
    eapply turn_save with (F := λ fo, is_Some (fo !! job_id)); [done | exact H2 |].
    intros w3 (H3 & _ & Hfo). by apply wp_ret. }
  apply wp_run in Hwp. destruct (outcome (process_job env job_id) w) as [[]|e];
    [|done].
  destruct Hwp as (Hq & Hfo). split_and!; [done | | done].
  by apply status_on_disk.
Qed.

Lemma drive_folder_failure_leaves_folder_witness :
  outcome (status "j1") (exec (process_job env_no_folder "j1") queue_of_one)
  = Ok (BJob (mkJob "j1" (Some ["u"]) Error (Some [])
                (Some "Drive folder create failed: quotaExceeded") None None),
        200).
Proof.
  apply (drive_folder_failure_leaves_folder env_no_folder "j1"
           (mkJob "j1" (Some ["u"]) Queued (Some []) None None None)
           queue_of_one "quotaExceeded"); try reflexivity.
  intros i u Hu. by eexists.
Defined.

(** ** The form of the dashboard *)

Import Py PyFacts.

Lemma replace_join sep urls :
  sep = 44%N ∨ sep = 10%N →
  Forall (λ u, 44%N ∉ u) urls →
  replace 44 10 (join [sep] urls) = join [10%N] urls.
Proof.
  intros Hsep. induction 1 as [|u rest Hu Hrest IH]; [done|].
  destruct rest as [|u' rest'].
  - simpl. by apply replace_id.
  - change (join [sep] (u :: u' :: rest'))
      with (u ++ [sep] ++ join [sep] (u' :: rest')).
    change (join [10%N] (u :: u' :: rest'))
      with (u ++ [10%N] ++ join [10%N] (u' :: rest')).
    rewrite !replace_app, IH, replace_id by done. do 2 f_equal.
    by destruct Hsep as [-> | ->].
Qed.

Lemma clean_url_no_comma u : clean_url u → 44%N ∉ u.
Proof.
  intros (_ & _ & _ & Hall) Hin.
  by destruct (proj1 (Forall_forall _ _) Hall _ Hin).
Qed.

(** X19: every URL that the dashboard queues is clean: not empty, with no
    white space at either end, and without comma or line boundary. *)
Theorem parse_urls_clean data : Forall clean_url (parse_urls data).
Proof.
  apply Forall_forall. intros u Hu. unfold parse_urls in Hu.
  apply list_elem_of_filter in Hu as [Hne Hu].
  apply list_elem_of_fmap in Hu as (l & -> & Hl).
  split_and!; [done | apply strip_head | apply strip_last |].
  apply Forall_forall. intros c Hc%strip_elem.
  destruct (splitlines_go_elem _ [] l c (Forall_nil_2 _) Hl Hc)
    as [[?%elem_of_nil|Hin] Hnb]; [done|].
  split; [|done]. apply replace_elem in Hin as [->|[_ ?]]; done.
Qed.

(** X20: clean URLs joined by commas or by line feeds are read back as they
    were, in order. *)
Theorem parse_urls_join sep urls :
  sep = 44%N ∨ sep = 10%N →
  Forall clean_url urls →
  parse_urls (join [sep] urls) = urls.
Proof.
  intros Hsep Hurls. unfold parse_urls.
  rewrite replace_join; [|done|].
  2:{ eapply Forall_impl; [exact Hurls|]. apply clean_url_no_comma. }
  rewrite splitlines_join.
  2:{ eapply Forall_impl; [exact Hurls|]. intros u (Hne & _ & _ & Hall).
      split; [done|]. eapply Forall_impl; [exact Hall|]. by intros c [_ ?]. }
  induction Hurls as [|u rest (Hne & Hh & Hl & _) _ IH]; [done|].
  rewrite fmap_cons, (strip_id u Hh Hl), filter_cons_True by done.
  by f_equal.
Qed.

Lemma parse_urls_nil_blank data :
  Forall (λ c, c = 44%N ∨ Py.isspace c = true) data → parse_urls data = [].
Proof.
  intros Hall. apply elem_of_nil_inv. intros u Hu.
  apply list_elem_of_filter in Hu as [Hne Hu].
  apply list_elem_of_fmap in Hu as (l & -> & Hl).
  apply Hne, strip_nil, Forall_forall. intros c Hc.
  destruct (splitlines_go_elem _ [] l c (Forall_nil_2 _) Hl Hc)
    as [[?%elem_of_nil|Hin] _]; [done|].
  apply replace_elem in Hin as [->|[Hin Hne']]; [done|].
  by destruct (proj1 (Forall_forall _ _) Hall c Hin).
Qed.

(** X21: no URL is left exactly when the field holds nothing but commas and
    white space. *)
Theorem parse_urls_nil data :
  parse_urls data = [] ↔ Forall (λ c, c = 44%N ∨ isspace c = true) data.
Proof.
  split.
  - intros Hnil. apply Forall_forall. intros c Hc.
    destruct (decide (c = 44%N)) as [|Hne]; [by left|]. right.
    destruct (isspace c) eqn:Hsp; [done|]. exfalso.
    assert (islinebreak c = false) as Hnb.
    { destruct (islinebreak c) eqn:Hb; [|done].
      apply islinebreak_isspace in Hb. congruence. }
    destruct (splitlines_go_cover (replace 44 10 data) [] c) as (l & Hl & Hcl).
    { right. split; [by apply replace_keeps | done]. }
    assert (strip l ∈ parse_urls data) as Hin.
    { apply list_elem_of_filter. split.
      - intros Hs. apply (strip_keeps l c) in Hcl; [|done].
        rewrite Hs in Hcl. by apply elem_of_nil in Hcl.
      - apply list_elem_of_fmap. by exists l. }
    rewrite Hnil in Hin. by apply elem_of_nil in Hin.
  - apply parse_urls_nil_blank.
Qed.

Lemma parse_urls_join_witness :
  parse_urls (join [44%N] [[97; 32; 98]; [99]]%N) = [[97; 32; 98]; [99]]%N.
Proof.
  apply parse_urls_join; [by left|].
  repeat constructor; try done; simpl; intros c [= <-]; done.
Defined.

(** X22: the dashboard checks the field, not the list: a field that is not
    empty but holds only commas and white space is accepted, and when the
    write succeeds the job queued has no URL. *)
Theorem blank_submission_is_queued job_id data w :
  data ≠ [] →
  Forall (λ c, c = 44%N ∨ Py.isspace c = true) data →
  next_fault (faults w) = None →
  let w' := exec (enqueue job_id (Some data)) w in
  outcome (enqueue job_id (Some data)) w = Ok ("/status/" +:+ job_id, 302) ∧
  outcome (status job_id) w'
    = Ok (BJob (mkJob job_id (Some []) Queued (Some []) None None None), 200).
Proof.
  intros Hne Hblank Hflt w'. subst w'. apply parse_urls_nil_blank in Hblank.
  destruct data as [|c data]; [done|].
  destruct w as [dir fo zi flts lg]. simpl in Hflt.
  unfold outcome, exec, enqueue, enqueue_job, status, emit, write_job.
  unfold_m. simpl. rewrite Hblank, Hflt. simpl.
  by rewrite file_insert_eq.
Qed.

Lemma blank_submission_is_queued_witness :
  outcome (status "j1") (exec (enqueue "j1" (Some [44; 32; 10]%N)) empty_world)
  = Ok (BJob (mkJob "j1" (Some []) Queued (Some []) None None None), 200).
Proof.
  apply (blank_submission_is_queued "j1" [44; 32; 10]%N empty_world);
    [done | | reflexivity].
  repeat constructor; by right.
Defined.

End WorkerFacts.

(** * Facts about [src/client/send_request.py] *)
Module ClientFacts.
Import Py PyFacts Client.

(** ** Reading the file *)

Lemma universal_newlines_LF rest :
  universal_newlines (10%N :: rest) = 10%N :: universal_newlines rest.
Proof. done. Qed.

Lemma universal_newlines_CR rest :
  universal_newlines (13%N :: rest)
  = 10%N :: (if bool_decide (head rest = Some 10%N)
             then tail (universal_newlines rest) else universal_newlines rest).
Proof.
  simpl. f_equal. destruct rest as [|c' rest']; [done|].
  destruct (N.eqb_spec c' 10) as [->|Hne].
  - by rewrite bool_decide_true.
  - rewrite bool_decide_false; [done|]. by intros [= ?].
Qed.

Lemma universal_newlines_elem s c :
  c ∈ universal_newlines s → c ≠ 13%N ∧ (c ∈ s ∨ c = 10%N).
Proof.
  induction s as [|c0 rest IH].
  { by intros ?%elem_of_nil. }
  destruct (N.eqb_spec c0 13) as [->|Hne].
  - rewrite universal_newlines_CR. intros [->|Hc]%elem_of_cons; [by auto|].
    assert (c ∈ universal_newlines rest) as Hc'.
    { destruct (bool_decide _); [by apply elem_of_tail | done]. }
    destruct (IH Hc') as [? [?|?]]; auto. split; [done|]. left. by right.
  - simpl. apply N.eqb_neq in Hne as Hne'. rewrite Hne'.
    intros [->|Hc]%elem_of_cons; [split; [done|]; left; left|].
    destruct (IH Hc) as [? [?|?]]; auto. split; [done|]. left. by right.
Qed.

Lemma universal_newlines_id s : 13%N ∉ s → universal_newlines s = s.
Proof.
  induction s as [|c rest IH]; [done|]. intros Hs.
  apply not_elem_of_cons in Hs as [Hc Hrest]. simpl.
  destruct (N.eqb_spec c 13); [done|]. by rewrite IH.
Qed.

(** A line of [readlines] is a text without LF, followed by LF unless
    it is the last one. *)
Lemma readlines_go_elem s : ∀ cur l,
  10%N ∉ cur →
  l ∈ readlines_go cur s →
  ∃ body, (l = body ∨ l = body ++ [10%N]) ∧ (10%N ∉ body) ∧
          ∀ c, c ∈ body → c ∈ cur ∨ c ∈ s.
Proof.
  induction s as [|c0 rest IH]; intros cur l Hcur Hl.
  - simpl in Hl. destruct cur as [|x cur']; [by apply elem_of_nil in Hl|].
    apply list_elem_of_singleton in Hl as ->. exists (reverse (x :: cur')).
    split_and!; [by left | by rewrite elem_of_reverse |].
    intros c. rewrite elem_of_reverse. by left.
  - simpl in Hl. destruct (N.eqb_spec c0 10) as [->|Hne].
    + apply elem_of_cons in Hl as [->|Hl].
      * exists (reverse cur). rewrite reverse_cons.
        split_and!; [by right | by rewrite elem_of_reverse |].
        intros c. rewrite elem_of_reverse. by left.
      * destruct (IH [] l) as (body & Hb & Hno & Hin); [by apply not_elem_of_nil|done|].
        exists body. split_and!; [done..|]. intros c Hc.
        destruct (Hin c Hc) as [?%elem_of_nil|?]; [done|]. right. by right.
    + destruct (IH (c0 :: cur) l) as (body & Hb & Hno & Hin); [|done|].
      { by apply not_elem_of_cons. }
      exists body. split_and!; [done..|]. intros c Hc.
      destruct (Hin c Hc) as [Hcur'|?]; [|right; by right].
      apply elem_of_cons in Hcur' as [->|?]; [right; left | by left].
Qed.

Lemma readlines_go_line u : ∀ cur rest,
  10%N ∉ u →
  readlines_go cur (u ++ 10%N :: rest)
  = (reverse cur ++ u ++ [10%N]) :: readlines_go [] rest.
Proof.
  induction u as [|c u IH]; intros cur rest Hu; simpl app.
  - simpl. by rewrite reverse_cons.
  - apply not_elem_of_cons in Hu as [Hc Hu]. simpl.
    destruct (N.eqb_spec c 10); [done|]. rewrite IH by done.
    by rewrite reverse_cons, <-app_assoc.
Qed.

Lemma readlines_go_last u : ∀ cur,
  10%N ∉ u → cur ++ u ≠ [] → readlines_go cur u = [reverse cur ++ u].
Proof.
  induction u as [|c u IH]; intros cur Hu Hne.
  - simpl. rewrite app_nil_r in *. by destruct cur.
  - apply not_elem_of_cons in Hu as [Hc Hu]. simpl.
    destruct (N.eqb_spec c 10); [done|]. rewrite IH; [|done|done].
    by rewrite reverse_cons, <-app_assoc.
Qed.

Lemma strip_LF body : strip (body ++ [10%N]) = strip body.
Proof. unfold strip, rstrip. by rewrite reverse_app. Qed.

Lemma clean_line_no_LF u : clean_line u → 10%N ∉ u.
Proof.
  intros (_ & _ & _ & Hall) Hin.
  by destruct (proj1 (Forall_forall _ _) Hall _ Hin).
Qed.

Lemma clean_line_no_CR u : clean_line u → 13%N ∉ u.
Proof.
  intros (_ & _ & _ & Hall) Hin.
  by destruct (proj1 (Forall_forall _ _) Hall _ Hin) as [_ ?].
Qed.

Lemma clean_line_strip u : clean_line u → strip u = u.
Proof.
  intros (_ & Hh & Hl & _). apply strip_id; [|done].
  intros c Hc. by destruct (Hh c Hc).
Qed.

Lemma clean_line_kept u :
  clean_line u → u ≠ [] ∧ startswith 35 u = false.
Proof.
  intros (Hne & Hh & _). split; [done|]. destruct u as [|c u]; [done|]. simpl.
  apply N.eqb_neq. by destruct (Hh c eq_refl).
Qed.

Lemma join_no_CR urls : Forall clean_line urls → 13%N ∉ join [10%N] urls.
Proof.
  induction 1 as [|u rest Hu Hrest IH]; [by apply not_elem_of_nil|].
  destruct rest as [|u' rest']; [by apply clean_line_no_CR|].
  change (join [10%N] (u :: u' :: rest'))
    with (u ++ [10%N] ++ join [10%N] (u' :: rest')).
  rewrite !not_elem_of_app. split_and!; [by apply clean_line_no_CR | | done].
  by intros ?%list_elem_of_singleton.
Qed.

Lemma read_lines_join urls :
  Forall clean_line urls →
  filter (λ l, l ≠ [] ∧ startswith 35 l = false)
    (strip <$> readlines_go [] (join [10%N] urls)) = urls.
Proof.
  induction 1 as [|u rest Hu Hrest IH]; [done|].
  pose proof (clean_line_kept u Hu) as Hkept.
  destruct rest as [|u' rest'].
  - simpl join. rewrite readlines_go_last;
      [|by apply clean_line_no_LF | by destruct Hu as [? _]; destruct u].
    simpl. rewrite clean_line_strip by done. by rewrite filter_cons_True.
  - change (join [10%N] (u :: u' :: rest'))
      with (u ++ 10%N :: join [10%N] (u' :: rest')).
    rewrite readlines_go_line by (by apply clean_line_no_LF).
    rewrite fmap_cons. simpl (reverse [] ++ _).
    rewrite strip_LF, clean_line_strip by done.
    rewrite filter_cons_True by done. f_equal. exact IH.
Qed.

Lemma read_lines_join_LF urls :
  Forall clean_line urls →
  filter (λ l, l ≠ [] ∧ startswith 35 l = false)
    (strip <$> readlines_go [] (join [10%N] urls ++ [10%N])) = urls.
Proof.
  induction 1 as [|u rest Hu Hrest IH].
  { simpl. rewrite filter_cons_False; [done|]. by intros [? _]. }
  pose proof (clean_line_kept u Hu) as Hkept.
  assert (join [10%N] (u :: rest) ++ [10%N]
          = u ++ 10%N :: match rest with
                         | [] => []
                         | _ => join [10%N] rest ++ [10%N]
                         end) as ->.
  { destruct rest as [|u' rest']; [done|].
    change (join [10%N] (u :: u' :: rest'))
      with (u ++ 10%N :: join [10%N] (u' :: rest')).
    by rewrite <-app_assoc. }
  rewrite readlines_go_line by (by apply clean_line_no_LF).
  rewrite fmap_cons. simpl (reverse [] ++ _).
  rewrite strip_LF, clean_line_strip by done.
  rewrite filter_cons_True by done. f_equal.
  destruct rest as [|u' rest']; [done | exact IH].
Qed.

(** X23: every URL that the client sends is clean: not empty, with no white
    space at either end, not beginning with [#], and without LF or CR. *)
Theorem read_urls_clean content : Forall clean_line (read_urls content).
Proof.
  apply Forall_forall. intros u Hu. unfold read_urls in Hu.
  apply list_elem_of_filter in Hu as [[Hne Hhash] Hu].
  apply list_elem_of_fmap in Hu as (l & -> & Hl).
  destruct (readlines_go_elem _ [] l (not_elem_of_nil _) Hl)
    as (body & Hb & Hno & Hin).
  assert (strip l = strip body) as Heq.
  { destruct Hb as [-> | ->]; [done | apply strip_LF]. }
  rewrite Heq in *. split_and!; [done | | apply strip_last |].
  - intros c Hc. split; [by eapply strip_head|].
    destruct (strip body) as [|c' s]; [done|]. simpl in *.
    injection Hc as ->. by apply N.eqb_neq.
  - apply Forall_forall. intros c Hc%strip_elem. split.
    + by intros ->.
    + destruct (Hin c Hc) as [?%elem_of_nil|Hc']; [done|].
      by apply universal_newlines_elem in Hc' as [? _].
Qed.

(** X24: a file of clean URLs, one per line, is read back as it was written,
    with or without a final line feed. *)
Theorem read_urls_join urls :
  Forall clean_line urls →
  read_urls (join [10%N] urls) = urls ∧
  read_urls (join [10%N] urls ++ [10%N]) = urls.
Proof.
  intros Hurls. pose proof (join_no_CR urls Hurls) as Hcr.
  unfold read_urls, readlines. split.
  - rewrite universal_newlines_id by done. by apply read_lines_join.
  - rewrite universal_newlines_id.
    2:{ rewrite not_elem_of_app. split; [done|]. by intros ?%list_elem_of_singleton. }
    by apply read_lines_join_LF.
Qed.

Lemma read_urls_join_witness :
  read_urls (join [10%N] [[104; 116; 116; 112]; [97; 35; 98]]%N)
  = [[104; 116; 116; 112]; [97; 35; 98]]%N.
Proof.
  apply (read_urls_join [[104; 116; 116; 112]; [97; 35; 98]]%N).
  constructor; [|constructor; [|constructor]];
    (split_and!;
     [done | intros c [= <-]; by split | intros c [= <-]; done
     |by repeat constructor]).
Defined.

(** ** The submission *)



End ClientFacts.
